(** * Inline autocompletion engine of the editor fork: a shallow embedding

    The development follows
    [src/vs/workbench/contrib/void/browser/autocompleteService.ts]:
    the bounded prediction cache ([LRUCache]), the context extractor
    ([getPrefixAndSuffixInfo]), the classifier ([getCompletionOptions]),
    the matchup engine ([getAutocompletionMatchup]), the postprocessor
    ([postprocessAutocompletion]) and the request lifecycle of
    [_provideInlineCompletionItems].

    JavaScript strings are modelled as lists of code units below U+0100
    ([list ascii]); indices are [Z], with [-1] for "not found", as in the
    source.  Values of a cache are defined values ([undefined] is the [None]
    of a lookup), and counters, sizes and times are integers in the range
    where the arithmetic of numbers is exact. *)

From Stdlib Require Import ZArith Ascii String List Bool Lia.
From stdpp Require Import base option list gmap strings.

Local Open Scope Z_scope.

(** ** JavaScript string and array primitives used by the service *)

Module Js.

Abbreviation str := (list ascii).

(** A literal of the source. *)
Definition lit (s : string) : str := list_ascii_of_string s.

Definition ch_eqb (a b : ascii) : bool := Ascii.eqb a b.

(** [\s] of regular expressions and the white space of [trim]: TAB, LF, VT,
    FF, CR, SPACE and NBSP are the ones below U+0100. *)
Definition isWhiteSpace (c : ascii) : bool :=
  match c with
  | "009"%char | "010"%char | "011"%char | "012"%char | "013"%char
  | " "%char | "160"%char => true
  | _ => false
  end.

(** Line terminators, after which [^] holds under the [m] flag. *)
Definition isLineTerminator (c : ascii) : bool :=
  match c with
  | "010"%char | "013"%char => true
  | _ => false
  end.

Fixpoint trimStart (s : str) : str :=
  match s with
  | c :: r => if isWhiteSpace c then trimStart r else s
  | [] => []
  end.

Definition trimEnd (s : str) : str := rev (trimStart (rev s)).

Definition trim (s : str) : str := trimEnd (trimStart s).

(** A string is truthy when it is not empty. *)
Definition truthy (s : str) : bool :=
  match s with [] => false | _ => true end.

Fixpoint startsWith (s pre : str) {struct pre} : bool :=
  match pre, s with
  | [], _ => true
  | p :: pre', c :: s' => ch_eqb p c && startsWith s' pre'
  | _ :: _, [] => false
  end.

Definition endsWith (s suf : str) : bool := startsWith (rev s) (rev suf).

(** [s.indexOf(pat)]: the least position at which [pat] occurs. *)
Fixpoint indexOf_from (s pat : str) : option nat :=
  if startsWith s pat then Some 0%nat
  else match s with
       | [] => None
       | _ :: r => S <$> indexOf_from r pat
       end.

(** [s.lastIndexOf(pat)]: the greatest position at which [pat] occurs. *)
Fixpoint lastIndexOf_from (s pat : str) : option nat :=
  match s with
  | [] => if startsWith [] pat then Some 0%nat else None
  | _ :: r =>
      match lastIndexOf_from r pat with
      | Some i => Some (S i)
      | None => if startsWith s pat then Some 0%nat else None
      end
  end.

Definition found (o : option nat) : Z :=
  match o with Some i => Z.of_nat i | None => -1 end.

Definition indexOf (s pat : str) : Z := found (indexOf_from s pat).
Definition lastIndexOf (s pat : str) : Z := found (lastIndexOf_from s pat).
Definition includes (s pat : str) : bool :=
  match indexOf_from s pat with Some _ => true | None => false end.

(** [s.search(/[...]/)] for a one-character class. *)
Fixpoint search_from (p : ascii -> bool) (s : str) : option nat :=
  match s with
  | [] => None
  | c :: r => if p c then Some 0%nat else S <$> search_from p r
  end.

Definition search (p : ascii -> bool) (s : str) : Z := found (search_from p s).

(** Relative index of [slice]: negative counts from the end. *)
Definition relIndex (len i : Z) : Z :=
  if i <? 0 then Z.max (len + i) 0 else Z.min i len.

(** [x.slice(start, end)] of strings and arrays; [None] is an omitted [end]. *)
Definition slice {A} (l : list A) (start : Z) (end_ : option Z) : list A :=
  let len := Z.of_nat (length l) in
  let from := relIndex len start in
  let to := match end_ with None => len | Some e => relIndex len e end in
  take (Z.to_nat (to - from)) (drop (Z.to_nat from) l).

Definition clampIndex (len i : Z) : Z := Z.min (Z.max i 0) len.

(** [s.substring(a, b)]: both ends clamped, swapped when out of order. *)
Definition substring {A} (l : list A) (a : Z) (b : option Z) : list A :=
  let len := Z.of_nat (length l) in
  let a' := clampIndex len a in
  let b' := match b with None => len | Some e => clampIndex len e end in
  let from := Z.min a' b' in
  let to := Z.max a' b' in
  take (Z.to_nat (to - from)) (drop (Z.to_nat from) l).

(** [s.split(sep)] for a separator that is not empty.  [skip] counts the
    characters of a separator just matched that are still to be dropped; the
    result is the piece being read and the pieces after it. *)
Fixpoint split_aux (sep : str) (skip : nat) (s : str) : str * list str :=
  match s with
  | [] => ([], [])
  | c :: r =>
      match skip with
      | S k => split_aux sep k r
      | O =>
          if startsWith s sep then
            let '(cur, rest) := split_aux sep (Nat.pred (length sep)) r in
            ([], cur :: rest)
          else
            let '(cur, rest) := split_aux sep 0 r in
            (c :: cur, rest)
      end
  end.

Definition split (s sep : str) : list str :=
  let '(cur, rest) := split_aux sep 0 s in cur :: rest.

(** [pieces.join(sep)]. *)
Fixpoint join (pieces : list str) (sep : str) : str :=
  match pieces with
  | [] => []
  | [p] => p
  | p :: ps => p ++ sep ++ join ps sep
  end.

(** [x[i]] of strings and arrays: [undefined] outside of the range. *)
Definition index {A} (l : list A) (i : Z) : option A :=
  if i <? 0 then None else l !! Z.to_nat i.

(** The text that string concatenation gives to [undefined]. *)
Definition undefined_text : str := lit "undefined".

End Js.

(** ** The insertion-ordered [Map] of the language *)

Module JsMap.
Abbreviation t K V := (list (K * V)).

Section Defs.
Context {K V : Type} `{EqDecision K}.

Definition empty : t K V := [].

Fixpoint get (m : t K V) (k : K) : option V :=
  match m with
  | [] => None
  | (k', v) :: r => if decide (k' = k) then Some v else get r k
  end.

Definition has (m : t K V) (k : K) : bool :=
  match get m k with Some _ => true | None => false end.

(** An existing key keeps its place, a new one goes last. *)
Fixpoint put (m : t K V) (k : K) (v : V) : t K V :=
  match m with
  | [] => [(k, v)]
  | (k', v') :: r =>
      if decide (k' = k) then (k', v) :: r else (k', v') :: put r k v
  end.

Fixpoint remove (m : t K V) (k : K) : t K V :=
  match m with
  | [] => []
  | (k', v') :: r =>
      if decide (k' = k) then r else (k', v') :: remove r k
  end.

Definition size (m : t K V) : nat := length m.

Definition keys (m : t K V) : list K := m.*1.
Definition values (m : t K V) : list V := m.*2.
End Defs.
End JsMap.

(** ** [class LRUCache<K, V>] *)

Module LRUCache.
Section Defs.
Context {K V E : Type} `{EqDecision K}.

(** What a method does besides returning: calls of the disposal callback
    (with what the callback stands for in [E]) and updates of [items], in
    program order. *)
Inductive op :=
| Dispose (e : E) (v : V) (k : K)
| ItemsDelete (k : K)
| ItemsSet (k : K) (v : V)
| ItemsClear.

Record t := mk {
  items : JsMap.t K V;
  keyOrder : list K;
  maxSize : Z;
  disposeCallback : option (V -> K -> E);
}.

(** [constructor(maxSize, disposeCallback?)]: throws on a size that is not
    positive. *)
Definition new (maxSize : Z) (disposeCallback : option (V -> K -> E))
  : string + t :=
  if maxSize <=? 0 then inl "Cache size must be greater than 0"%string
  else inr (mk JsMap.empty [] maxSize disposeCallback).

(** The guarded call [if (this.disposeCallback && value !== undefined)]. *)
Definition callDispose (c : t) (value : option V) (key : K) : list op :=
  match disposeCallback c, value with
  | Some f, Some v => [Dispose (f v key) v key]
  | _, _ => []
  end.

(** [set(key, value)].  With an empty [keyOrder] the key "to evict" is
    [undefined], which [items] does not hold: nothing is disposed of or
    deleted. *)
Definition set (c : t) (key : K) (value : V) : t * list op :=
  let '(c1, ops) :=
    if JsMap.has (items c) key then
      (mk (items c) (filter (fun k => k <> key) (keyOrder c))
          (maxSize c) (disposeCallback c), [])
    else if maxSize c <=? Z.of_nat (JsMap.size (items c)) then
      match keyOrder c with
      | key0 :: order' =>
          let value0 := JsMap.get (items c) key0 in
          (mk (JsMap.remove (items c) key0) order'
              (maxSize c) (disposeCallback c),
           callDispose c value0 key0 ++ [ItemsDelete key0])
      | [] => (c, [])
      end
    else (c, []) in
  (mk (JsMap.put (items c1) key value) (keyOrder c1 ++ [key])
      (maxSize c1) (disposeCallback c1),
   ops ++ [ItemsSet key value]).

(** [delete(key)], with the boolean it returns. *)
Definition delete (c : t) (key : K) : t * bool * list op :=
  match JsMap.get (items c) key with
  | Some v =>
      (mk (JsMap.remove (items c) key)
          (filter (fun k => k <> key) (keyOrder c))
          (maxSize c) (disposeCallback c),
       true,
       callDispose c (Some v) key ++ [ItemsDelete key])
  | None => (c, false, [])
  end.

Definition clear (c : t) : t * list op :=
  (mk JsMap.empty [] (maxSize c) (disposeCallback c),
   flat_map (fun kv => callDispose c (Some kv.2) kv.1) (items c)
     ++ [ItemsClear]).

Definition size (c : t) : nat := JsMap.size (items c).

Definition has (c : t) (key : K) : bool := JsMap.has (items c) key.

(** Replaying the updates of [items] that a method reports. *)
Definition applyOp (m : JsMap.t K V) (o : op) : JsMap.t K V :=
  match o with
  | Dispose _ _ _ => m
  | ItemsDelete k => JsMap.remove m k
  | ItemsSet k v => JsMap.put m k v
  | ItemsClear => JsMap.empty
  end.

Definition replay (m : JsMap.t K V) (ops : list op) : JsMap.t K V :=
  fold_left applyOp ops m.

Definition disposals (ops : list op) : list (V * K) :=
  flat_map (fun o => match o with Dispose _ v k => [(v, k)] | _ => [] end) ops.

(** What [set] calls that neither meet their key nor a full cache do. *)
Definition setOps (kvs : list (K * V)) : list op :=
  map (fun kv => ItemsSet kv.1 kv.2) kvs.

(** A run of [set] calls, with everything they did. *)
Fixpoint setAll (c : t) (kvs : list (K * V)) : t * list op :=
  match kvs with
  | [] => (c, [])
  | (k, v) :: r =>
      let '(c1, ops1) := set c k v in
      let '(c2, ops2) := setAll c1 r in
      (c2, ops1 ++ ops2)
  end.

(** The calls that change a cache, and a run of them. *)
Inductive call :=
| CallSet (key : K) (value : V)
| CallDelete (key : K)
| CallClear.

Definition perform (c : t) (x : call) : t * list op :=
  match x with
  | CallSet key value => set c key value
  | CallDelete key => let '(c', _, ops) := delete c key in (c', ops)
  | CallClear => clear c
  end.

Fixpoint performAll (c : t) (xs : list call) : t * list op :=
  match xs with
  | [] => (c, [])
  | x :: r =>
      let '(c1, ops1) := perform c x in
      let '(c2, ops2) := performAll c1 r in
      (c2, ops1 ++ ops2)
  end.

(** The state that the methods keep: [items] has each key once,
    [keyOrder] lists the same keys in some order, and the size is within
    the positive capacity. *)
Definition wellFormed (c : t) : Prop :=
  NoDup (JsMap.keys (items c))
  /\ keyOrder c ≡ₚ JsMap.keys (items c)
  /\ 0 < maxSize c
  /\ Z.of_nat (size c) <= maxSize c.
End Defs.
Arguments t : clear implicits.
Arguments op : clear implicits.
Arguments call : clear implicits.
End LRUCache.

(** ** The autocompletion service *)

Module Autocomplete.
Import Js.

Definition CR : ascii := "013"%char.
Definition LF : ascii := "010"%char.
Definition TAB : ascii := "009"%char.
Definition SPACE : ascii := " "%char.

Definition allLinebreakSymbols : list str := [[CR; LF]; [LF]].

Inductive AutocompletionPredictionType :=
| SingleLineFillMiddle
| SingleLineRedoSuffix
| MultiLineStartOnNextLine
| DoNotPredict.

Inductive Status := Pending | Finished | Error.

(** A promise of a string, as far as its settling goes. *)
Inductive Promise := Unsettled | Resolved (value : str) | Rejected (reason : str).

Definition resolve (p : option Promise) (value : str) : option Promise :=
  match p with Some Unsettled => Some (Resolved value) | _ => p end.

Definition reject (p : option Promise) (reason : str) : option Promise :=
  match p with Some Unsettled => Some (Rejected reason) | _ => p end.

Module Autocompletion.
Record t := mk {
  id : Z;
  prefix : str;
  suffix : str;
  llmPrefix : str;
  llmSuffix : str;
  startTime : Z;
  endTime : option Z;
  status : Status;
  type : AutocompletionPredictionType;
  llmPromise : option Promise;
  insertText : str;
  requestId : option str;
  _newlineCount : Z;
}.
End Autocompletion.
Abbreviation Autocompletion := Autocompletion.t.

Definition DEBOUNCE_TIME : Z := 500.
Definition TIMEOUT_TIME : Z := 60000.
Definition MAX_CACHE_SIZE : Z := 20.
Definition MAX_PENDING_REQUESTS : Z := 2.

Module PrefixAndSuffixInfo.
Record t := mk {
  prefix : str;
  suffix : str;
  prefixLines : list str;
  suffixLines : list str;
  prefixToTheLeftOfCursor : str;
  suffixToTheRightOfCursor : str;
}.
End PrefixAndSuffixInfo.
Abbreviation PrefixAndSuffixInfo := PrefixAndSuffixInfo.t.

Module AutocompletionMatchupBounds.
Record t := mk {
  startLine : Z;
  startCharacter : Z;
  startIdx : Z;
}.
End AutocompletionMatchupBounds.
Abbreviation AutocompletionMatchupBounds := AutocompletionMatchupBounds.t.

Module CompletionOptions.
Record t := mk {
  predictionType : AutocompletionPredictionType;
  shouldGenerate : bool;
  llmPrefix : str;
  llmSuffix : str;
  stopTokens : list str;
}.
End CompletionOptions.
Abbreviation CompletionOptions := CompletionOptions.t.

(** Modelled from the spec: [extractCodeFromRegular] of
    [common/helpers/extractCodeFromResult], which "extracts the text from
    any surrounding formatting fences".  A text that opens with a fence
    loses the fence line and, when it closes with a fence (with or without a
    line break after it), that fence and the line break before it; any other
    text is returned as it is. *)
Definition fence : str := lit "```".

Definition dropLastBreak (s : str) : str :=
  if endsWith s [LF] then removelast s else s.

Definition dropClosingFence (s : str) : str :=
  if endsWith s fence then
    dropLastBreak (take (length s - length fence) s)
  else if endsWith s (fence ++ [LF]) then
    dropLastBreak (take (length s - S (length fence)) s)
  else s.

Fixpoint dropThroughBreak (s : str) : str :=
  match s with
  | [] => []
  | c :: r => if ch_eqb c LF then r else dropThroughBreak r
  end.

Definition extractCodeFromRegular_spec (text : str) (recentlyAddedTextLen : Z) : str :=
  if startsWith text fence then
    dropClosingFence (dropThroughBreak (drop (length fence) text))
  else text.

Section Platform.
(** [isWindows] of [base/common/platform]. *)
Variable isWindows : bool.
(** The first component of what [extractCodeFromRegular] returns. *)
Variable extractCodeFromRegular : str -> Z -> str.

Definition _ln : str :=
  if isWindows then nth 0 allLinebreakSymbols [] else nth 1 allLinebreakSymbols [].

Definition processStartAndEndSpaces (result : str) : str :=
  let result := extractCodeFromRegular result (Z.of_nat (length result)) in
  let hasLeadingSpace := startsWith result [SPACE] in
  let hasTrailingSpace := endsWith result [SPACE] in
  (if hasLeadingSpace then [SPACE] else [])
    ++ trim result
    ++ (if hasTrailingSpace then [SPACE] else []).

(** [s.replace(/^\s+/gm, '')].  [^] holds at the start and after a line
    terminator; a run of white space that starts there is removed whole. *)
Inductive LineState := AtLineStart | InRemovedRun | InLine.

Fixpoint removeLeftTabs (st : LineState) (s : str) : str :=
  match s with
  | [] => []
  | c :: r =>
      match st with
      | AtLineStart | InRemovedRun =>
          if isWhiteSpace c then removeLeftTabs InRemovedRun r
          else c :: removeLeftTabs InLine r
      | InLine =>
          c :: removeLeftTabs (if isLineTerminator c then AtLineStart else InLine) r
      end
  end.

Definition removeLeftTabsAndTrimEnds (s : str) : str :=
  let trimmedString := trimEnd s in
  let trailingEnd := slice s (Z.of_nat (length trimmedString)) None in
  let s := if includes trailingEnd _ln then trimmedString ++ _ln else s in
  removeLeftTabs AtLineStart s.

Definition removeAllWhitespace (s : str) : str :=
  filter (fun c => isWhiteSpace c = false) s.

Definition isOpening (c : ascii) : bool :=
  ch_eqb c "("%char || ch_eqb c "{"%char || ch_eqb c "["%char.

Definition isClosing (c : ascii) : bool :=
  ch_eqb c ")"%char || ch_eqb c "}"%char || ch_eqb c "]"%char.

(** [pairs[c]] of the record [{ ')': '(', '}': '{', ']': '[' }]. *)
Definition pairs (c : ascii) : option ascii :=
  if ch_eqb c ")"%char then Some "("%char
  else if ch_eqb c "}"%char then Some "{"%char
  else if ch_eqb c "]"%char then Some "["%char
  else None.

(** The stack has its top first. *)
Definition seedStep (stack : list ascii) (bracket : ascii) : list ascii :=
  if isOpening bracket then bracket :: stack
  else match stack with
       | top :: stack' =>
           if decide (Some top = pairs bracket) then stack' else bracket :: stack
       | [] => bracket :: stack
       end.

Definition seedStack (prefix : str) : list ascii :=
  let firstOpenIdx := search isOpening prefix in
  if firstOpenIdx =? -1 then []
  else
    let brackets :=
      filter (fun c => includes (lit "()[]{}") [c] = true)
             (slice prefix firstOpenIdx None) in
    fold_left seedStep brackets [].

(** The index at which the loop over [s] returns early, if it does. *)
Fixpoint unbalancedIdx (stack : list ascii) (s : str) : option nat :=
  match s with
  | [] => None
  | char :: r =>
      if isOpening char then S <$> unbalancedIdx (char :: stack) r
      else if isClosing char then
        match stack with
        | [] => Some 0%nat
        | top :: stack' =>
            if decide (Some top = pairs char) then S <$> unbalancedIdx stack' r
            else Some 0%nat
        end
      else S <$> unbalancedIdx stack r
  end.

Definition getStringUpToUnbalancedClosingParenthesis (s prefix : str) : str :=
  match unbalancedIdx (seedStack prefix) s with
  | Some i => substring s 0 (Some (Z.of_nat i))
  | None => s
  end.

(** The reading of "unbalanced" in the description of the postprocessor:
    brackets are counted on a stack, an opening one is pushed and a closing
    one takes the top away; the closing bracket at position [i] of [s] is
    unbalanced when the stack reached before it is empty or has another
    bracket than its partner on top. *)
Definition depthStep (stack : list ascii) (c : ascii) : list ascii :=
  if isOpening c then c :: stack
  else if isClosing c then tail stack
  else stack.

Definition stackAfter (stack : list ascii) (text : str) : list ascii :=
  fold_left depthStep text stack.

Definition unbalancedCloserAt (stack : list ascii) (s : str) (i : nat) : Prop :=
  exists c, s !! i = Some c /\ isClosing c = true
            /\ head (stackAfter stack (take i s)) <> pairs c.

(** The seeding in words.  Nothing counts before the first opening bracket
    of the prefix.  From there on an opening bracket is pushed; a closing
    bracket takes the top away when the top is its partner, and is pushed
    itself when it is not, or when the stack is empty. *)
Fixpoint seedScan_spec (stack : list ascii) (text : str) : list ascii :=
  match text with
  | [] => stack
  | c :: r =>
      if isOpening c then seedScan_spec (c :: stack) r
      else if isClosing c then
        match stack with
        | top :: stack' =>
            if decide (Some top = pairs c) then seedScan_spec stack' r
            else seedScan_spec (c :: stack) r
        | [] => seedScan_spec [c] r
        end
      else seedScan_spec stack r
  end.

Fixpoint seedStack_spec (prefix : str) : list ascii :=
  match prefix with
  | [] => []
  | c :: r => if isOpening c then seedScan_spec [c] r else seedStack_spec r
  end.

(** [getPrefixAndSuffixInfo(model, position)].  [fullText] is what
    [model.getValue(EndOfLinePreference.LF)] returns and [cursorOffset]
    what [model.getOffsetAt(position)] returns. *)
Definition getPrefixAndSuffixInfo (fullText : str) (cursorOffset : Z)
  : PrefixAndSuffixInfo :=
  let prefix := substring fullText 0 (Some cursorOffset) in
  let suffix := substring fullText cursorOffset None in
  let prefixLines := split prefix _ln in
  let suffixLines := split suffix _ln in
  let prefixToTheLeftOfCursor := default [] (head (slice prefixLines (-1) None)) in
  let suffixToTheRightOfCursor := default [] (head suffixLines) in
  PrefixAndSuffixInfo.mk prefix suffix prefixLines suffixLines
    prefixToTheLeftOfCursor suffixToTheRightOfCursor.

Definition getIndex (s : str) (line char : Z) : Z :=
  Z.of_nat (length (join (slice (split s _ln) 0 (Some line)) _ln))
  + (if line >? 0 then 1 else 0) + char.

Fixpoint takeWhile (p : ascii -> bool) (s : str) : str :=
  match s with
  | c :: r => if p c then c :: takeWhile p r else []
  | [] => []
  end.

(** The match of [new RegExp(`[^${_ln}]*$`)]: the longest end of [s] with
    no character of [_ln] in it. *)
Definition getLastLine (s : str) : str :=
  rev (takeWhile (fun c => negb (existsb (ch_eqb c) _ln)) (rev s)).

Definition getAutocompletionMatchup (prefix : str) (autocompletion : Autocompletion)
  : option AutocompletionMatchupBounds :=
  let trimmedCurrentPrefix := removeLeftTabsAndTrimEnds prefix in
  let trimmedCompletionPrefix :=
    removeLeftTabsAndTrimEnds (Autocompletion.prefix autocompletion) in
  let trimmedCompletionMiddle :=
    removeLeftTabsAndTrimEnds (Autocompletion.insertText autocompletion) in
  if (length trimmedCurrentPrefix <? length trimmedCompletionPrefix)%nat then None
  else if negb (startsWith (trimmedCompletionPrefix ++ trimmedCompletionMiddle)
                           trimmedCurrentPrefix) then None
  else
    let lineStart :=
      Z.of_nat (length (split trimmedCurrentPrefix _ln))
      - Z.of_nat (length (split trimmedCompletionPrefix _ln)) in
    if lineStart <? 0 then None
    else
      let currentPrefixLine := getLastLine trimmedCurrentPrefix in
      let completionPrefixLine :=
        if lineStart =? 0 then getLastLine trimmedCompletionPrefix else [] in
      let completionMiddleLine :=
        index (split (Autocompletion.insertText autocompletion) _ln) lineStart in
      let fullCompletionLine :=
        completionPrefixLine ++ default undefined_text completionMiddleLine in
      let charMatchIdx := indexOf fullCompletionLine currentPrefixLine in
      if charMatchIdx <? 0 then None
      else
        let character :=
          charMatchIdx + Z.of_nat (length currentPrefixLine)
          - Z.of_nat (length completionPrefixLine) in
        let startIdx :=
          getIndex (Autocompletion.insertText autocompletion) lineStart character in
        Some (AutocompletionMatchupBounds.mk lineStart character startIdx).

Definition getCompletionOptions (prefixAndSuffix : PrefixAndSuffixInfo)
    (relevantContext : str) (justAcceptedAutocompletion : bool) : CompletionOptions :=
  let prefixToTheLeftOfCursor :=
    PrefixAndSuffixInfo.prefixToTheLeftOfCursor prefixAndSuffix in
  let suffixToTheRightOfCursor :=
    PrefixAndSuffixInfo.suffixToTheRightOfCursor prefixAndSuffix in
  let suffixLines :=
    slice (split (PrefixAndSuffixInfo.suffix prefixAndSuffix) _ln) 0 (Some 25) in
  let prefixLines :=
    slice (split (PrefixAndSuffixInfo.prefix prefixAndSuffix) _ln) (-25) None in
  let prefix := join prefixLines _ln in
  let suffix := join suffixLines _ln in
  let isLineEmpty :=
    negb (truthy (trim prefixToTheLeftOfCursor))
    && negb (truthy (trim suffixToTheRightOfCursor)) in
  let isLinePrefixEmpty :=
    (length (removeAllWhitespace prefixToTheLeftOfCursor) =? 0)%nat in
  let isLineSuffixEmpty :=
    (length (removeAllWhitespace suffixToTheRightOfCursor) =? 0)%nat in
  if justAcceptedAutocompletion && isLineSuffixEmpty then
    let prefixWithNewline := prefix ++ _ln in
    CompletionOptions.mk MultiLineStartOnNextLine true prefixWithNewline suffix
      [_ln ++ _ln]
  else if isLineEmpty then
    CompletionOptions.mk SingleLineFillMiddle true prefix suffix allLinebreakSymbols
  else if (length (removeAllWhitespace suffixToTheRightOfCursor) <=? 3)%nat then
    let suffixLinesIgnoringThisLine := slice suffixLines 1 None in
    let suffixStringIgnoringThisLine :=
      if (length suffixLinesIgnoringThisLine =? 0)%nat then []
      else _ln ++ join suffixLinesIgnoringThisLine _ln in
    CompletionOptions.mk SingleLineRedoSuffix true prefix
      suffixStringIgnoringThisLine allLinebreakSymbols
  else if negb isLinePrefixEmpty then
    CompletionOptions.mk SingleLineFillMiddle true prefix suffix allLinebreakSymbols
  else
    CompletionOptions.mk DoNotPredict false prefix suffix [].

Fixpoint countLeading (c : ascii) (s : str) : nat :=
  match s with
  | x :: r => if ch_eqb x c then S (countLeading c r) else 0%nat
  | [] => 0%nat
  end.

(** [s.match(new RegExp(`^${_ln}+`))?.[0].length || 0]: in the pattern the
    [+] repeats the last character of [_ln] only. *)
Definition numStartingNewlinesOf (s : str) : Z :=
  let init := removelast _ln in
  match last _ln with
  | None => 0
  | Some c =>
      if startsWith s init then
        let n := countLeading c (drop (length init) s) in
        if (0 <? n)%nat then Z.of_nat (length init + n) else 0
      else 0
  end.

Definition isSpaceOrTab (c : ascii) : bool := ch_eqb c TAB || ch_eqb c SPACE.

Definition bracketsAndQuotes : str :=
  lit "{}()[]<>`'" ++ [ascii_of_nat 34].

Definition type_eqb (a b : AutocompletionPredictionType) : bool :=
  match a, b with
  | SingleLineFillMiddle, SingleLineFillMiddle
  | SingleLineRedoSuffix, SingleLineRedoSuffix
  | MultiLineStartOnNextLine, MultiLineStartOnNextLine
  | DoNotPredict, DoNotPredict => true
  | _, _ => false
  end.

(** [postprocessAutocompletion], in its three parts: the start of what
    remains of the insertion, its exclusive end, and the cut. *)
Definition postprocessStartIdx (autocompletionMatchup : AutocompletionMatchupBounds)
    (autocompletion : Autocompletion) (prefixAndSuffix : PrefixAndSuffixInfo) : Z :=
  let prefixToTheLeftOfCursor :=
    PrefixAndSuffixInfo.prefixToTheLeftOfCursor prefixAndSuffix in
  let suffixToTheRightOfCursor :=
    PrefixAndSuffixInfo.suffixToTheRightOfCursor prefixAndSuffix in
  let generatedMiddle := Autocompletion.insertText autocompletion in
  let startIdx := AutocompletionMatchupBounds.startIdx autocompletionMatchup in
  let charToLeftOfCursor := head (slice prefixToTheLeftOfCursor (-1) None) in
  let userHasAddedASpace :=
    match charToLeftOfCursor with
    | Some c => isSpaceOrTab c
    | None => false
    end in
  let rawFirstNonspaceIdx :=
    search (fun c => negb (isSpaceOrTab c)) (slice generatedMiddle startIdx None) in
  let startIdx :=
    if (rawFirstNonspaceIdx >? -1) && userHasAddedASpace then
      let firstNonspaceIdx := rawFirstNonspaceIdx + startIdx in
      Z.max startIdx firstNonspaceIdx
    else startIdx in
  let numStartingNewlines :=
    numStartingNewlinesOf (slice generatedMiddle startIdx None) in
  if negb (truthy (trim prefixToTheLeftOfCursor))
     && negb (truthy (trim suffixToTheRightOfCursor))
     && (numStartingNewlines >? 0)
  then startIdx + numStartingNewlines else startIdx.

Definition postprocessEndIdx (autocompletion : Autocompletion)
    (prefixAndSuffix : PrefixAndSuffixInfo) (startIdx : Z) : Z :=
  let prefixToTheLeftOfCursor :=
    PrefixAndSuffixInfo.prefixToTheLeftOfCursor prefixAndSuffix in
  let suffixToTheRightOfCursor :=
    PrefixAndSuffixInfo.suffixToTheRightOfCursor prefixAndSuffix in
  let generatedMiddle := Autocompletion.insertText autocompletion in
  let endIdx := Z.of_nat (length generatedMiddle) in
  let endIdx :=
    if type_eqb (Autocompletion.type autocompletion) SingleLineFillMiddle
       && truthy (trim suffixToTheRightOfCursor) then
      let rawMatchIndex :=
        lastIndexOf (slice generatedMiddle startIdx None)
                    (take 1 (trim suffixToTheRightOfCursor)) in
      if rawMatchIndex >? -1 then
        let matchIdx := rawMatchIndex + startIdx in
        let matchChar := index generatedMiddle matchIdx in
        if includes bracketsAndQuotes
             (match matchChar with Some c => [c] | None => undefined_text end)
        then Z.min endIdx matchIdx else endIdx
      else endIdx
    else endIdx in
  let restOfLineToGenerate :=
    default [] (head (split (slice generatedMiddle startIdx None) _ln)) in
  if truthy (trim prefixToTheLeftOfCursor)
     && negb (truthy (trim suffixToTheRightOfCursor))
     && truthy (trim restOfLineToGenerate) then
    let rawNewlineIdx := indexOf (slice generatedMiddle startIdx None) _ln in
    if rawNewlineIdx >? -1 then
      let newlineIdx := rawNewlineIdx + startIdx in
      Z.min endIdx newlineIdx
    else endIdx
  else endIdx.

Definition postprocessAutocompletion (autocompletionMatchup : AutocompletionMatchupBounds)
    (autocompletion : Autocompletion) (prefixAndSuffix : PrefixAndSuffixInfo) : str :=
  let startIdx :=
    postprocessStartIdx autocompletionMatchup autocompletion prefixAndSuffix in
  let endIdx := postprocessEndIdx autocompletion prefixAndSuffix startIdx in
  let completionStr :=
    slice (Autocompletion.insertText autocompletion) startIdx (Some endIdx) in
  getStringUpToUnbalancedClosingParenthesis completionStr
    (PrefixAndSuffixInfo.prefix prefixAndSuffix).

(** [getIsSubsequence({ of, subsequence })]: the loop over [of] (here [of_]), with what
    is left of [subsequence] to find and the last character matched. *)
Fixpoint subsequenceLoop (of_ remaining lastMatchChar : str) : bool * str :=
  match of_ with
  | [] => (false, lastMatchChar)
  | c :: rest =>
      match remaining with
      | s :: remaining' =>
          if ch_eqb c s then
            match remaining' with
            | [] => (true, [c])
            | _ :: _ => subsequenceLoop rest remaining' [c]
            end
          else subsequenceLoop rest remaining lastMatchChar
      | [] => (true, lastMatchChar)
      end
  end.

Definition getIsSubsequence (of_ subsequence : str) : bool * str :=
  match subsequence, of_ with
  | [], _ => (true, [])
  | _ :: _, [] => (false, [])
  | _ :: _, _ :: _ => subsequenceLoop of_ subsequence []
  end.

(** [Position] and [Range] of the editor, as the numbers they are built
    from. *)
Record Position := mkPosition {
  lineNumber : Z;
  column : Z;
}.

Record Range := mkRange {
  startLineNumber : Z;
  startColumn : Z;
  endLineNumber : Z;
  endColumn : Z;
}.

Definition MAX_SAFE_INTEGER : Z := 2 ^ 53 - 1.

(** [toInlineCompletions]: the text to show and the range it replaces. *)
Definition toInlineCompletions (autocompletionMatchup : AutocompletionMatchupBounds)
    (autocompletion : Autocompletion) (prefixAndSuffix : PrefixAndSuffixInfo)
    (position : Position) : list (str * Range) :=
  let trimmedInsertText :=
    postprocessAutocompletion autocompletionMatchup autocompletion prefixAndSuffix in
  let rangeToReplace :=
    mkRange (lineNumber position) (column position)
      (lineNumber position) (column position) in
  if type_eqb (Autocompletion.type autocompletion) SingleLineRedoSuffix then
    let oldSuffix := PrefixAndSuffixInfo.suffixToTheRightOfCursor prefixAndSuffix in
    let newSuffix := Autocompletion.insertText autocompletion in
    let '(isSubsequence, lastMatchingChar) :=
      getIsSubsequence (removeAllWhitespace newSuffix) (removeAllWhitespace oldSuffix) in
    if isSubsequence then
      [(trimmedInsertText,
        mkRange (lineNumber position) (column position)
          (lineNumber position) MAX_SAFE_INTEGER)]
    else
      let lastMatchupIdx := lastIndexOf trimmedInsertText lastMatchingChar in
      let trimmedInsertText := slice trimmedInsertText 0 (Some (lastMatchupIdx + 1)) in
      let numCharsToReplace := lastIndexOf oldSuffix lastMatchingChar + 1 in
      [(trimmedInsertText,
        mkRange (lineNumber position) (column position)
          (lineNumber position)
          (column position + numCharsToReplace))]
  else [(trimmedInsertText, rangeToReplace)].

(** *** The request callbacks of [_provideInlineCompletionItems]

    Each callback is a function of the [Autocompletion] object it closes
    over; [now] is what [Date.now()] returns. *)

Definition withPromise (a : Autocompletion) (p : option Promise) : Autocompletion :=
  Autocompletion.mk (Autocompletion.id a) (Autocompletion.prefix a)
    (Autocompletion.suffix a) (Autocompletion.llmPrefix a)
    (Autocompletion.llmSuffix a) (Autocompletion.startTime a)
    (Autocompletion.endTime a) (Autocompletion.status a) (Autocompletion.type a)
    p (Autocompletion.insertText a) (Autocompletion.requestId a)
    (Autocompletion._newlineCount a).

Definition withOutcome (a : Autocompletion) (endTime : Z) (status : Status)
    (insertText : str) : Autocompletion :=
  Autocompletion.mk (Autocompletion.id a) (Autocompletion.prefix a)
    (Autocompletion.suffix a) (Autocompletion.llmPrefix a)
    (Autocompletion.llmSuffix a) (Autocompletion.startTime a)
    (Some endTime) status (Autocompletion.type a)
    (Autocompletion.llmPromise a) insertText (Autocompletion.requestId a)
    (Autocompletion._newlineCount a).

Definition onFinalMessage (newAutocompletion : Autocompletion) (fullText : str)
    (now : Z) : Autocompletion :=
  let text := extractCodeFromRegular fullText 0 in
  let insertText := processStartAndEndSpaces text in
  let insertText :=
    if type_eqb (Autocompletion.type newAutocompletion) MultiLineStartOnNextLine
    then _ln ++ insertText else insertText in
  let a := withOutcome newAutocompletion now Finished insertText in
  withPromise a (resolve (Autocompletion.llmPromise a) insertText).

Definition onError (newAutocompletion : Autocompletion) (message : str) (now : Z)
  : Autocompletion :=
  let a := withOutcome newAutocompletion now Error
             (Autocompletion.insertText newAutocompletion) in
  withPromise a (reject (Autocompletion.llmPromise a) message).

Definition onAbort (newAutocompletion : Autocompletion) : Autocompletion :=
  withPromise newAutocompletion
    (reject (Autocompletion.llmPromise newAutocompletion) (lit "Aborted autocomplete")).

(** The body of the [setTimeout(..., TIMEOUT_TIME)] callback. *)
Definition onTimeout (newAutocompletion : Autocompletion) : Autocompletion :=
  match Autocompletion.status newAutocompletion with
  | Pending =>
      withPromise newAutocompletion
        (reject (Autocompletion.llmPromise newAutocompletion)
                (lit "Timeout receiving message to LLM."))
  | _ => newAutocompletion
  end.

(** What the awaiting code of the request does once the promise is
    settled: [true] when it ends in the [catch] block, which deletes the
    entry and returns no completion. *)
Definition awaitFails (a : Autocompletion) : bool :=
  match Autocompletion.llmPromise a with
  | Some (Rejected _) => true
  | _ => false
  end.

(** *** The state of the service

    The cache of a document holds references to [Autocompletion] objects,
    which the callbacks above go on mutating; [heap] is the store of these
    objects, in the order of their creation.  The counter is a number that
    stays far below 2^53, where its arithmetic is exact. *)

Definition ref := nat.

Record ServiceState := mkState {
  _autocompletionId : Z;
  _autocompletionsOfDocument : gmap string (LRUCache.t Z ref ref);
  _lastCompletionStart : Z;
  _lastCompletionAccept : Z;
  heap : list Autocompletion;
  aborted : list str;
}.

Definition initialState : ServiceState := mkState 0 ∅ 0 0 [] [].

Definition withCaches (st : ServiceState)
    (caches : gmap string (LRUCache.t Z ref ref)) : ServiceState :=
  mkState (_autocompletionId st) caches (_lastCompletionStart st)
    (_lastCompletionAccept st) (heap st) (aborted st).

Definition withHeap (st : ServiceState) (h : list Autocompletion) : ServiceState :=
  mkState (_autocompletionId st) (_autocompletionsOfDocument st)
    (_lastCompletionStart st) (_lastCompletionAccept st) h (aborted st).

(** The disposal callback given to each cache: abort the request of the
    object, when it has one. *)
Definition runDisposals (st : ServiceState) (ops : list (LRUCache.op Z ref ref))
  : ServiceState :=
  let requests :=
    flat_map (fun o =>
      match o with
      | LRUCache.Dispose r _ _ =>
          match heap st !! r with
          | Some a =>
              match Autocompletion.requestId a with
              | Some (c :: q) => [c :: q]
              | _ => []
              end
          | None => []
          end
      | _ => []
      end) ops in
  mkState (_autocompletionId st) (_autocompletionsOfDocument st)
    (_lastCompletionStart st) (_lastCompletionAccept st) (heap st)
    (aborted st ++ requests).

Definition cacheDelete (st : ServiceState) (docUriStr : string) (id : Z)
  : ServiceState :=
  match _autocompletionsOfDocument st !! docUriStr with
  | Some cache =>
      let '(cache', _, ops) := LRUCache.delete cache id in
      runDisposals
        (withCaches st (<[docUriStr := cache']> (_autocompletionsOfDocument st))) ops
  | None => st
  end.

(** The start of a call, up to the scan of the cache: a disabled feature
    returns at once, otherwise the cache of the document is created when
    it is missing. *)
Definition initCache (st : ServiceState) (isEnabled : bool) (docUriStr : string)
  : ServiceState :=
  if negb isEnabled then st
  else
    match _autocompletionsOfDocument st !! docUriStr with
    | Some _ => st
    | None =>
        match LRUCache.new MAX_CACHE_SIZE (Some (fun (r : ref) (_ : Z) => r)) with
        | inr cache =>
            withCaches st (<[docUriStr := cache]> (_autocompletionsOfDocument st))
        | inl _ => st
        end
    end.

(** The scan: the first cached object, in the order of [items.values()],
    that matches the prefix. *)
Fixpoint firstMatchup (h : list Autocompletion) (prefix : str) (values : list ref)
  : option (ref * AutocompletionMatchupBounds) :=
  match values with
  | [] => None
  | r :: rest =>
      match h !! r with
      | Some autocompletion =>
          match getAutocompletionMatchup prefix autocompletion with
          | Some m => Some (r, m)
          | None => firstMatchup h prefix rest
          end
      | None => firstMatchup h prefix rest
      end
  end.

Definition cachedAutocompletion (st : ServiceState) (docUriStr : string)
    (prefix : str) : option (ref * AutocompletionMatchupBounds) :=
  match _autocompletionsOfDocument st !! docUriStr with
  | Some cache => firstMatchup (heap st) prefix (JsMap.values (LRUCache.items cache))
  | None => None
  end.

(** The start of the debounce wait. *)
Definition justAccepted (st : ServiceState) (thisTime : Z) : bool :=
  thisTime - _lastCompletionAccept st <? 500.

Definition startDebounce (st : ServiceState) (thisTime : Z) : ServiceState :=
  mkState (_autocompletionId st) (_autocompletionsOfDocument st) thisTime
    (_lastCompletionAccept st) (heap st) (aborted st).

Definition didTypingHappenDuringDebounce (st : ServiceState) (thisTime : Z) : bool :=
  negb (_lastCompletionStart st =? thisTime).

(** The loop that cancels the oldest pending request: the id to delete,
    if the loop reaches [MAX_PENDING_REQUESTS] pending entries. *)
Fixpoint oldestPendingToCancel (h : list Autocompletion) (values : list ref)
    (numPending : Z) (oldestPending : option Autocompletion) : option Z :=
  match values with
  | [] => None
  | r :: rest =>
      match h !! r with
      | Some autocompletion =>
          match Autocompletion.status autocompletion with
          | Pending =>
              let numPending := numPending + 1 in
              let oldestPending :=
                match oldestPending with
                | None => autocompletion
                | Some o => o
                end in
              if numPending >=? MAX_PENDING_REQUESTS
              then Some (Autocompletion.id oldestPending)
              else oldestPendingToCancel h rest numPending (Some oldestPending)
          | _ => oldestPendingToCancel h rest numPending oldestPending
          end
      | None => oldestPendingToCancel h rest numPending oldestPending
      end
  end.

Definition contextPrompt (lspContext : str) : str :=
  lit "/* Context Information:" ++ [LF] ++ lspContext ++ [LF]
    ++ lit "*/" ++ [LF; LF].

(** The call after the debounce wait, up to the insertion in the cache.
    [lspContext] is what [gatherLSPContext] returned, [now] the time and
    [requestId] what [sendLLMMessage] returned.  The result is the new
    state and the reference of the object created, if one is. *)
Definition createAutocompletion (st : ServiceState) (docUriStr : string)
    (prefixAndSuffix : PrefixAndSuffixInfo) (lspContext : str)
    (justAcceptedAutocompletion : bool) (now : Z) (requestId : option str)
  : ServiceState * option ref :=
  match _autocompletionsOfDocument st !! docUriStr with
  | None => (st, None)
  | Some cache =>
      let st :=
        match oldestPendingToCancel (heap st)
                (JsMap.values (LRUCache.items cache)) 0 None with
        | Some id => cacheDelete st docUriStr id
        | None => st
        end in
      let relevantContext := lspContext in
      let options :=
        getCompletionOptions prefixAndSuffix relevantContext
          justAcceptedAutocompletion in
      let llmPrefix :=
        if truthy lspContext
        then contextPrompt lspContext ++ CompletionOptions.llmPrefix options
        else CompletionOptions.llmPrefix options in
      if negb (CompletionOptions.shouldGenerate options) then (st, None)
      else
        let newAutocompletion :=
          Autocompletion.mk (_autocompletionId st)
            (PrefixAndSuffixInfo.prefix prefixAndSuffix)
            (PrefixAndSuffixInfo.suffix prefixAndSuffix)
            llmPrefix (CompletionOptions.llmSuffix options)
            now None Pending (CompletionOptions.predictionType options)
            (Some Unsettled) [] requestId 0 in
        let r := length (heap st) in
        let st :=
          mkState (_autocompletionId st + 1) (_autocompletionsOfDocument st)
            (_lastCompletionStart st) (_lastCompletionAccept st)
            (heap st ++ [newAutocompletion]) (aborted st) in
        match _autocompletionsOfDocument st !! docUriStr with
        | Some cache =>
            let '(cache', ops) :=
              LRUCache.set cache (Autocompletion.id newAutocompletion) r in
            (runDisposals
               (withCaches st
                  (<[docUriStr := cache']> (_autocompletionsOfDocument st))) ops,
             Some r)
        | None => (st, Some r)
        end
  end.

(** [freeInlineCompletions]: every cached object whose prefix and
    insertion make up the current prefix, white space apart, is taken as
    accepted and deleted. *)
Definition acceptStep (docUriStr : string) (prefix : str) (now : Z)
    (st : ServiceState) (entry : Z * ref) : ServiceState :=
  match _autocompletionsOfDocument st !! docUriStr with
  | Some cache =>
      if negb (LRUCache.has cache entry.1) then st
      else
        match heap st !! entry.2 with
        | Some autocompletion =>
            let matchup :=
              bool_decide
                (removeAllWhitespace prefix
                 = removeAllWhitespace
                     (Autocompletion.prefix autocompletion
                      ++ Autocompletion.insertText autocompletion)) in
            if matchup then
              let st :=
                mkState (_autocompletionId st) (_autocompletionsOfDocument st)
                  (_lastCompletionStart st) now (heap st) (aborted st) in
              cacheDelete st docUriStr (Autocompletion.id autocompletion)
            else st
        | None => st
        end
  | None => st
  end.

Definition freeInlineCompletions (st : ServiceState) (docUriStr : string)
    (prefix : str) (now : Z) : ServiceState :=
  match _autocompletionsOfDocument st !! docUriStr with
  | Some cache =>
      fold_left (acceptStep docUriStr prefix now) (LRUCache.items cache) st
  | None => st
  end.

(** What happens to the service, one uninterrupted piece of code at a
    time. *)
Inductive event :=
| CallStarts (isEnabled : bool) (docUriStr : string)
| DebounceStarts (thisTime : Z)
| RequestIsCreated (docUriStr : string) (prefixAndSuffix : PrefixAndSuffixInfo)
    (lspContext : str) (justAcceptedAutocompletion : bool) (now : Z)
    (requestId : option str)
| FinalMessage (r : ref) (fullText : str) (now : Z)
| ErrorMessage (r : ref) (message : str) (now : Z)
| Aborted (r : ref)
| TimeoutFires (r : ref)
| AwaitFailed (docUriStr : string) (r : ref)
| CompletionsFreed (docUriStr : string) (prefix : str) (now : Z).

Definition mutate (st : ServiceState) (r : ref)
    (f : Autocompletion -> Autocompletion) : ServiceState :=
  match heap st !! r with
  | Some a => withHeap st (<[r := f a]> (heap st))
  | None => st
  end.

Definition step (st : ServiceState) (e : event) : ServiceState :=
  match e with
  | CallStarts isEnabled docUriStr => initCache st isEnabled docUriStr
  | DebounceStarts thisTime => startDebounce st thisTime
  | RequestIsCreated docUriStr prefixAndSuffix lspContext accepted now requestId =>
      (createAutocompletion st docUriStr prefixAndSuffix lspContext accepted
         now requestId).1
  | FinalMessage r fullText now => mutate st r (fun a => onFinalMessage a fullText now)
  | ErrorMessage r message now => mutate st r (fun a => onError a message now)
  | Aborted r => mutate st r onAbort
  | TimeoutFires r => mutate st r onTimeout
  | AwaitFailed docUriStr r =>
      match heap st !! r with
      | Some a =>
          if awaitFails a then cacheDelete st docUriStr (Autocompletion.id a)
          else st
      | None => st
      end
  | CompletionsFreed docUriStr prefix now =>
      freeInlineCompletions st docUriStr prefix now
  end.

Definition run (st : ServiceState) (events : list event) : ServiceState :=
  fold_left step events st.
End Platform.

(** What every state of the service satisfies: an object created as the
    [r]-th one has the id [r], the counter is the number of objects created
    so far, and an entry of the cache of any document is such an object,
    under its id. *)
Definition idsFollowCreation (st : ServiceState) : Prop :=
  (forall (r : ref) a, heap st !! r = Some a -> Autocompletion.id a = Z.of_nat r)
  /\ _autocompletionId st = Z.of_nat (length (heap st))
  /\ (forall docUriStr cache (k : Z) (r : ref),
        _autocompletionsOfDocument st !! docUriStr = Some cache ->
        (k, r) ∈ LRUCache.items cache ->
        exists a, heap st !! r = Some a /\ Autocompletion.id a = k).

(** The caches of all documents are well-formed caches of the one
    capacity. *)
Definition cachesWellFormed (st : ServiceState) : Prop :=
  forall docUriStr cache,
    _autocompletionsOfDocument st !! docUriStr = Some cache ->
    LRUCache.wellFormed cache /\ LRUCache.maxSize cache = MAX_CACHE_SIZE.

(** The object behind a reference is pending. *)
Definition isPendingAt (h : list Autocompletion) (r : ref) : bool :=
  match h !! r with
  | Some a => match Autocompletion.status a with Pending => true | _ => false end
  | None => false
  end.

(** The number of pending objects among the entries of a cache. *)
Definition numPending (h : list Autocompletion) (cache : LRUCache.t Z ref ref) : nat :=
  length (filter (fun r => isPendingAt h r = true) (JsMap.values (LRUCache.items cache))).

(** The test of [freeInlineCompletions] on one object. *)
Definition isAccepted (prefix : str) (a : Autocompletion) : bool :=
  bool_decide
    (removeAllWhitespace prefix
     = removeAllWhitespace (Autocompletion.prefix a ++ Autocompletion.insertText a)).

(** What an object keeps from one state of the service to a later one. *)
Definition laterStateOf (a a' : Autocompletion) : Prop :=
  Autocompletion.id a' = Autocompletion.id a
  /\ Autocompletion.prefix a' = Autocompletion.prefix a
  /\ Autocompletion.suffix a' = Autocompletion.suffix a
  /\ Autocompletion.llmPrefix a' = Autocompletion.llmPrefix a
  /\ Autocompletion.llmSuffix a' = Autocompletion.llmSuffix a
  /\ Autocompletion.startTime a' = Autocompletion.startTime a
  /\ Autocompletion.type a' = Autocompletion.type a
  /\ Autocompletion.requestId a' = Autocompletion.requestId a
  /\ (Autocompletion.llmPromise a <> Some Unsettled ->
      Autocompletion.llmPromise a' = Autocompletion.llmPromise a)
  /\ (Autocompletion.status a <> Pending -> Autocompletion.status a' <> Pending).

(** What a pending object looks like. *)
Definition pendingHoldsNothing (a : Autocompletion) : Prop :=
  (exists p, Autocompletion.llmPromise a = Some p)
  /\ (Autocompletion.status a = Pending ->
      Autocompletion.insertText a = []
      /\ Autocompletion.endTime a = None
      /\ forall value, Autocompletion.llmPromise a <> Some (Resolved value))
  /\ (Autocompletion.llmPromise a = Some Unsettled ->
      Autocompletion.status a = Pending).

(** An entry that [freeInlineCompletions] leaves in the cache. *)
Definition staysAfterAccept (h : list Autocompletion) (prefix : str)
    (entry : Z * ref) : bool :=
  match h !! entry.2 with
  | Some a => negb (isAccepted prefix a)
  | None => true
  end.

Definition isSettled (p : option Promise) : bool :=
  match p with
  | Some (Resolved _) | Some (Rejected _) => true
  | _ => false
  end.

(** Two documents, one request in each; the first one is answered. *)
Definition twoDocuments : list event :=
  [CallStarts true "a.ts"%string; DebounceStarts 10;
   RequestIsCreated "a.ts"%string (getPrefixAndSuffixInfo false (lit "x = ") 4)
     [] false 520 (Some (lit "r0"));
   CallStarts true "b.ts"%string; DebounceStarts 600;
   RequestIsCreated "b.ts"%string (getPrefixAndSuffixInfo false (lit "y = ") 4)
     [] false 1100 (Some (lit "r1"));
   FinalMessage 0%nat (lit "1;") 1200].

(** One request in one document whose timer fires before any answer; the
    awaiting call then finds the promise rejected. *)
Definition timedOutRequest : list event :=
  [CallStarts true "a.ts"%string; DebounceStarts 10;
   RequestIsCreated "a.ts"%string (getPrefixAndSuffixInfo false (lit "x = ") 4)
     [] false 520 (Some (lit "r0"));
   TimeoutFires 0%nat;
   AwaitFailed "a.ts"%string 0%nat].
End Autocomplete.

(** * Properties *)

(** ** The insertion-ordered map *)

Section JsMapFacts.
Context {K V : Type} `{EqDecision K}.
Implicit Types (m : JsMap.t K V) (k : K) (v : V).

Lemma JsMap_get_fresh m k : k ∉ m.*1 -> JsMap.get m k = None.
Proof.
  induction m as [|[k' v'] m IH]; simpl; [done|].
  intros Hk. apply not_elem_of_cons in Hk as [Hne Hk].
  destruct (decide (k' = k)); [congruence | auto].
Qed.

Lemma JsMap_has_fresh m k : k ∉ m.*1 -> JsMap.has m k = false.
Proof. intros Hk. unfold JsMap.has. by rewrite JsMap_get_fresh. Qed.

Lemma JsMap_has_elem m k : JsMap.has m k = true -> k ∈ m.*1.
Proof.
  intros Hhas. destruct (decide (k ∈ m.*1)) as [|Hn]; [done|].
  rewrite (JsMap_has_fresh _ _ Hn) in Hhas. discriminate.
Qed.

Lemma JsMap_put_fresh m k v : k ∉ m.*1 -> JsMap.put m k v = m ++ [(k, v)].
Proof.
  induction m as [|[k' v'] m IH]; simpl; [done|].
  intros Hk. apply not_elem_of_cons in Hk as [Hne Hk].
  destruct (decide (k' = k)); [congruence|]. by rewrite IH.
Qed.

Lemma JsMap_put_keys m k v : JsMap.has m k = true -> (JsMap.put m k v).*1 = m.*1.
Proof.
  unfold JsMap.has. induction m as [|[k' v'] m IH]; simpl; [discriminate|].
  destruct (decide (k' = k)); simpl; [done|]. intros Hg. f_equal. by apply IH.
Qed.

Lemma JsMap_get_put_eq m k v : JsMap.get (JsMap.put m k v) k = Some v.
Proof.
  induction m as [|[k' v'] m IH]; simpl.
  - by rewrite decide_True.
  - destruct (decide (k' = k)) as [->|Hne]; simpl.
    + by rewrite decide_True.
    + by rewrite decide_False.
Qed.

Lemma JsMap_get_put_ne m k k' v :
  k' <> k -> JsMap.get (JsMap.put m k v) k' = JsMap.get m k'.
Proof.
  intros Hne. induction m as [|[k1 v1] m IH]; simpl.
  - destruct (decide (k = k')); congruence.
  - destruct (decide (k1 = k)) as [->|Hk]; simpl.
    + destruct (decide (k = k')); congruence.
    + by rewrite IH.
Qed.

Lemma JsMap_size_put_present m k v :
  JsMap.has m k = true -> JsMap.size (JsMap.put m k v) = JsMap.size m.
Proof.
  intros Hhas. unfold JsMap.size.
  assert (Hlen : length (JsMap.put m k v).*1 = length m.*1)
    by (by rewrite JsMap_put_keys).
  by rewrite !length_fmap in Hlen.
Qed.
End JsMapFacts.

(** ** The bounded prediction cache *)

Section LRUCacheFacts.
Context {K V E : Type} `{EqDecision K}.
Implicit Types (c : LRUCache.t K V E) (k key : K) (kvs : list (K * V)).

Lemma LRUCache_setAll_app c kvs1 kvs2 :
  LRUCache.setAll c (kvs1 ++ kvs2) =
  let '(c1, ops1) := LRUCache.setAll c kvs1 in
  let '(c2, ops2) := LRUCache.setAll c1 kvs2 in
  (c2, ops1 ++ ops2).
Proof.
  revert c. induction kvs1 as [|[k v] kvs1 IH]; intros c; simpl.
  - by destruct (LRUCache.setAll c kvs2).
  - destruct (LRUCache.set c k v) as [c1 ops1].
    rewrite IH. destruct (LRUCache.setAll c1 kvs1) as [c2 ops2].
    destruct (LRUCache.setAll c2 kvs2) as [c3 ops3]. by rewrite app_assoc.
Qed.

(** A new key below capacity is appended, and nothing else happens. *)
Lemma LRUCache_set_room c key value :
  key ∉ (LRUCache.items c).*1 ->
  (Z.of_nat (length (LRUCache.items c)) < LRUCache.maxSize c)%Z ->
  LRUCache.set c key value =
  (LRUCache.mk (LRUCache.items c ++ [(key, value)]) (LRUCache.keyOrder c ++ [key])
     (LRUCache.maxSize c) (LRUCache.disposeCallback c),
   [LRUCache.ItemsSet key value]).
Proof.
  intros Hfresh Hroom. unfold LRUCache.set, JsMap.size.
  rewrite (JsMap_has_fresh _ _ Hfresh).
  destruct (Z.leb_spec (LRUCache.maxSize c) (Z.of_nat (length (LRUCache.items c))));
    [lia|].
  destruct c; simpl in *. by rewrite JsMap_put_fresh.
Qed.

(** Filling a cache that has room for all the new keys. *)
Lemma LRUCache_setAll_room kvs : forall m maxSize (cb : option (V -> K -> E)),
  NoDup ((m ++ kvs).*1) ->
  (Z.of_nat (length (m ++ kvs)) <= maxSize)%Z ->
  LRUCache.setAll (LRUCache.mk m (m.*1) maxSize cb) kvs =
  (LRUCache.mk (m ++ kvs) ((m ++ kvs).*1) maxSize cb, LRUCache.setOps kvs).
Proof.
  induction kvs as [|[k v] kvs IH]; intros m maxSize cb Hnd Hlen.
  - simpl. by rewrite app_nil_r.
  - cbn [LRUCache.setAll].
    assert (Hassoc : m ++ (k, v) :: kvs = (m ++ [(k, v)]) ++ kvs)
      by (by rewrite <- app_assoc).
    rewrite Hassoc in Hnd, Hlen |- *.
    rewrite LRUCache_set_room; cbn [LRUCache.items LRUCache.maxSize
      LRUCache.keyOrder LRUCache.disposeCallback].
    + replace (m.*1 ++ [k]) with ((m ++ [(k, v)]).*1) by (by rewrite fmap_app).
      rewrite (IH _ _ _ Hnd Hlen). done.
    + rewrite !fmap_app in Hnd. apply NoDup_app in Hnd as [Hnd _].
      apply NoDup_app in Hnd as (_ & Hdis & _).
      intros Hin. apply (Hdis _ Hin). simpl. left.
    + rewrite !length_app in Hlen. simpl in Hlen. lia.
Qed.

(** The eviction itself: a new key at capacity. *)
Lemma LRUCache_set_full k0 v0 m key value maxSize (cb : V -> K -> E) :
  key ∉ ((k0, v0) :: m).*1 ->
  (maxSize <= Z.of_nat (length ((k0, v0) :: m)))%Z ->
  LRUCache.set (LRUCache.mk ((k0, v0) :: m) (((k0, v0) :: m).*1) maxSize (Some cb))
    key value =
  (LRUCache.mk (m ++ [(key, value)]) ((m ++ [(key, value)]).*1) maxSize (Some cb),
   [LRUCache.Dispose (cb v0 k0) v0 k0; LRUCache.ItemsDelete k0;
    LRUCache.ItemsSet key value]).
Proof.
  intros Hfresh Hfull. unfold LRUCache.set, JsMap.size.
  cbn [LRUCache.items LRUCache.maxSize LRUCache.keyOrder LRUCache.disposeCallback].
  rewrite (JsMap_has_fresh _ _ Hfresh).
  destruct (Z.leb_spec maxSize (Z.of_nat (length ((k0, v0) :: m)))); [|lia].
  cbn [fmap list_fmap fst JsMap.get JsMap.remove LRUCache.callDispose
       LRUCache.items LRUCache.maxSize LRUCache.keyOrder LRUCache.disposeCallback].
  rewrite !decide_True by done.
  cbn [LRUCache.items LRUCache.maxSize LRUCache.keyOrder LRUCache.disposeCallback].
  rewrite JsMap_put_fresh.
  - by rewrite fmap_app.
  - intros Hin. apply Hfresh. simpl. by right.
Qed.

Lemma replay_app (m : JsMap.t K V) (ops1 ops2 : list (LRUCache.op K V E)) :
  LRUCache.replay (LRUCache.replay m ops1) ops2 = LRUCache.replay m (ops1 ++ ops2).
Proof. unfold LRUCache.replay. by rewrite fold_left_app. Qed.

Lemma replay_setOps kvs : forall (m : JsMap.t K V),
  NoDup ((m ++ kvs).*1) -> LRUCache.replay m (LRUCache.setOps (E:=E) kvs) = m ++ kvs.
Proof.
  induction kvs as [|[k v] kvs IH]; intros m Hnd; simpl.
  - by rewrite app_nil_r.
  - assert (Hassoc : m ++ (k, v) :: kvs = (m ++ [(k, v)]) ++ kvs)
      by (by rewrite <- app_assoc).
    rewrite Hassoc in Hnd |- *.
    rewrite JsMap_put_fresh; [by apply IH|].
    rewrite !fmap_app in Hnd. apply NoDup_app in Hnd as [Hnd _].
    apply NoDup_app in Hnd as (_ & Hdis & _).
    intros Hin. apply (Hdis _ Hin). simpl. left.
Qed.

(** C10: [set] on a key that is present evicts nothing and calls no
    disposal callback, whatever the size of the cache: its only update is
    the new value under that key, every other entry and the order of the
    entries of [items] stay, and the key becomes the most recently used
    one of [keyOrder]. *)
Theorem LRUCache_set_existing_key c key value :
  LRUCache.has c key = true ->
  (LRUCache.set c key value).2 = [LRUCache.ItemsSet key value]
  /\ LRUCache.disposals (LRUCache.set c key value).2 = []
  /\ JsMap.get (LRUCache.items (LRUCache.set c key value).1) key = Some value
  /\ (forall k', k' <> key ->
        JsMap.get (LRUCache.items (LRUCache.set c key value).1) k'
        = JsMap.get (LRUCache.items c) k')
  /\ JsMap.keys (LRUCache.items (LRUCache.set c key value).1)
     = JsMap.keys (LRUCache.items c)
  /\ LRUCache.size (LRUCache.set c key value).1 = LRUCache.size c
  /\ LRUCache.keyOrder (LRUCache.set c key value).1
     = filter (fun k => k <> key) (LRUCache.keyOrder c) ++ [key].
Proof.
  unfold LRUCache.has. intros Hhas. unfold LRUCache.set. rewrite Hhas.
  cbn [fst snd LRUCache.items LRUCache.keyOrder app LRUCache.disposals flat_map].
  repeat split.
  - apply JsMap_get_put_eq.
  - intros k' Hne. by apply JsMap_get_put_ne.
  - by apply JsMap_put_keys.
  - by apply JsMap_size_put_present.
Qed.

(** C5: a cache of capacity [N > 0] that receives [N + 1] [set] calls with
    distinct keys: the first [N] calls only insert; the last one calls the
    disposal callback on the first entry, then deletes that entry, then
    inserts.  So [items] never holds more than [N] entries, neither after
    a call nor between two updates, the callback is called once, on the
    first inserted entry and before its removal, and the cache ends with
    the other [N] entries. *)
Theorem LRUCache_evicts_first_of_capacity_plus_one
    (N : Z) (cb : V -> K -> E) kvs :
  (0 < N)%Z -> length kvs = S (Z.to_nat N) -> NoDup kvs.*1 ->
  exists c0 k0 v0 kN vN,
    LRUCache.new N (Some cb) = inr c0
    /\ head kvs = Some (k0, v0)
    /\ last kvs = Some (kN, vN)
    /\ (LRUCache.setAll c0 kvs).2
       = LRUCache.setOps (take (Z.to_nat N) kvs)
         ++ [LRUCache.Dispose (cb v0 k0) v0 k0; LRUCache.ItemsDelete k0;
             LRUCache.ItemsSet kN vN]
    /\ (forall n,
          (Z.of_nat (LRUCache.size (LRUCache.setAll c0 (take n kvs)).1) <= N)%Z)
    /\ (forall n,
          (Z.of_nat (JsMap.size
             (LRUCache.replay (LRUCache.items c0)
                (take n (LRUCache.setAll c0 kvs).2))) <= N)%Z)
    /\ LRUCache.disposals (LRUCache.setAll c0 kvs).2 = [(v0, k0)]
    /\ LRUCache.items (LRUCache.setAll c0 kvs).1 = drop 1 kvs
    /\ LRUCache.keyOrder (LRUCache.setAll c0 kvs).1 = (drop 1 kvs).*1.
Proof.
  intros HN Hlen Hnd.
  destruct kvs as [|[k0 v0] rest]; [discriminate|].
  injection Hlen as Hlen.
  destruct rest as [|x rest'] using rev_ind; [simpl in Hlen; lia|].
  clear IHrest'. destruct x as [kN vN]. rename rest' into kept.
  rewrite length_app in Hlen. simpl in Hlen.
  set (init := (k0, v0) :: kept).
  assert (HlenI : length init = Z.to_nat N) by (simpl; lia).
  assert (Hkvs : (k0, v0) :: kept ++ [(kN, vN)] = init ++ [(kN, vN)]) by done.
  assert (HndI : NoDup init.*1).
  { rewrite Hkvs, fmap_app in Hnd. by apply NoDup_app in Hnd as [? _]. }
  assert (HfreshN : kN ∉ init.*1).
  { rewrite Hkvs, fmap_app in Hnd. apply NoDup_app in Hnd as (_ & Hdis & _).
    intros Hin. apply (Hdis _ Hin). simpl. left. }
  assert (Hnew : LRUCache.new N (Some cb)
                 = inr (LRUCache.mk (@JsMap.empty K V) [] N (Some cb))).
  { unfold LRUCache.new. destruct (Z.leb_spec N 0); [lia|done]. }
  set (c0 := LRUCache.mk (@JsMap.empty K V) [] N (Some cb)) in *.
  assert (Hfill : forall l, NoDup l.*1 -> (Z.of_nat (length l) <= N)%Z ->
            LRUCache.setAll c0 l = (LRUCache.mk l l.*1 N (Some cb), LRUCache.setOps l)).
  { intros l Hl1 Hl2.
    apply (LRUCache_setAll_room l [] N (Some cb)); simpl; done. }
  assert (Hall : LRUCache.setAll c0 (init ++ [(kN, vN)]) =
            (LRUCache.mk (kept ++ [(kN, vN)]) ((kept ++ [(kN, vN)]).*1) N (Some cb),
             LRUCache.setOps init
             ++ [LRUCache.Dispose (cb v0 k0) v0 k0; LRUCache.ItemsDelete k0;
                 LRUCache.ItemsSet kN vN])).
  { rewrite LRUCache_setAll_app, Hfill by (done || lia).
    cbn [LRUCache.setAll]. unfold init.
    rewrite LRUCache_set_full; [by rewrite app_nil_r | done |].
    fold init. lia. }
  exists c0, k0, v0, kN, vN. rewrite Hkvs, Hall. cbn [fst snd].
  split; [done|]. split; [done|].
  split; [by rewrite last_snoc|].
  split; [by rewrite take_app_length' by done|].
  split.
  { intros n. destruct (decide (n <= length init)%nat) as [Hle|Hgt].
    - rewrite take_app_le by done.
      rewrite Hfill; cbn [fst]; unfold LRUCache.size, JsMap.size;
        cbn [LRUCache.items].
      + rewrite length_take. lia.
      + rewrite fmap_take. eapply sublist_NoDup; [done|apply sublist_take].
      + rewrite length_take. lia.
    - rewrite take_ge by (rewrite length_app; simpl; lia).
      rewrite Hall. cbn [fst]. unfold LRUCache.size, JsMap.size.
      cbn [LRUCache.items]. rewrite length_app. simpl in *. lia. }
  split.
  { assert (Hrep : forall l, NoDup l.*1 ->
              LRUCache.replay (LRUCache.items c0) (LRUCache.setOps (E:=E) l) = l).
    { intros l Hl. apply (replay_setOps l []). done. }
    intros n. unfold JsMap.size.
    destruct (decide (n <= length init)%nat) as [Hle|Hgt].
    - rewrite take_app_le by (by unfold LRUCache.setOps; rewrite length_map).
      unfold LRUCache.setOps. rewrite firstn_map. fold (LRUCache.setOps (E:=E) (take n init)).
      rewrite Hrep
        by (rewrite fmap_take; eapply sublist_NoDup; [done|apply sublist_take]).
      rewrite length_take. lia.
    - replace n with (length (@LRUCache.setOps K V E init) + (n - length init))%nat
        by (unfold LRUCache.setOps; rewrite length_map; lia).
      rewrite take_app_add, <- replay_app, Hrep by done.
      destruct (n - length init)%nat as [|[|[|j]]] eqn:Hj; [lia| | |].
      + cbn. lia.
      + unfold init. cbn. rewrite decide_True by done. simpl in *. lia.
      + unfold init. cbn. rewrite decide_True by done.
        rewrite JsMap_put_fresh.
        * rewrite take_nil. cbn [fold_left]. rewrite length_app. simpl in *. lia.
        * intros Hin. apply HfreshN. simpl. by right. }
  split.
  { unfold LRUCache.disposals. rewrite flat_map_app.
    replace (flat_map _ (LRUCache.setOps init)) with (@nil (V * K)); [done|].
    clear. induction init as [|[k v] l IH]; [done|]. simpl. apply IH. }
  split; [done|]. done.
Qed.
End LRUCacheFacts.

(** ** String primitives *)

Section JsFacts.
Import Js.
Implicit Types (s pat pre : str) (c : ascii).

Lemma ch_eqb_refl c : ch_eqb c c = true.
Proof. apply Ascii.eqb_refl. Qed.

Lemma ch_eqb_eq a b : ch_eqb a b = true <-> a = b.
Proof. apply Ascii.eqb_eq. Qed.

Lemma startsWith_app pre s : startsWith (pre ++ s) pre = true.
Proof.
  induction pre as [|p pre IH]; [done|].
  cbn [app startsWith]. by rewrite ch_eqb_refl, IH.
Qed.

Lemma indexOf_from_startsWith s pat :
  startsWith s pat = true -> indexOf_from s pat = Some 0%nat.
Proof. intros Hs. destruct s; simpl; by rewrite Hs. Qed.

Lemma indexOf_app pre s : indexOf (pre ++ s) pre = 0.
Proof.
  unfold indexOf. by rewrite indexOf_from_startsWith by apply startsWith_app.
Qed.

Lemma split_first s sep : exists cur, split s sep !! 0%nat = Some cur.
Proof. unfold split. destruct (split_aux sep 0 s) as [cur rest]. by exists cur. Qed.

Lemma slice_0_0 {A} (l : list A) : slice l 0 (Some 0) = [].
Proof.
  unfold slice, relIndex. simpl.
  replace (Z.min 0 (Z.of_nat (length l)) - Z.min 0 (Z.of_nat (length l))) with 0 by lia.
  done.
Qed.

Lemma substring_0_take {A} (l : list A) (i : nat) :
  (i <= length l)%nat -> substring l 0 (Some (Z.of_nat i)) = take i l.
Proof.
  intros Hi. unfold substring, clampIndex.
  replace (Z.min (Z.max 0 0) (Z.of_nat (length l))) with 0 by lia.
  replace (Z.min (Z.max (Z.of_nat i) 0) (Z.of_nat (length l))) with (Z.of_nat i) by lia.
  replace (Z.min 0 (Z.of_nat i)) with 0 by lia.
  replace (Z.max 0 (Z.of_nat i) - 0) with (Z.of_nat i) by lia.
  by rewrite Nat2Z.id.
Qed.

Lemma substring_split {A} (l : list A) (i : Z) :
  substring l 0 (Some i) ++ substring l i None = l.
Proof.
  unfold substring, clampIndex.
  set (len := Z.of_nat (length l)).
  set (k := Z.min (Z.max i 0) len).
  assert (Hk : 0 <= k <= len) by (subst k len; lia).
  replace (Z.min (Z.max 0 0) len) with 0 by lia.
  replace (Z.min 0 k) with 0 by lia.
  replace (Z.max 0 k - 0) with k by lia.
  replace (Z.min k len) with k by lia.
  replace (Z.max k len - k) with (len - k) by lia.
  simpl. rewrite (take_ge (drop (Z.to_nat k) l)).
  - apply take_drop.
  - rewrite length_drop. subst len. lia.
Qed.
End JsFacts.

(** ** The matchup engine *)

Section MatchupFacts.
Import Js Autocomplete.
Variable isWindows : bool.

(** C1: the matchup of a stored prediction against its own prefix
    succeeds, and starts at line 0, character 0 and index 0 of the
    insertion. *)
Theorem getAutocompletionMatchup_own_prefix (autocompletion : Autocompletion) :
  getAutocompletionMatchup isWindows
    (Autocompletion.prefix autocompletion) autocompletion
  = Some (AutocompletionMatchupBounds.mk 0 0 0).
Proof.
  unfold getAutocompletionMatchup.
  set (T := removeLeftTabsAndTrimEnds isWindows (Autocompletion.prefix autocompletion)).
  set (M := removeLeftTabsAndTrimEnds isWindows (Autocompletion.insertText autocompletion)).
  rewrite Nat.ltb_irrefl, startsWith_app. cbn [negb].
  rewrite Z.sub_diag. unfold index. cbn [Z.ltb Z.eqb Z.compare].
  change (Z.to_nat 0) with 0%nat.
  destruct (split_first (Autocompletion.insertText autocompletion) (_ln isWindows))
    as [line0 ->].
  cbn [default]. rewrite indexOf_app. cbn [Z.ltb Z.compare].
  unfold getIndex. rewrite slice_0_0. cbn [join length Z.gtb Z.compare].
  repeat f_equal; lia.
Qed.
End MatchupFacts.

(** ** Bracket balance *)

Section BracketFacts.
Import Js Autocomplete.
Implicit Types (stack : list ascii) (s prefix : str) (c : ascii).

Lemma isOpening_not_closing c : isOpening c = true -> isClosing c = false.
Proof. destruct c as [[] [] [] [] [] [] [] []]; vm_compute; congruence. Qed.

Lemma pairs_closing c : isClosing c = true -> pairs c <> None.
Proof. destruct c as [[] [] [] [] [] [] [] []]; vm_compute; congruence. Qed.

Lemma unbalancedCloserAt_0 stack c s :
  unbalancedCloserAt stack (c :: s) 0 <->
  isClosing c = true /\ head stack <> pairs c.
Proof.
  unfold unbalancedCloserAt. simpl. split.
  - intros (c' & [= <-] & Hc & Hh). done.
  - intros [Hc Hh]. by exists c.
Qed.

Lemma unbalancedCloserAt_S stack c s i :
  unbalancedCloserAt stack (c :: s) (S i) <->
  unbalancedCloserAt (depthStep stack c) s i.
Proof. unfold unbalancedCloserAt. by simpl. Qed.

Lemma unbalancedCloserAt_lt stack s i :
  unbalancedCloserAt stack s i -> (i < length s)%nat.
Proof. intros (c & Hc & _). by apply lookup_lt_Some in Hc. Qed.

(** The loop of the source returns at the first unbalanced closing
    bracket, and runs to the end when there is none. *)
Lemma unbalancedIdx_first s : forall stack,
  match unbalancedIdx stack s with
  | Some i =>
      unbalancedCloserAt stack s i
      /\ forall j, (j < i)%nat -> ~ unbalancedCloserAt stack s j
  | None => forall i, ~ unbalancedCloserAt stack s i
  end.
Proof.
  induction s as [|c s IH]; intros stack.
  - cbn [unbalancedIdx]. intros i (c & Hc & _). by destruct i.
  - assert (Hrec : forall stack',
              stack' = depthStep stack c ->
              ~ unbalancedCloserAt stack (c :: s) 0 ->
              match S <$> unbalancedIdx stack' s with
              | Some i =>
                  unbalancedCloserAt stack (c :: s) i
                  /\ forall j, (j < i)%nat -> ~ unbalancedCloserAt stack (c :: s) j
              | None => forall i, ~ unbalancedCloserAt stack (c :: s) i
              end).
    { intros stack' -> H0. specialize (IH (depthStep stack c)).
      destruct (unbalancedIdx (depthStep stack c) s) as [i|]; simpl.
      - destruct IH as [Hi Hmin]. split.
        + by apply unbalancedCloserAt_S.
        + intros [|j] Hj; [done|]. rewrite unbalancedCloserAt_S. apply Hmin. lia.
      - intros [|i]; [done|]. rewrite unbalancedCloserAt_S. apply IH. }
    cbn [unbalancedIdx].
    destruct (isOpening c) eqn:Hopen.
    { apply Hrec.
      - unfold depthStep. by rewrite Hopen.
      - rewrite unbalancedCloserAt_0. intros [Hc _].
        rewrite (isOpening_not_closing _ Hopen) in Hc. discriminate. }
    destruct (isClosing c) eqn:Hclose.
    2:{ apply Hrec.
        - unfold depthStep. by rewrite Hopen, Hclose.
        - rewrite unbalancedCloserAt_0. intros [Hc _]. congruence. }
    destruct stack as [|top stack'].
    { split.
      - apply unbalancedCloserAt_0. split; [done|]. simpl.
        intros Heq. by apply (pairs_closing c).
      - intros j Hj. lia. }
    destruct (decide (Some top = pairs c)) as [Heq|Hne].
    + apply Hrec.
      * unfold depthStep. by rewrite Hopen, Hclose.
      * rewrite unbalancedCloserAt_0. simpl. intros [_ Hh]. done.
    + split.
      * apply unbalancedCloserAt_0. split; [done|]. done.
      * intros j Hj. lia.
Qed.

Lemma isBracket_opening_or_closing c :
  includes (lit "()[]{}") [c] = isOpening c || isClosing c.
Proof. destruct c as [[] [] [] [] [] [] [] []]; vm_compute; reflexivity. Qed.

(** The loop over the brackets of a text does what the scan in words
    does. *)
Lemma seedStep_fold_scan (text : str) : forall stack,
  fold_left seedStep (filter (fun c => includes (lit "()[]{}") [c] = true) text) stack
  = seedScan_spec stack text.
Proof.
  induction text as [|c text IH]; intros stack; [done|].
  cbn [seedScan_spec]. rewrite filter_cons.
  destruct (decide _) as [Hb|Hb]; rewrite isBracket_opening_or_closing in Hb.
  - cbn [fold_left]. rewrite IH. unfold seedStep.
    destruct (isOpening c) eqn:Hopen; [done|].
    destruct (isClosing c) eqn:Hclose; [|done].
    destruct stack as [|top stack']; [done|]. by destruct (decide _).
  - rewrite IH. by destruct (isOpening c), (isClosing c).
Qed.

Lemma slice_from_nat {A} (l : list A) (i : nat) :
  slice l (Z.of_nat i) None = drop i l.
Proof.
  unfold slice, relIndex. destruct (Z.ltb_spec (Z.of_nat i) 0); [lia|].
  rewrite take_ge by (rewrite length_drop; lia).
  destruct (Z.le_gt_cases (Z.of_nat i) (Z.of_nat (length l))).
  - by rewrite Z.min_l, Nat2Z.id.
  - rewrite Z.min_r by lia. rewrite Nat2Z.id. by rewrite !drop_ge by lia.
Qed.

(** The stack that the code builds from the prefix is the one of the scan
    in words. *)
Lemma seedStack_scan prefix : seedStack prefix = seedStack_spec prefix.
Proof.
  assert (Hfrom : forall i, search_from isOpening prefix = Some i ->
            seedScan_spec [] (drop i prefix) = seedStack_spec prefix).
  { induction prefix as [|c r IH]; intros i; cbn [search_from seedStack_spec];
      [done|].
    destruct (isOpening c) eqn:Hopen.
    - intros [= <-]. cbn [drop seedScan_spec]. by rewrite Hopen.
    - destruct (search_from isOpening r) as [j|]; [|done].
      intros [= <-]. by apply IH. }
  assert (Hnone : search_from isOpening prefix = None -> seedStack_spec prefix = []).
  { induction prefix as [|c r IH]; cbn [search_from seedStack_spec]; [done|].
    destruct (isOpening c); [done|].
    destruct (search_from isOpening r); [done|]. intros _. by apply IH. }
  unfold seedStack, search.
  destruct (search_from isOpening prefix) as [i|]; cbn [found].
  - destruct (Z.eqb_spec (Z.of_nat i) (-1)) as [?|_]; [lia|].
    rewrite slice_from_nat, seedStep_fold_scan. by apply Hfrom.
  - cbn [Z.eqb Pos.eqb]. symmetry. by apply Hnone.
Qed.

(** C2, as the code has it: the stack is seeded by the scan of the prefix
    from its first opening bracket on, in which a closing bracket that does
    not find its partner on top is pushed itself; the completion is cut at
    its first closing bracket that meets an empty stack or another top than
    its partner, and kept whole when there is none.  With prefix [if (x) {]
    the insertion [return 1; } } else {] is cut at its second closing
    brace, at position 12, also as the last step of the postprocessor. *)
Theorem truncates_at_first_unbalanced_closer s prefix :
  seedStack prefix = seedStack_spec prefix
  /\ (forall i,
        unbalancedCloserAt (seedStack_spec prefix) s i ->
        (forall j, (j < i)%nat -> ~ unbalancedCloserAt (seedStack_spec prefix) s j) ->
        getStringUpToUnbalancedClosingParenthesis s prefix = take i s)
  /\ ((forall i, ~ unbalancedCloserAt (seedStack_spec prefix) s i) ->
      getStringUpToUnbalancedClosingParenthesis s prefix = s)
  /\ (forall isWindows matchup autocompletion prefixAndSuffix,
        PrefixAndSuffixInfo.prefix prefixAndSuffix = prefix ->
        (let startIdx :=
           postprocessStartIdx isWindows matchup autocompletion prefixAndSuffix in
         slice (Autocompletion.insertText autocompletion) startIdx
           (Some (postprocessEndIdx isWindows autocompletion prefixAndSuffix startIdx)))
        = s ->
        postprocessAutocompletion isWindows matchup autocompletion prefixAndSuffix
        = getStringUpToUnbalancedClosingParenthesis s prefix)
  /\ seedStack_spec (lit "if (x) {") = ["{"%char]
  /\ getStringUpToUnbalancedClosingParenthesis
       (lit "return 1; } } else {") (lit "if (x) {")
     = lit "return 1; } "
  /\ forall isWindows,
       postprocessAutocompletion isWindows
         (AutocompletionMatchupBounds.mk 0 0 0)
         (Autocompletion.mk 0 (lit "if (x) {") [] (lit "if (x) {") [] 0 (Some 1)
            Finished SingleLineFillMiddle (Some (Resolved (lit "return 1; } } else {")))
            (lit "return 1; } } else {") None 0)
         (getPrefixAndSuffixInfo isWindows (lit "if (x) {") 8)
       = take 12 (lit "return 1; } } else {").
Proof.
  pose proof (unbalancedIdx_first s (seedStack prefix)) as Hfirst.
  unfold getStringUpToUnbalancedClosingParenthesis.
  split; [apply seedStack_scan|].
  rewrite <- (seedStack_scan prefix).
  repeat split.
  - intros i Hi Hmin.
    destruct (unbalancedIdx (seedStack prefix) s) as [i'|].
    + destruct Hfirst as [Hi' Hmin'].
      assert (i' = i) as ->.
      { destruct (Nat.lt_trichotomy i' i) as [Hlt|[->|Hgt]]; [|done|].
        - by destruct (Hmin _ Hlt).
        - by destruct (Hmin' _ Hgt). }
      apply substring_0_take. apply unbalancedCloserAt_lt in Hi. lia.
    + by destruct (Hfirst i).
  - intros Hnone.
    destruct (unbalancedIdx (seedStack prefix) s) as [i'|]; [|done].
    destruct Hfirst as [Hi' _]. by destruct (Hnone i').
  - intros isWindows matchup autocompletion prefixAndSuffix Hp Hs.
    unfold postprocessAutocompletion. cbv zeta in Hs. by rewrite Hs, Hp.
  - intros [|]; vm_compute; reflexivity.
Qed.

(** C2, as stated: on a stack of bracket depth, where every closing
    bracket of the prefix takes the top away, the first closing bracket of
    [))] after the prefix [((]] is balanced by the [(] still open and the
    second one is the first unbalanced one; the code returns the empty
    string, the []] of the prefix being on top of its stack. *)
Lemma truncates_balanced_closer_after_mismatch :
  let prefix := lit "((]" in
  let s := lit "))" in
  stackAfter [] prefix = ["("%char]
  /\ ~ unbalancedCloserAt (stackAfter [] prefix) s 0
  /\ unbalancedCloserAt (stackAfter [] prefix) s 1
  /\ seedStack prefix = ["]"%char; "("%char; "("%char]
  /\ getStringUpToUnbalancedClosingParenthesis s prefix = []
  /\ getStringUpToUnbalancedClosingParenthesis s prefix <> take 1 s.
Proof.
  intros prefix s. split; [reflexivity|]. split.
  { intros (c & Hc & _ & Hhead). vm_compute in Hc. injection Hc as <-.
    vm_compute in Hhead. congruence. }
  split.
  { exists ")"%char. repeat split. vm_compute. discriminate. }
  split; [reflexivity|]. split; [reflexivity|]. vm_compute. discriminate.
Qed.
End BracketFacts.

(** ** Leading and trailing spaces *)

Section TrimFacts.
Import Js Autocomplete.
Implicit Types (s : str) (c : ascii).

Local Abbreviation blank := (Forall (fun c => isWhiteSpace c = true)).

Lemma trimStart_split s :
  exists lead, s = lead ++ trimStart s /\ blank lead
    /\ forall c, head (trimStart s) = Some c -> isWhiteSpace c = false.
Proof.
  induction s as [|c s (lead & Heq & Hlead & Hhead)].
  - exists []. by repeat split.
  - cbn [trimStart]. destruct (isWhiteSpace c) eqn:Hc.
    + exists (c :: lead). repeat split; [by rewrite Heq at 1 | by constructor | done].
    + exists []. repeat split; [done|]. by intros c' [= <-].
Qed.

Lemma last_rev {A} (l : list A) : last (rev l) = head l.
Proof. destruct l as [|x l]; [done|]. simpl. apply last_snoc. Qed.

Lemma trimEnd_split s :
  exists trail, s = trimEnd s ++ trail /\ blank trail
    /\ forall c, last (trimEnd s) = Some c -> isWhiteSpace c = false.
Proof.
  unfold trimEnd. destruct (trimStart_split (rev s)) as (lead & Heq & Hlead & Hhead).
  exists (rev lead). repeat split.
  - rewrite <- rev_app_distr, <- Heq. by rewrite rev_involutive.
  - apply Forall_forall. intros c Hc. rewrite Forall_forall in Hlead.
    apply Hlead. apply list_elem_of_In. apply list_elem_of_In in Hc.
    by apply in_rev.
  - intros c. rewrite last_rev. apply Hhead.
Qed.

Lemma trim_split s :
  exists lead trail,
    s = lead ++ trim s ++ trail /\ blank lead /\ blank trail
    /\ (forall c, head (trim s) = Some c -> isWhiteSpace c = false)
    /\ (forall c, last (trim s) = Some c -> isWhiteSpace c = false).
Proof.
  unfold trim.
  destruct (trimStart_split s) as (lead & Heq & Hlead & Hhead).
  destruct (trimEnd_split (trimStart s)) as (trail & Heq' & Htrail & Hlast).
  exists lead, trail. repeat split; [by rewrite <- Heq' | done | done | | done].
  intros c Hc. apply Hhead. rewrite Heq'.
  destruct (trimEnd (trimStart s)); [done|]. exact Hc.
Qed.

(** C7, as the code has it: whatever surrounds the text that
    [extractCodeFromRegular] returns, all its leading and trailing white
    space goes, and one space is put back in front when it began with a
    space and one behind when it ended with one; so ["  foo()  "] becomes
    [" foo() "], with both spaces. *)
Theorem processStartAndEndSpaces_keeps_single_spaces
    (extractCodeFromRegular : str -> Z -> str) (result : str) :
  (exists lead core trail,
     extractCodeFromRegular result (Z.of_nat (length result))
     = lead ++ core ++ trail
     /\ blank lead /\ blank trail
     /\ (forall c, head core = Some c -> isWhiteSpace c = false)
     /\ (forall c, last core = Some c -> isWhiteSpace c = false)
     /\ processStartAndEndSpaces extractCodeFromRegular result
        = (if startsWith (lead ++ core ++ trail) [SPACE] then [SPACE] else [])
          ++ core
          ++ (if endsWith (lead ++ core ++ trail) [SPACE] then [SPACE] else []))
  /\ processStartAndEndSpaces extractCodeFromRegular_spec (lit "  foo()  ")
     = lit " foo() ".
Proof.
  split; [|by vm_compute].
  unfold processStartAndEndSpaces.
  set (r := extractCodeFromRegular result (Z.of_nat (length result))).
  destruct (trim_split r) as (lead & trail & Heq & Hlead & Htrail & Hhead & Hlast).
  exists lead, (trim r), trail. rewrite <- Heq. by repeat split.
Qed.

(** C7, as stated: the two spaces at the end of ["  foo()  "] do not
    all go, neither when the answer is stored nor when the stored insertion
    is offered after [x =]. *)
Lemma processStartAndEndSpaces_keeps_trailing_space :
  processStartAndEndSpaces extractCodeFromRegular_spec (lit "  foo()  ")
  <> lit " foo()"
  /\ (let stored :=
        onFinalMessage false extractCodeFromRegular_spec
          (Autocompletion.mk 0 (lit "x =") [] (lit "x =") [] 0 None Pending
             SingleLineRedoSuffix (Some Unsettled) [] None 0)
          (lit "  foo()  ") 1 in
      Autocompletion.insertText stored = lit " foo() "
      /\ postprocessAutocompletion false (AutocompletionMatchupBounds.mk 0 0 0)
           stored (getPrefixAndSuffixInfo false (lit "x =") 3)
         = lit " foo() ").
Proof. split; by vm_compute. Qed.
End TrimFacts.

(** ** The postprocessor and the suffix of the current line *)

Section SuffixMatchFacts.
Import Js Autocomplete.
Implicit Types (s : str) (c : ascii).

Lemma lastIndexOf_from_lookup s c k :
  lastIndexOf_from s [c] = Some k -> s !! k = Some c.
Proof.
  revert k. induction s as [|c0 s IH]; intros k; cbn [lastIndexOf_from].
  - discriminate.
  - destruct (lastIndexOf_from s [c]) as [i|].
    + intros [= <-]. simpl. by apply IH.
    + cbn [startsWith]. destruct (ch_eqb c c0) eqn:Hc; [|discriminate].
      apply ch_eqb_eq in Hc as ->. by intros [= <-].
Qed.

Lemma slice_from {A} (l : list A) (start : Z) :
  0 <= start -> slice l start None = drop (Z.to_nat start) l.
Proof.
  intros Hs. unfold slice, relIndex.
  destruct (Z.ltb_spec start 0); [lia|].
  rewrite take_ge by (rewrite length_drop; lia).
  destruct (Z.le_gt_cases start (Z.of_nat (length l))).
  - by rewrite Z.min_l.
  - rewrite Z.min_r by lia. rewrite Nat2Z.id.
    by rewrite !drop_ge by lia.
Qed.

Lemma slice_to_length {A} (l : list A) (start : Z) :
  slice l start (Some (Z.of_nat (length l))) = slice l start None.
Proof.
  assert (Hlen : relIndex (Z.of_nat (length l)) (Z.of_nat (length l))
                 = Z.of_nat (length l)).
  { unfold relIndex. destruct (Z.ltb_spec (Z.of_nat (length l)) 0); lia. }
  unfold slice. by rewrite Hlen.
Qed.

Lemma postprocessStartIdx_nonneg isWindows matchup autocompletion prefixAndSuffix :
  0 <= AutocompletionMatchupBounds.startIdx matchup ->
  0 <= postprocessStartIdx isWindows matchup autocompletion prefixAndSuffix.
Proof.
  intros Hm. unfold postprocessStartIdx.
  repeat match goal with
         | |- context [if ?b then _ else _] => destruct b eqn:?
         | H : _ && _ = true |- _ => apply andb_prop in H as [? ?]
         end; lia.
Qed.

Lemma slice_negative_length {A} (l : list A) (start : Z) :
  start < 0 -> Z.of_nat (length (slice l start None)) <= - start.
Proof.
  intros Hs. unfold slice, relIndex.
  destruct (Z.ltb_spec start 0); [|lia].
  rewrite length_take, length_drop. lia.
Qed.

(** The exclusive end of the insertion for a nonblank suffix on the
    line: the step for the end of the line does not apply. *)
Lemma postprocessEndIdx_nonblank_suffix isWindows autocompletion prefixAndSuffix
    (startIdx : Z) :
  let suffixToTheRightOfCursor :=
    PrefixAndSuffixInfo.suffixToTheRightOfCursor prefixAndSuffix in
  let insertText := Autocompletion.insertText autocompletion in
  truthy (trim suffixToTheRightOfCursor) = true ->
  postprocessEndIdx isWindows autocompletion prefixAndSuffix startIdx
  = if type_eqb (Autocompletion.type autocompletion) SingleLineFillMiddle then
      let rawMatchIndex :=
        lastIndexOf (slice insertText startIdx None)
          (take 1 (trim suffixToTheRightOfCursor)) in
      if rawMatchIndex >? -1 then
        if includes bracketsAndQuotes
             (match index insertText (rawMatchIndex + startIdx) with
              | Some c => [c]
              | None => undefined_text
              end)
        then Z.min (Z.of_nat (length insertText)) (rawMatchIndex + startIdx)
        else Z.of_nat (length insertText)
      else Z.of_nat (length insertText)
    else Z.of_nat (length insertText).
Proof.
  intros sr gm Hsr. unfold postprocessEndIdx. fold sr. fold gm. rewrite Hsr.
  cbn [negb]. rewrite andb_false_r, andb_true_r. cbn [andb].
  by destruct (type_eqb _ _).
Qed.

(** C3, as the code has it: the cut at the suffix of the current line is
    made for predictions of kind [single-line-fill-middle].  The first
    character of the trimmed suffix is looked for from the end of the
    remaining insertion, [insertText.slice(startIdx)].  When it is found at
    position [k], is a bracket or a quote and [startIdx] is not negative,
    the insertion ends there.  When [startIdx] is negative the remaining
    insertion is counted from the end of the insertion, the position found
    is before the insertion and no cut is made; nor is one made when the
    character is not found or is no bracket or quote.  A prediction of kind
    [single-line-redo-suffix] keeps the whole remaining insertion. *)
Theorem postprocess_cuts_fill_middle_at_suffix_match
    isWindows matchup autocompletion prefixAndSuffix :
  let suffixToTheRightOfCursor :=
    PrefixAndSuffixInfo.suffixToTheRightOfCursor prefixAndSuffix in
  let insertText := Autocompletion.insertText autocompletion in
  let startIdx :=
    postprocessStartIdx isWindows matchup autocompletion prefixAndSuffix in
  let first := take 1 (trim suffixToTheRightOfCursor) in
  let whole :=
    getStringUpToUnbalancedClosingParenthesis (slice insertText startIdx None)
      (PrefixAndSuffixInfo.prefix prefixAndSuffix) in
  truthy (trim suffixToTheRightOfCursor) = true ->
  (0 <= AutocompletionMatchupBounds.startIdx matchup -> 0 <= startIdx)
  /\ (Autocompletion.type autocompletion = SingleLineFillMiddle ->
      (forall k : nat,
         lastIndexOf (slice insertText startIdx None) first = Z.of_nat k ->
         includes bracketsAndQuotes first = true ->
         (0 <= startIdx ->
          postprocessAutocompletion isWindows matchup autocompletion prefixAndSuffix
          = getStringUpToUnbalancedClosingParenthesis
              (slice insertText startIdx (Some (startIdx + Z.of_nat k)))
              (PrefixAndSuffixInfo.prefix prefixAndSuffix))
         /\ (startIdx < 0 ->
             postprocessAutocompletion isWindows matchup autocompletion prefixAndSuffix
             = whole))
      /\ (lastIndexOf (slice insertText startIdx None) first = -1 ->
          postprocessAutocompletion isWindows matchup autocompletion prefixAndSuffix
          = whole)
      /\ (includes bracketsAndQuotes first = false ->
          postprocessAutocompletion isWindows matchup autocompletion prefixAndSuffix
          = whole))
  /\ (Autocompletion.type autocompletion = SingleLineRedoSuffix ->
      postprocessAutocompletion isWindows matchup autocompletion prefixAndSuffix
      = whole).
Proof.
  intros sr gm startIdx first whole Hsr.
  split; [apply postprocessStartIdx_nonneg|].
  unfold postprocessAutocompletion. fold startIdx. fold gm.
  rewrite (postprocessEndIdx_nonblank_suffix isWindows autocompletion prefixAndSuffix
             startIdx Hsr).
  fold sr. fold gm. fold first. cbv zeta.
  assert (Hfound : forall k : nat,
            lastIndexOf (slice gm startIdx None) first = Z.of_nat k ->
            exists c, first = [c] /\ slice gm startIdx None !! k = Some c).
  { intros k Hk. unfold lastIndexOf, found in Hk.
    destruct (lastIndexOf_from _ _) as [k'|] eqn:Hlast; [|lia].
    apply Nat2Z.inj in Hk as ->. subst first.
    destruct (trim sr) as [|c rest]; [discriminate|].
    cbn [take] in *. rewrite take_0 in *.
    exists c. split; [done|]. by apply lastIndexOf_from_lookup. }
  assert (Hneg : forall k : nat,
            startIdx < 0 ->
            lastIndexOf (slice gm startIdx None) first = Z.of_nat k ->
            index gm (Z.of_nat k + startIdx) = None).
  { intros k Hs Hk. destruct (Hfound k Hk) as (c & _ & Hc).
    apply lookup_lt_Some in Hc.
    pose proof (slice_negative_length gm startIdx Hs).
    unfold index. destruct (Z.ltb_spec (Z.of_nat k + startIdx) 0); [done|lia]. }
  assert (Hpos : forall k : nat,
            0 <= startIdx ->
            lastIndexOf (slice gm startIdx None) first = Z.of_nat k ->
            (match index gm (Z.of_nat k + startIdx) with
             | Some c => [c]
             | None => undefined_text
             end) = first
            /\ Z.of_nat k + startIdx <= Z.of_nat (length gm)).
  { intros k Hs Hk. destruct (Hfound k Hk) as (c & -> & Hc).
    rewrite slice_from in Hc by done. rewrite lookup_drop in Hc.
    unfold index. destruct (Z.ltb_spec (Z.of_nat k + startIdx) 0); [lia|].
    replace (Z.to_nat (Z.of_nat k + startIdx)) with (Z.to_nat startIdx + k)%nat by lia.
    rewrite Hc. split; [done|]. apply lookup_lt_Some in Hc. lia. }
  split.
  - intros ->. cbn [type_eqb]. split; [|split].
    + intros k Hk Hinc. rewrite Hk.
      destruct (Z.gtb_spec (Z.of_nat k) (-1)); [|lia]. split; intros Hs.
      * destruct (Hpos k Hs Hk) as [-> Hle]. rewrite Hinc.
        do 2 f_equal. f_equal. lia.
      * rewrite (Hneg k Hs Hk).
        change (includes bracketsAndQuotes undefined_text) with false. cbv iota.
        by rewrite slice_to_length.
    + intros Hk. rewrite Hk. change (-1 >? -1) with false. cbv iota.
      by rewrite slice_to_length.
    + intros Hinc.
      destruct (lastIndexOf (slice gm startIdx None) first >? -1) eqn:Hgt;
        [|by rewrite slice_to_length].
      assert (Hk : exists k : nat,
                lastIndexOf (slice gm startIdx None) first = Z.of_nat k).
      { exists (Z.to_nat (lastIndexOf (slice gm startIdx None) first)).
        apply Z.gtb_lt in Hgt. lia. }
      destruct Hk as [k Hk]. rewrite Hk.
      destruct (Z.lt_ge_cases startIdx 0) as [Hs|Hs].
      * rewrite (Hneg k Hs Hk).
        change (includes bracketsAndQuotes undefined_text) with false. cbv iota.
        by rewrite slice_to_length.
      * destruct (Hpos k Hs Hk) as [-> _]. rewrite Hinc.
        by rewrite slice_to_length.
  - intros ->. cbn [type_eqb]. by rewrite slice_to_length.
Qed.

(** The matchup of a prefix with a prediction can have a negative
    [startIdx] where [isWindows] holds: the prediction is made at [x(],
    before [) + y;], and is [a], a line feed and [x)]; the user has typed
    up to the [x] of the second line.  The remaining insertion then is the
    last character [)], found at position 0 of it, and it is returned
    uncut. *)
Lemma postprocess_keeps_suffix_match_on_negative_start :
  let insertText := lit "a" ++ [LF] ++ lit "x)" in
  let autocompletion :=
    Autocompletion.mk 0 (lit "x(") (lit ") + y;") (lit "x(") (lit ") + y;") 0 (Some 1)
      Finished SingleLineFillMiddle (Some (Resolved insertText)) insertText None 0 in
  let prefixAndSuffix :=
    getPrefixAndSuffixInfo true (lit "x(a" ++ [LF] ++ lit "x) + y;") 5 in
  let matchup := AutocompletionMatchupBounds.mk 0 (-1) (-1) in
  getAutocompletionMatchup true (PrefixAndSuffixInfo.prefix prefixAndSuffix)
    autocompletion = Some matchup
  /\ postprocessStartIdx true matchup autocompletion prefixAndSuffix = -1
  /\ take 1 (trim (PrefixAndSuffixInfo.suffixToTheRightOfCursor prefixAndSuffix))
     = lit ")"
  /\ lastIndexOf (slice insertText (-1) None) (lit ")") = 0
  /\ includes bracketsAndQuotes (lit ")") = true
  /\ postprocessAutocompletion true matchup autocompletion prefixAndSuffix = lit ")".
Proof. by vm_compute. Qed.

(** C3, as stated: a prediction of kind [single-line-redo-suffix], with
    [)] to the right of the cursor and the insertion [foo(a)], is returned
    whole although [)] is last found at position 5 of it. *)
Lemma postprocess_keeps_redo_suffix_whole :
  let autocompletion :=
    Autocompletion.mk 0 (lit "x = ") (lit ")") (lit "x = ") [] 0 (Some 1)
      Finished SingleLineRedoSuffix (Some (Resolved (lit "foo(a)")))
      (lit "foo(a)") None 0 in
  let prefixAndSuffix := getPrefixAndSuffixInfo false (lit "x = )") 4 in
  let matchup := AutocompletionMatchupBounds.mk 0 0 0 in
  let suffixToTheRightOfCursor :=
    PrefixAndSuffixInfo.suffixToTheRightOfCursor prefixAndSuffix in
  let startIdx := postprocessStartIdx false matchup autocompletion prefixAndSuffix in
  truthy (trim suffixToTheRightOfCursor) = true
  /\ take 1 (trim suffixToTheRightOfCursor) = lit ")"
  /\ lastIndexOf (slice (lit "foo(a)") startIdx None) (lit ")") = 5
  /\ includes bracketsAndQuotes (lit ")") = true
  /\ postprocessAutocompletion false matchup autocompletion prefixAndSuffix
     = lit "foo(a)"
  /\ postprocessAutocompletion false matchup autocompletion prefixAndSuffix
     <> getStringUpToUnbalancedClosingParenthesis
          (slice (lit "foo(a)") startIdx (Some (startIdx + 5)))
          (PrefixAndSuffixInfo.prefix prefixAndSuffix).
Proof. by vm_compute. Qed.
End SuffixMatchFacts.

(** ** The context extractor *)

Section ContextFacts.
Import Js Autocomplete.

Lemma getPrefixAndSuffixInfo_concat isWindows fullText cursorOffset :
  PrefixAndSuffixInfo.prefix (getPrefixAndSuffixInfo isWindows fullText cursorOffset)
  ++ PrefixAndSuffixInfo.suffix (getPrefixAndSuffixInfo isWindows fullText cursorOffset)
  = fullText.
Proof. apply substring_split. Qed.

(** C8 on the code: prefix and suffix make up the text on both platforms,
    and where [isWindows] is false the lines are those of the text split
    at LF; where it is true the text, which has LF line ends, is split at
    CR LF: the text [a LF b] with the cursor at its end stays in one piece,
    which is also taken for the line left of the cursor. *)
Theorem getPrefixAndSuffixInfo_splits_at_platform_break :
  (forall isWindows fullText cursorOffset,
     let info := getPrefixAndSuffixInfo isWindows fullText cursorOffset in
     PrefixAndSuffixInfo.prefix info ++ PrefixAndSuffixInfo.suffix info = fullText)
  /\ (forall fullText cursorOffset,
        let info := getPrefixAndSuffixInfo false fullText cursorOffset in
        PrefixAndSuffixInfo.prefixLines info
        = split (PrefixAndSuffixInfo.prefix info) [LF]
        /\ PrefixAndSuffixInfo.suffixLines info
           = split (PrefixAndSuffixInfo.suffix info) [LF])
  /\ (let info := getPrefixAndSuffixInfo true (lit "a" ++ [LF] ++ lit "b") 3 in
      PrefixAndSuffixInfo.prefix info = lit "a" ++ [LF] ++ lit "b"
      /\ split (PrefixAndSuffixInfo.prefix info) [LF] = [lit "a"; lit "b"]
      /\ PrefixAndSuffixInfo.prefixLines info = [lit "a" ++ [LF] ++ lit "b"]
      /\ PrefixAndSuffixInfo.prefixToTheLeftOfCursor info = lit "a" ++ [LF] ++ lit "b"
      /\ PrefixAndSuffixInfo.prefixToTheLeftOfCursor
           (getPrefixAndSuffixInfo false (lit "a" ++ [LF] ++ lit "b") 3) = lit "b").
Proof.
  split; [|split].
  - intros. apply getPrefixAndSuffixInfo_concat.
  - by intros.
  - by vm_compute.
Qed.
End ContextFacts.

(** ** The classifier and the request callbacks *)

Section LifecycleFacts.
Import Js Autocomplete.

(** C4 on the code: the timeout callback leaves the status as it is.  For
    a pending prediction it rejects the promise, so that the awaiting call
    deletes the entry and returns nothing, but the status stays [Pending];
    the error callback is the one that sets [Error].  In the run
    [timedOutRequest] the entry is gone from the cache and its request
    aborted, and the object is still [Pending]. *)
Theorem onTimeout_leaves_status_pending :
  (forall autocompletion,
     Autocompletion.status (onTimeout autocompletion)
     = Autocompletion.status autocompletion
     /\ Autocompletion.endTime (onTimeout autocompletion)
        = Autocompletion.endTime autocompletion)
  /\ (let pending :=
        Autocompletion.mk 7 (lit "x = ") [] (lit "x = ") [] 1000 None Pending
          SingleLineFillMiddle (Some Unsettled) [] (Some (lit "req-7")) 0 in
      Autocompletion.status (onTimeout pending) = Pending
      /\ Autocompletion.llmPromise (onTimeout pending)
         = Some (Rejected (lit "Timeout receiving message to LLM."))
      /\ awaitFails (onTimeout pending) = true
      /\ Autocompletion.status (onError pending (lit "failed") 61000) = Error
      /\ awaitFails (onError pending (lit "failed") 61000) = true)
  /\ (let st := run false extractCodeFromRegular_spec initialState timedOutRequest in
      Autocompletion.status <$> heap st = [Pending]
      /\ (LRUCache.items <$> _autocompletionsOfDocument st !! "a.ts"%string) = Some []
      /\ aborted st = [lit "r0"]).
Proof.
  split; [|split; by vm_compute].
  intros a. unfold onTimeout.
  destruct (Autocompletion.status a) eqn:Hs; simpl; by rewrite ?Hs.
Qed.

Lemma type_eqb_eq a b : type_eqb a b = true <-> a = b.
Proof. destruct a, b; simpl; split; congruence. Qed.

(** C6, as the code has it: after an acceptance less than 500 ms ago and
    with nothing but white space right of the cursor, the classifier
    chooses [multi-line-start-on-next-line], the model prefix is the
    windowed prefix followed by the line break [_ln] of the platform and
    the only stop sequence is that line break twice; on success the line
    break is put in front of the stored insertion.  The answer
    [return result;] is stored as LF [return result;] where [isWindows]
    is false and as CR LF [return result;] where it is true. *)
Theorem multi_line_after_acceptance
    isWindows (extractCodeFromRegular : str -> Z -> str)
    (st : ServiceState) (thisTime : Z)
    (prefixAndSuffix : PrefixAndSuffixInfo) (relevantContext : str) :
  thisTime - _lastCompletionAccept st < 500 ->
  removeAllWhitespace (PrefixAndSuffixInfo.suffixToTheRightOfCursor prefixAndSuffix)
  = [] ->
  (let options :=
     getCompletionOptions isWindows prefixAndSuffix relevantContext
       (justAccepted st thisTime) in
   CompletionOptions.predictionType options = MultiLineStartOnNextLine
   /\ CompletionOptions.shouldGenerate options = true
   /\ CompletionOptions.llmPrefix options
      = join (slice (split (PrefixAndSuffixInfo.prefix prefixAndSuffix) (_ln isWindows))
                (-25) None) (_ln isWindows)
        ++ _ln isWindows
   /\ CompletionOptions.stopTokens options = [_ln isWindows ++ _ln isWindows])
  /\ (forall autocompletion fullText now,
        Autocompletion.type autocompletion = MultiLineStartOnNextLine ->
        let finished :=
          onFinalMessage isWindows extractCodeFromRegular autocompletion fullText now in
        Autocompletion.status finished = Finished
        /\ Autocompletion.insertText finished
           = _ln isWindows
             ++ processStartAndEndSpaces extractCodeFromRegular
                  (extractCodeFromRegular fullText 0))
  /\ (forall windows,
        Autocompletion.insertText
          (onFinalMessage windows extractCodeFromRegular_spec
             (Autocompletion.mk 0 (lit "foo();") [] (lit "foo();" ++ _ln windows) []
                0 None Pending MultiLineStartOnNextLine (Some Unsettled) [] None 0)
             (lit "return result;") 1)
        = (if windows then [CR; LF] else [LF]) ++ lit "return result;").
Proof.
  intros Hrecent Hblank. split; [|split].
  - unfold getCompletionOptions, justAccepted. rewrite Hblank.
    destruct (Z.ltb_spec (thisTime - _lastCompletionAccept st) 500); [|lia].
    by cbn.
  - intros a fullText now Hty. unfold onFinalMessage. rewrite Hty. by cbn.
  - intros [|]; by vm_compute.
Qed.

(** C6, as stated: where [isWindows] is true the stored insertion does not
    begin with a lone LF, and the stop sequence is not LF LF. *)
Lemma multi_line_insertion_on_windows :
  Autocompletion.insertText
    (onFinalMessage true extractCodeFromRegular_spec
       (Autocompletion.mk 0 (lit "foo();") [] (lit "foo();" ++ [CR; LF]) []
          0 None Pending MultiLineStartOnNextLine (Some Unsettled) [] None 0)
       (lit "return result;") 1)
  <> [LF] ++ lit "return result;"
  /\ CompletionOptions.stopTokens
       (getCompletionOptions true
          (getPrefixAndSuffixInfo true (lit "foo();") 6) [] true)
     <> [[LF; LF]].
Proof. split; by vm_compute. Qed.
End LifecycleFacts.

(** ** The ids of the predictions *)

Section IdFacts.
Import Js Autocomplete.
Variable isWindows : bool.
Variable extractCodeFromRegular : str -> Z -> str.

Local Abbreviation step := (step isWindows extractCodeFromRegular).
Local Abbreviation run := (run isWindows extractCodeFromRegular).

Lemma JsMap_get_elem {K V} `{EqDecision K} (m : JsMap.t K V) k v :
  JsMap.get m k = Some v -> (k, v) ∈ m.
Proof.
  induction m as [|[k' v'] m IH]; simpl; [discriminate|].
  destruct (decide (k' = k)) as [->|].
  - intros [= ->]. left.
  - intros Hg. right. by apply IH.
Qed.

Lemma JsMap_remove_elem {K V} `{EqDecision K} (m : JsMap.t K V) k0 kv :
  kv ∈ JsMap.remove m k0 -> kv ∈ m.
Proof.
  induction m as [|[k' v'] m IH]; simpl; [done|].
  destruct (decide (k' = k0)).
  - intros Hin. by right.
  - intros [->|Hin]%elem_of_cons; [left | right; by apply IH].
Qed.

Lemma JsMap_put_elem {K V} `{EqDecision K} (m : JsMap.t K V) k v kv :
  kv ∈ JsMap.put m k v -> kv ∈ m \/ kv = (k, v).
Proof.
  induction m as [|[k' v'] m IH]; simpl.
  - intros ->%list_elem_of_singleton. by right.
  - destruct (decide (k' = k)) as [->|].
    + intros [->|Hin]%elem_of_cons; [by right | left; by right].
    + intros [->|Hin]%elem_of_cons; [left; left|].
      destruct (IH Hin) as [?|?]; [left; by right | by right].
Qed.

Lemma LRUCache_delete_elem {K V E} `{EqDecision K} (c : LRUCache.t K V E) k kv :
  kv ∈ LRUCache.items (LRUCache.delete c k).1.1 -> kv ∈ LRUCache.items c.
Proof.
  unfold LRUCache.delete. destruct (JsMap.get (LRUCache.items c) k); simpl; [|done].
  apply JsMap_remove_elem.
Qed.

Lemma LRUCache_set_elem {K V E} `{EqDecision K} (c : LRUCache.t K V E) k v kv :
  kv ∈ LRUCache.items (LRUCache.set c k v).1 -> kv ∈ LRUCache.items c \/ kv = (k, v).
Proof.
  unfold LRUCache.set.
  destruct (JsMap.has (LRUCache.items c) k); simpl; [apply JsMap_put_elem|].
  destruct (LRUCache.maxSize c <=? _); simpl; [|apply JsMap_put_elem].
  destruct (LRUCache.keyOrder c); simpl; [apply JsMap_put_elem|].
  intros [Hin|Heq]%JsMap_put_elem; [left | by right].
  by apply JsMap_remove_elem in Hin.
Qed.

(** The cache of one document is replaced by one with no other entries. *)
Lemma idsFollowCreation_shrink st docUriStr cache cache' accept aborted' :
  idsFollowCreation st ->
  _autocompletionsOfDocument st !! docUriStr = Some cache ->
  (forall kv, kv ∈ LRUCache.items cache' -> kv ∈ LRUCache.items cache) ->
  idsFollowCreation
    (mkState (_autocompletionId st)
       (<[docUriStr := cache']> (_autocompletionsOfDocument st))
       (_lastCompletionStart st) accept (heap st) aborted').
Proof.
  intros (Hheap & Hcount & Hcache) Hdoc Hsub. repeat split; simpl; [done..|].
  intros doc c k r Hc Hin.
  destruct (decide (docUriStr = doc)) as [<-|Hne].
  - rewrite lookup_insert_eq in Hc. injection Hc as <-.
    eapply Hcache; [exact Hdoc | by apply Hsub].
  - rewrite lookup_insert_ne in Hc by done. by eapply Hcache.
Qed.

Lemma idsFollowCreation_times st start accept aborted' :
  idsFollowCreation st ->
  idsFollowCreation
    (mkState (_autocompletionId st) (_autocompletionsOfDocument st)
       start accept (heap st) aborted').
Proof. intros (Hheap & Hcount & Hcache). by repeat split. Qed.

Lemma idsFollowCreation_cacheDelete st docUriStr id :
  idsFollowCreation st -> idsFollowCreation (cacheDelete st docUriStr id).
Proof.
  intros Hinv. unfold cacheDelete.
  destruct (_autocompletionsOfDocument st !! docUriStr) as [cache|] eqn:Hdoc; [|done].
  destruct (LRUCache.delete cache id) as [[cache' b] ops] eqn:Hdel.
  unfold runDisposals, withCaches. simpl.
  apply (idsFollowCreation_shrink st docUriStr cache cache'); [done..|].
  intros kv Hin. apply (LRUCache_delete_elem cache id). by rewrite Hdel.
Qed.

Lemma idsFollowCreation_mutate st r (f : Autocompletion -> Autocompletion) :
  (forall a, Autocompletion.id (f a) = Autocompletion.id a) ->
  idsFollowCreation st -> idsFollowCreation (mutate st r f).
Proof.
  intros Hf (Hheap & Hcount & Hcache). unfold mutate.
  destruct (heap st !! r) as [a|] eqn:Hr; [|done].
  unfold withHeap. repeat split; simpl.
  - intros r' a' Hr'. destruct (decide (r = r')) as [<-|Hne].
    + rewrite list_lookup_insert_eq in Hr' by (by eapply lookup_lt_Some).
      injection Hr' as <-. rewrite Hf. by apply Hheap.
    + rewrite list_lookup_insert_ne in Hr' by done. by apply Hheap.
  - by rewrite length_insert.
  - intros doc c k r' Hc Hin. destruct (Hcache doc c k r' Hc Hin) as (a' & Ha' & Hid).
    destruct (decide (r = r')) as [<-|Hne].
    + exists (f a'). rewrite list_lookup_insert_eq by (by eapply lookup_lt_Some).
      split; [congruence|]. by rewrite Hf.
    + exists a'. by rewrite list_lookup_insert_ne.
Qed.

(** A creation: the new object takes the value of the counter as its id
    and the next free reference. *)
Lemma createAutocompletion_new st docUriStr prefixAndSuffix lspContext accepted
    now requestId (r : ref) :
  idsFollowCreation st ->
  (createAutocompletion isWindows st docUriStr prefixAndSuffix lspContext accepted
     now requestId).2 = Some r ->
  let st' :=
    (createAutocompletion isWindows st docUriStr prefixAndSuffix lspContext accepted
       now requestId).1 in
  r = length (heap st)
  /\ exists a, heap st' = heap st ++ [a]
               /\ Autocompletion.id a = _autocompletionId st
               /\ Autocompletion.status a = Pending
               /\ _autocompletionId st' = _autocompletionId st + 1.
Proof.
  intros Hinv. unfold createAutocompletion.
  destruct (_autocompletionsOfDocument st !! docUriStr) as [cache|]; [|done].
  set (st1 := match oldestPendingToCancel _ _ _ _ with
              | Some id => cacheDelete st docUriStr id
              | None => st
              end).
  assert (Hsame : heap st1 = heap st /\ _autocompletionId st1 = _autocompletionId st).
  { subst st1. destruct (oldestPendingToCancel _ _ _ _); [|done].
    unfold cacheDelete. destruct (_ !! docUriStr); [|done].
    by destruct (LRUCache.delete _ _) as [[? ?] ?]. }
  destruct Hsame as [Hh Hc].
  destruct (negb _); [done|]. cbn [_autocompletionsOfDocument].
  destruct (_autocompletionsOfDocument st1 !! docUriStr) as [cache1|].
  - destruct (LRUCache.set cache1 _ _) as [cache' ops]. cbn [fst snd].
    intros [= <-]. rewrite Hh. split; [done|].
    eexists. unfold runDisposals, withCaches. cbn. rewrite ?Hh, ?Hc.
    by repeat split.
  - cbn [fst snd]. intros [= <-]. rewrite Hh. split; [done|].
    eexists. cbn. rewrite ?Hh, ?Hc. by repeat split.
Qed.

Lemma idsFollowCreation_create st docUriStr prefixAndSuffix lspContext accepted
    now requestId :
  idsFollowCreation st ->
  idsFollowCreation
    (createAutocompletion isWindows st docUriStr prefixAndSuffix lspContext accepted
       now requestId).1.
Proof.
  intros Hinv. unfold createAutocompletion.
  destruct (_autocompletionsOfDocument st !! docUriStr) as [cache|]; [|done].
  set (st1 := match oldestPendingToCancel _ _ _ _ with
              | Some id => cacheDelete st docUriStr id
              | None => st
              end).
  assert (Hinv1 : idsFollowCreation st1).
  { subst st1. destruct (oldestPendingToCancel _ _ _ _); [|done].
    by apply idsFollowCreation_cacheDelete. }
  clearbody st1. clear Hinv.
  destruct (negb _); [done|]. cbn [_autocompletionsOfDocument].
  set (a := Autocompletion.mk _ _ _ _ _ _ _ _ _ _ _ _ _).
  destruct Hinv1 as (Hheap & Hcount & Hcache).
  assert (Hgrow : idsFollowCreation
            (mkState (_autocompletionId st1 + 1) (_autocompletionsOfDocument st1)
               (_lastCompletionStart st1) (_lastCompletionAccept st1)
               (heap st1 ++ [a]) (aborted st1))).
  { repeat split; simpl.
    - intros r b Hr. apply lookup_app_Some in Hr as [Hr|[Hlen Hr]]; [by apply Hheap|].
      destruct (r - length (heap st1))%nat as [|n] eqn:Hn; [|done].
      injection Hr as <-. subst a. simpl. rewrite Hcount. lia.
    - rewrite length_app. simpl. lia.
    - intros doc c k r Hc Hin. destruct (Hcache doc c k r Hc Hin) as (b & Hb & Hid).
      exists b. split; [|done]. by apply lookup_app_l_Some. }
  destruct (_autocompletionsOfDocument st1 !! docUriStr) as [cache1|] eqn:Hdoc;
    [|done].
  destruct (LRUCache.set cache1 _ _) as [cache' ops] eqn:Hset. cbn [fst].
  unfold runDisposals, withCaches. cbn.
  destruct Hgrow as (Hheap' & Hcount' & Hcache'). simpl in *.
  repeat split; simpl; [done..|].
  intros doc c k r Hc Hin.
  destruct (decide (docUriStr = doc)) as [<-|Hne].
  - rewrite lookup_insert_eq in Hc. injection Hc as <-.
    assert (Hin' : (k, r) ∈ LRUCache.items (LRUCache.set cache1
              (_autocompletionId st1) (length (heap st1))).1) by (by rewrite Hset).
    apply LRUCache_set_elem in Hin' as [Hold|[= -> ->]].
    + by eapply Hcache'.
    + exists a. split; [|done]. rewrite lookup_app_r by done.
      by rewrite Nat.sub_diag.
  - rewrite lookup_insert_ne in Hc by done. by eapply Hcache'.
Qed.

Lemma idsFollowCreation_free st docUriStr prefix now :
  idsFollowCreation st ->
  idsFollowCreation (freeInlineCompletions st docUriStr prefix now).
Proof.
  unfold freeInlineCompletions.
  destruct (_autocompletionsOfDocument st !! docUriStr) as [cache|]; [|done].
  generalize (LRUCache.items cache). intros entries. revert st.
  induction entries as [|entry entries IH]; intros st Hinv; [done|].
  simpl. apply IH. unfold acceptStep.
  destruct (_autocompletionsOfDocument st !! docUriStr); [|done].
  destruct (negb _); [done|].
  destruct (heap st !! entry.2); [|done].
  destruct (bool_decide _); [|done].
  apply idsFollowCreation_cacheDelete. by apply idsFollowCreation_times.
Qed.

Lemma idsFollowCreation_step st e :
  idsFollowCreation st -> idsFollowCreation (step st e).
Proof.
  intros Hinv. destruct e; simpl.
  - unfold initCache. destruct (negb isEnabled); [done|].
    destruct (_autocompletionsOfDocument st !! docUriStr) eqn:Hdoc; [done|].
    unfold LRUCache.new, MAX_CACHE_SIZE. simpl. unfold withCaches.
    destruct Hinv as (Hheap & Hcount & Hcache). repeat split; simpl; [done..|].
    intros doc c k r Hc Hin. destruct (decide (docUriStr = doc)) as [<-|Hne].
    + rewrite lookup_insert_eq in Hc. injection Hc as <-. simpl in Hin.
      by apply elem_of_nil in Hin.
    + rewrite lookup_insert_ne in Hc by done. by eapply Hcache.
  - by apply idsFollowCreation_times.
  - by apply idsFollowCreation_create.
  - by apply idsFollowCreation_mutate.
  - by apply idsFollowCreation_mutate.
  - by apply idsFollowCreation_mutate.
  - apply idsFollowCreation_mutate; [|done].
    intros a. unfold onTimeout. by destruct (Autocompletion.status a).
  - destruct (heap st !! r); [|done]. destruct (awaitFails _); [|done].
    by apply idsFollowCreation_cacheDelete.
  - by apply idsFollowCreation_free.
Qed.

Lemma idsFollowCreation_run events : forall st,
  idsFollowCreation st -> idsFollowCreation (run st events).
Proof.
  induction events as [|e events IH]; intros st Hinv; [done|].
  simpl. apply IH. by apply idsFollowCreation_step.
Qed.

Lemma idsFollowCreation_initial : idsFollowCreation initialState.
Proof.
  repeat split; simpl; [by intros [|r]|].
  intros doc c k r Hc. by rewrite lookup_empty in Hc.
Qed.

(** C9: the ids come from the one counter of the service.  In every state
    that the service reaches, the objects created so far, for whatever
    documents, have the ids 0, 1, 2, ... in the order of their creation, so
    that a later one has the greater id; the entries of the cache of every
    document are such objects, under their ids; and the object that the
    next request creates, in any document, has an id above all of them. *)
Theorem prediction_ids_follow_creation_order (events : list event) :
  let st := run initialState events in
  (forall (r : ref) a, heap st !! r = Some a -> Autocompletion.id a = Z.of_nat r)
  /\ (forall (r1 r2 : ref) a1 a2,
        heap st !! r1 = Some a1 -> heap st !! r2 = Some a2 -> (r1 < r2)%nat ->
        Autocompletion.id a1 < Autocompletion.id a2)
  /\ (forall docUriStr cache (k : Z) (r : ref),
        _autocompletionsOfDocument st !! docUriStr = Some cache ->
        JsMap.get (LRUCache.items cache) k = Some r ->
        exists a, heap st !! r = Some a /\ Autocompletion.id a = k)
  /\ (forall docUriStr prefixAndSuffix lspContext accepted now requestId (r : ref),
        (createAutocompletion isWindows st docUriStr prefixAndSuffix lspContext
           accepted now requestId).2 = Some r ->
        exists a,
          heap (createAutocompletion isWindows st docUriStr prefixAndSuffix
                  lspContext accepted now requestId).1 !! r = Some a
          /\ forall b, b ∈ heap st -> Autocompletion.id b < Autocompletion.id a).
Proof.
  intros st.
  assert (Hinv : idsFollowCreation st)
    by (apply idsFollowCreation_run, idsFollowCreation_initial).
  pose proof Hinv as (Hheap & Hcount & Hcache).
  split; [done|]. split; [|split].
  - intros r1 r2 a1 a2 H1 H2 Hlt.
    rewrite (Hheap _ _ H1), (Hheap _ _ H2). lia.
  - intros doc cache k r Hdoc Hget. eapply Hcache; [done|].
    by apply JsMap_get_elem.
  - intros doc ps ctx accepted now rid r Hr.
    destruct (createAutocompletion_new st doc ps ctx accepted now rid r Hinv Hr)
      as (-> & a & Hh & Hid & _ & _).
    exists a. rewrite Hh. split.
    + rewrite lookup_app_r by done. by rewrite Nat.sub_diag.
    + intros b [i Hb]%list_elem_of_lookup.
      rewrite (Hheap _ _ Hb), Hid, Hcount.
      apply lookup_lt_Some in Hb. lia.
Qed.
End IdFacts.

(** ** The theorems at work on concrete inputs *)

Section Instances.
Import Js Autocomplete.

(** A full cache of two entries takes a new value for its first key. *)
Lemma LRUCache_set_existing_key_full_cache :
  let c := LRUCache.mk [(1, 10); (2, 20)] [1; 2] 2 (Some (fun v k : Z => v)) in
  LRUCache.has c 1 = true
  /\ (LRUCache.set c 1 11).2 = [LRUCache.ItemsSet 1 11]
  /\ LRUCache.disposals (LRUCache.set c 1 11).2 = []
  /\ JsMap.get (LRUCache.items (LRUCache.set c 1 11).1) 1 = Some 11
  /\ (forall k', k' <> 1 ->
        JsMap.get (LRUCache.items (LRUCache.set c 1 11).1) k'
        = JsMap.get (LRUCache.items c) k')
  /\ JsMap.keys (LRUCache.items (LRUCache.set c 1 11).1)
     = JsMap.keys (LRUCache.items c)
  /\ LRUCache.size (LRUCache.set c 1 11).1 = LRUCache.size c
  /\ LRUCache.keyOrder (LRUCache.set c 1 11).1
     = filter (fun k => k <> 1) (LRUCache.keyOrder c) ++ [1].
Proof.
  intros c. split; [reflexivity|].
  apply (LRUCache_set_existing_key c 1 11). reflexivity.
Defined.

(** Three keys into a cache of capacity two. *)
Lemma LRUCache_three_sets_capacity_two :
  let kvs := [(1, 10); (2, 20); (3, 30)] in
  let cb := fun v k : Z => v + k in
  0 < 2 /\ length kvs = S (Z.to_nat 2) /\ NoDup kvs.*1
  /\ exists c0 k0 v0 kN vN,
       LRUCache.new 2 (Some cb) = inr c0
       /\ head kvs = Some (k0, v0)
       /\ last kvs = Some (kN, vN)
       /\ (LRUCache.setAll c0 kvs).2
          = LRUCache.setOps (take (Z.to_nat 2) kvs)
            ++ [LRUCache.Dispose (cb v0 k0) v0 k0; LRUCache.ItemsDelete k0;
                LRUCache.ItemsSet kN vN]
       /\ (forall n,
             Z.of_nat (LRUCache.size (LRUCache.setAll c0 (take n kvs)).1) <= 2)
       /\ (forall n,
             Z.of_nat (JsMap.size
                (LRUCache.replay (LRUCache.items c0)
                   (take n (LRUCache.setAll c0 kvs).2))) <= 2)
       /\ LRUCache.disposals (LRUCache.setAll c0 kvs).2 = [(v0, k0)]
       /\ LRUCache.items (LRUCache.setAll c0 kvs).1 = drop 1 kvs
       /\ LRUCache.keyOrder (LRUCache.setAll c0 kvs).1 = (drop 1 kvs).*1.
Proof.
  intros kvs cb.
  assert (H1 : 0 < 2) by reflexivity.
  assert (H2 : length kvs = S (Z.to_nat 2)) by reflexivity.
  assert (H3 : NoDup kvs.*1) by compute_done.
  split; [exact H1|]. split; [exact H2|]. split; [exact H3|].
  exact (LRUCache_evicts_first_of_capacity_plus_one 2 cb kvs H1 H2 H3).
Defined.

(** The insertion [return 1; } } else {] after [if (x) {]: the closing
    brace at position 12 is the first unbalanced one. *)
Lemma truncates_return_example :
  let s := lit "return 1; } } else {" in
  let prefix := lit "if (x) {" in
  unbalancedCloserAt (seedStack_spec prefix) s 12
  /\ (forall j, (j < 12)%nat -> ~ unbalancedCloserAt (seedStack_spec prefix) s j)
  /\ getStringUpToUnbalancedClosingParenthesis s prefix = take 12 s.
Proof.
  intros s prefix.
  assert (H1 : unbalancedCloserAt (seedStack_spec prefix) s 12).
  { exists "}"%char. repeat split. vm_compute. discriminate. }
  assert (H2 : forall j, (j < 12)%nat ->
            ~ unbalancedCloserAt (seedStack_spec prefix) s j).
  { intros j Hj (c & Hc & Hclose & Hhead).
    do 12 (destruct j as [|j];
           [vm_compute in Hc; injection Hc as <-; vm_compute in Hclose, Hhead;
            congruence|]).
    lia. }
  split; [exact H1|]. split; [exact H2|].
  exact (proj1 (proj2 (truncates_at_first_unbalanced_closer s prefix)) 12%nat H1 H2).
Defined.

(** A prediction of kind [single-line-fill-middle] with [)] right of the
    cursor. *)
Lemma postprocess_fill_middle_example :
  let autocompletion :=
    Autocompletion.mk 0 (lit "x = ") (lit ")") (lit "x = ") (lit ")") 0 (Some 1)
      Finished SingleLineFillMiddle (Some (Resolved (lit "foo(a)")))
      (lit "foo(a)") None 0 in
  let prefixAndSuffix := getPrefixAndSuffixInfo false (lit "x = )") 4 in
  let matchup := AutocompletionMatchupBounds.mk 0 0 0 in
  truthy (trim (PrefixAndSuffixInfo.suffixToTheRightOfCursor prefixAndSuffix)) = true
  /\ 0 <= postprocessStartIdx false matchup autocompletion prefixAndSuffix
  /\ postprocessAutocompletion false matchup autocompletion prefixAndSuffix
     = getStringUpToUnbalancedClosingParenthesis
         (slice (lit "foo(a)")
            (postprocessStartIdx false matchup autocompletion prefixAndSuffix)
            (Some (postprocessStartIdx false matchup autocompletion prefixAndSuffix
                   + Z.of_nat 5)))
         (PrefixAndSuffixInfo.prefix prefixAndSuffix)
  /\ postprocessAutocompletion false matchup autocompletion prefixAndSuffix
     = lit "foo(a".
Proof.
  intros autocompletion prefixAndSuffix matchup.
  assert (H1 : truthy (trim (PrefixAndSuffixInfo.suffixToTheRightOfCursor
                               prefixAndSuffix)) = true) by reflexivity.
  assert (H2 : 0 <= postprocessStartIdx false matchup autocompletion prefixAndSuffix)
    by (vm_compute; discriminate).
  split; [exact H1|]. split; [exact H2|].
  pose proof (proj1 (proj1 (proj1 (proj2 (postprocess_cuts_fill_middle_at_suffix_match
                       false matchup autocompletion prefixAndSuffix H1))
                eq_refl) 5%nat eq_refl eq_refl) H2) as Hcut.
  split; [exact Hcut|]. rewrite Hcut. reflexivity.
Defined.

(** An acceptance 200 ms before the request, the cursor at the end of
    [foo();]. *)
Lemma multi_line_after_acceptance_example :
  let st := mkState 3 ∅ 1000 1000 [] [] in
  let prefixAndSuffix := getPrefixAndSuffixInfo false (lit "foo();") 6 in
  1200 - _lastCompletionAccept st < 500
  /\ removeAllWhitespace
       (PrefixAndSuffixInfo.suffixToTheRightOfCursor prefixAndSuffix) = []
  /\ CompletionOptions.predictionType
       (getCompletionOptions false prefixAndSuffix [] (justAccepted st 1200))
     = MultiLineStartOnNextLine
  /\ CompletionOptions.llmPrefix
       (getCompletionOptions false prefixAndSuffix [] (justAccepted st 1200))
     = lit "foo();" ++ [LF]
  /\ CompletionOptions.stopTokens
       (getCompletionOptions false prefixAndSuffix [] (justAccepted st 1200))
     = [[LF; LF]].
Proof.
  intros st prefixAndSuffix.
  assert (H1 : 1200 - _lastCompletionAccept st < 500) by reflexivity.
  assert (H2 : removeAllWhitespace
                 (PrefixAndSuffixInfo.suffixToTheRightOfCursor prefixAndSuffix) = [])
    by reflexivity.
  split; [exact H1|]. split; [exact H2|].
  destruct (multi_line_after_acceptance false extractCodeFromRegular_spec
              st 1200 prefixAndSuffix [] H1 H2) as [(Hty & _ & Hpre & Hstop) _].
  split; [exact Hty|]. split; [exact Hpre | exact Hstop].
Defined.

(** The run [twoDocuments]: its two objects get the ids 0 and 1. *)
Lemma prediction_ids_in_two_documents :
  let st := run false extractCodeFromRegular_spec initialState twoDocuments in
  Autocompletion.id <$> heap st = [0; 1]
  /\ (LRUCache.items <$> _autocompletionsOfDocument st !! "a.ts"%string)
     = Some [(0, 0%nat)]
  /\ (LRUCache.items <$> _autocompletionsOfDocument st !! "b.ts"%string)
     = Some [(1, 1%nat)]
  /\ (forall (r1 r2 : ref) a1 a2,
        heap st !! r1 = Some a1 -> heap st !! r2 = Some a2 -> (r1 < r2)%nat ->
        Autocompletion.id a1 < Autocompletion.id a2).
Proof.
  intros st. split; [reflexivity|]. split; [reflexivity|]. split; [reflexivity|].
  exact (proj1 (proj2 (prediction_ids_follow_creation_order
                         false extractCodeFromRegular_spec twoDocuments))).
Defined.
End Instances.

(** * Further properties of the code *)

(** ** The cache under any run of calls *)

Section LRUCacheCalls.
Context {K V E : Type} `{EqDecision K}.
Implicit Types (m : JsMap.t K V) (c : LRUCache.t K V E) (k key : K).

Lemma JsMap_get_keys m k v : JsMap.get m k = Some v -> k ∈ JsMap.keys m.
Proof.
  intros Hg. apply JsMap_has_elem. unfold JsMap.has. by rewrite Hg.
Qed.

Lemma JsMap_get_None_fresh m k : JsMap.get m k = None -> k ∉ JsMap.keys m.
Proof.
  unfold JsMap.keys. induction m as [|[k' v'] m IH]; simpl.
  - intros _. apply not_elem_of_nil.
  - destruct (decide (k' = k)); [discriminate|]. intros Hg.
    apply not_elem_of_cons. split; [congruence | by apply IH].
Qed.

Lemma JsMap_has_false_fresh m k : JsMap.has m k = false -> k ∉ JsMap.keys m.
Proof.
  unfold JsMap.has. destruct (JsMap.get m k) eqn:Hg; [discriminate|].
  intros _. by apply JsMap_get_None_fresh.
Qed.

Lemma JsMap_keys_put_fresh m k v :
  k ∉ JsMap.keys m -> JsMap.keys (JsMap.put m k v) = JsMap.keys m ++ [k].
Proof.
  intros Hk. unfold JsMap.keys. rewrite JsMap_put_fresh by done.
  by rewrite fmap_app.
Qed.

Lemma JsMap_keys_remove m k :
  NoDup (JsMap.keys m) ->
  JsMap.keys (JsMap.remove m k) = filter (fun k' => k' <> k) (JsMap.keys m).
Proof.
  unfold JsMap.keys. induction m as [|[k' v'] m IH]; [done|].
  cbn [JsMap.remove fmap list_fmap fst]. intros [Hnotin Hnd]%NoDup_cons.
  destruct (decide (k' = k)) as [->|Hne].
  - rewrite filter_cons_False by (intros Hk; by apply Hk).
    symmetry. clear IH Hnd. induction m as [|[k1 v1] m IH]; [done|].
    cbn [fmap list_fmap fst] in *. apply not_elem_of_cons in Hnotin as [Hne Hnotin].
    rewrite filter_cons_True by congruence. f_equal. by apply IH.
  - rewrite filter_cons_True by done. cbn [fmap list_fmap fst]. f_equal. by apply IH.
Qed.

Lemma JsMap_get_remove_ne m k k' :
  k' <> k -> JsMap.get (JsMap.remove m k) k' = JsMap.get m k'.
Proof.
  intros Hne. induction m as [|[k1 v1] m IH]; [done|]. simpl.
  destruct (decide (k1 = k)) as [->|Hk]; simpl.
  - destruct (decide (k = k')); congruence.
  - by rewrite IH.
Qed.

Lemma JsMap_get_remove_eq m k :
  NoDup (JsMap.keys m) -> JsMap.get (JsMap.remove m k) k = None.
Proof.
  intros Hnd. apply JsMap_get_fresh. fold (JsMap.keys (JsMap.remove m k)).
  rewrite JsMap_keys_remove by done. rewrite list_elem_of_filter. by intros [? _].
Qed.

Lemma JsMap_size_remove m k :
  k ∈ JsMap.keys m -> S (JsMap.size (JsMap.remove m k)) = JsMap.size m.
Proof.
  unfold JsMap.keys, JsMap.size. induction m as [|[k' v'] m IH].
  - by intros ?%elem_of_nil.
  - cbn [JsMap.remove fmap list_fmap fst]. destruct (decide (k' = k)) as [->|Hne]; [done|].
    intros [?|Hin]%elem_of_cons; [congruence|]. simpl. f_equal. by apply IH.
Qed.

(** Well-formedness by elements. *)
Lemma wellFormed_elems c :
  LRUCache.wellFormed c <->
  NoDup (JsMap.keys (LRUCache.items c)) /\ NoDup (LRUCache.keyOrder c)
  /\ (forall k, k ∈ LRUCache.keyOrder c <-> k ∈ JsMap.keys (LRUCache.items c))
  /\ 0 < LRUCache.maxSize c
  /\ Z.of_nat (LRUCache.size c) <= LRUCache.maxSize c.
Proof.
  unfold LRUCache.wellFormed. split.
  - intros (Hnd & Hperm & Hpos & Hsize). repeat split; try done.
    + by rewrite Hperm.
    + by rewrite Hperm.
    + by rewrite Hperm.
  - intros (Hnd & Hnd' & Hel & Hpos & Hsize). repeat split; try done.
    by apply NoDup_Permutation.
Qed.

Lemma wellFormed_lengths c :
  LRUCache.wellFormed c -> length (LRUCache.keyOrder c) = LRUCache.size c.
Proof.
  intros (_ & Hperm & _). rewrite Hperm. unfold LRUCache.size, JsMap.size, JsMap.keys.
  by rewrite length_fmap.
Qed.

Lemma wellFormed_new (N : Z) (cb : option (V -> K -> E)) c :
  LRUCache.new N cb = inr c ->
  LRUCache.wellFormed c /\ LRUCache.maxSize c = N /\ LRUCache.items c = [].
Proof.
  unfold LRUCache.new. destruct (Z.leb_spec N 0); [discriminate|].
  intros [= <-]. repeat split; simpl; try done;
    first [constructor | (unfold LRUCache.size; simpl; lia)].
Qed.

Lemma wellFormed_set c key value :
  LRUCache.wellFormed c -> LRUCache.wellFormed (LRUCache.set c key value).1.
Proof.
  intros Hwf. pose proof (wellFormed_lengths c Hwf) as Hlen.
  apply wellFormed_elems in Hwf as (Hnd & Hndo & Hel & Hpos & Hsize).
  apply wellFormed_elems. unfold LRUCache.set, LRUCache.size in *.
  destruct (JsMap.has (LRUCache.items c) key) eqn:Hhas.
  - apply JsMap_has_elem in Hhas as Hin.
    cbn [fst LRUCache.items LRUCache.keyOrder LRUCache.maxSize].
    unfold JsMap.keys in *. rewrite JsMap_put_keys by done.
    rewrite JsMap_size_put_present by done. repeat split; try done.
    + apply NoDup_app. repeat split.
      * by apply NoDup_filter.
      * intros k [Hk _]%list_elem_of_filter ->%list_elem_of_singleton. done.
      * apply NoDup_singleton.
    + intros [[_ Hk]%list_elem_of_filter | ->%list_elem_of_singleton]%elem_of_app;
        [by apply Hel | done].
    + intros Hk. apply elem_of_app. destruct (decide (k = key)) as [->|Hne].
      * right. by apply list_elem_of_singleton.
      * left. apply list_elem_of_filter. split; [done | by apply Hel].
  - assert (Hfresh : key ∉ JsMap.keys (LRUCache.items c))
      by (by apply JsMap_has_false_fresh).
    destruct (Z.leb_spec (LRUCache.maxSize c) (Z.of_nat (JsMap.size (LRUCache.items c)))).
    + destruct (LRUCache.keyOrder c) as [|key0 order'] eqn:Hko.
      { simpl in Hlen. unfold JsMap.size in *. lia. }
      cbn [fst LRUCache.items LRUCache.keyOrder LRUCache.maxSize].
      assert (Hin0 : key0 ∈ JsMap.keys (LRUCache.items c)) by (apply Hel; left).
      apply NoDup_cons in Hndo as [Hnotin Hndo].
      assert (Hfresh' : key ∉ JsMap.keys (JsMap.remove (LRUCache.items c) key0)).
      { rewrite JsMap_keys_remove by done. rewrite list_elem_of_filter. by intros [_ ?]. }
      rewrite JsMap_keys_put_fresh by done. rewrite JsMap_keys_remove by done.
      assert (Hel' : forall k, k ∈ order' <->
                k ∈ filter (fun k' => k' <> key0) (JsMap.keys (LRUCache.items c))).
      { intros k. rewrite list_elem_of_filter, <- Hel, elem_of_cons. split.
        - intros Hk. split; [|by right]. intros ->. done.
        - intros [Hne [?|?]]; [congruence|done]. }
      repeat split; try done.
      * apply NoDup_app. repeat split; [by apply NoDup_filter | | apply NoDup_singleton].
        intros k [_ Hk]%list_elem_of_filter ->%list_elem_of_singleton. done.
      * apply NoDup_app. repeat split; [done | | apply NoDup_singleton].
        intros k Hk ->%list_elem_of_singleton. apply Hfresh. apply Hel. by right.
      * rewrite !elem_of_app, Hel'. tauto.
      * rewrite !elem_of_app, Hel'. tauto.
      * unfold JsMap.size. rewrite JsMap_put_fresh by done. rewrite length_app. simpl.
        pose proof (JsMap_size_remove _ _ Hin0) as Hrem. unfold JsMap.size in *. lia.
    + cbn [fst LRUCache.items LRUCache.keyOrder LRUCache.maxSize].
      rewrite JsMap_keys_put_fresh by done. repeat split; try done.
      * apply NoDup_app. repeat split; [done | | apply NoDup_singleton].
        intros k Hk ->%list_elem_of_singleton. done.
      * apply NoDup_app. repeat split; [done | | apply NoDup_singleton].
        intros k Hk ->%list_elem_of_singleton. apply Hfresh. by apply Hel.
      * rewrite !elem_of_app, Hel. tauto.
      * rewrite !elem_of_app, Hel. tauto.
      * unfold JsMap.size in *. rewrite JsMap_put_fresh by done. rewrite length_app.
        simpl. lia.
Qed.

Lemma wellFormed_delete c key :
  LRUCache.wellFormed c -> LRUCache.wellFormed (LRUCache.delete c key).1.1.
Proof.
  intros Hwf. unfold LRUCache.delete.
  destruct (JsMap.get (LRUCache.items c) key) as [v|] eqn:Hg; [|done].
  apply JsMap_get_keys in Hg as Hin.
  apply wellFormed_elems in Hwf as (Hnd & Hndo & Hel & Hpos & Hsize).
  apply wellFormed_elems. unfold LRUCache.size in *.
  cbn [fst LRUCache.items LRUCache.keyOrder LRUCache.maxSize].
  rewrite JsMap_keys_remove by done. repeat split; try done.
  - by apply NoDup_filter.
  - by apply NoDup_filter.
  - rewrite !list_elem_of_filter, Hel. tauto.
  - rewrite !list_elem_of_filter, Hel. tauto.
  - pose proof (JsMap_size_remove _ _ Hin). lia.
Qed.

Lemma wellFormed_clear c :
  LRUCache.wellFormed c -> LRUCache.wellFormed (LRUCache.clear c).1.
Proof.
  intros (_ & _ & Hpos & _). unfold LRUCache.clear. repeat split; simpl; try done.
  - constructor.
  - unfold LRUCache.size. simpl. lia.
Qed.

Lemma wellFormed_perform c (x : LRUCache.call K V) :
  LRUCache.wellFormed c -> LRUCache.wellFormed (LRUCache.perform c x).1.
Proof.
  intros Hwf. destruct x as [key value|key|]; simpl.
  - by apply wellFormed_set.
  - pose proof (wellFormed_delete c key Hwf) as Hd.
    by destruct (LRUCache.delete c key) as [[c' b] ops].
  - by apply wellFormed_clear.
Qed.

Lemma maxSize_perform c (x : LRUCache.call K V) :
  LRUCache.maxSize (LRUCache.perform c x).1 = LRUCache.maxSize c.
Proof.
  destruct x as [key value|key|]; simpl.
  - unfold LRUCache.set. destruct (JsMap.has _ _); [done|].
    destruct (_ <=? _); [|done]. by destruct (LRUCache.keyOrder c).
  - unfold LRUCache.delete. by destruct (JsMap.get _ _).
  - done.
Qed.
End LRUCacheCalls.

Section LRUCacheContract.
Context {K V E : Type} `{EqDecision K}.
Implicit Types (m : JsMap.t K V) (c : LRUCache.t K V E) (k key : K).

Lemma wellFormed_performAll (xs : list (LRUCache.call K V)) : forall c,
  LRUCache.wellFormed c ->
  LRUCache.wellFormed (LRUCache.performAll c xs).1
  /\ LRUCache.maxSize (LRUCache.performAll c xs).1 = LRUCache.maxSize c.
Proof.
  induction xs as [|x xs IH]; intros c Hwf; [done|].
  cbn [LRUCache.performAll].
  pose proof (wellFormed_perform c x Hwf) as Hwf1.
  pose proof (maxSize_perform c x) as Hmax.
  destruct (LRUCache.perform c x) as [c1 ops1]. cbn [fst] in *.
  destruct (IH c1 Hwf1) as [Hwf2 Hmax2].
  destruct (LRUCache.performAll c1 xs) as [c2 ops2]. cbn [fst] in *.
  split; [done | congruence].
Qed.

(** X1: whatever [set], [delete] and [clear] calls a cache receives after
    its construction, [items] holds each key once, [keyOrder] lists exactly
    the keys of [items], and the cache never holds more entries than its
    capacity. *)
Theorem LRUCache_calls_keep_keys_and_capacity
    (N : Z) (cb : option (V -> K -> E)) c0 (xs : list (LRUCache.call K V)) :
  LRUCache.new N cb = inr c0 ->
  NoDup (JsMap.keys (LRUCache.items (LRUCache.performAll c0 xs).1))
  /\ (LRUCache.keyOrder (LRUCache.performAll c0 xs).1
      ≡ₚ JsMap.keys (LRUCache.items (LRUCache.performAll c0 xs).1))
  /\ Z.of_nat (LRUCache.size (LRUCache.performAll c0 xs).1) <= N
  /\ LRUCache.maxSize (LRUCache.performAll c0 xs).1 = N.
Proof.
  intros Hnew. destruct (wellFormed_new N cb c0 Hnew) as (Hwf & Hmax & _).
  destruct (wellFormed_performAll xs c0 Hwf) as [(Hnd & Hperm & Hpos & Hsize) Hmax'].
  repeat split; try done; congruence.
Qed.

(** X2: [delete] of a key that is absent returns [false] and does nothing;
    of a key that is present it returns [true], calls the disposal callback
    once, on that entry and before the removal, and leaves the cache without
    the key, one entry smaller and with every other entry as it was. *)
Theorem LRUCache_delete_removes_one_entry c key (cb : V -> K -> E) :
  LRUCache.wellFormed c ->
  LRUCache.disposeCallback c = Some cb ->
  match JsMap.get (LRUCache.items c) key with
  | None => LRUCache.delete c key = (c, false, [])
  | Some v =>
      (LRUCache.delete c key).1.2 = true
      /\ (LRUCache.delete c key).2
         = [LRUCache.Dispose (cb v key) v key; LRUCache.ItemsDelete key]
      /\ LRUCache.has (LRUCache.delete c key).1.1 key = false
      /\ (key ∉ LRUCache.keyOrder (LRUCache.delete c key).1.1)
      /\ S (LRUCache.size (LRUCache.delete c key).1.1) = LRUCache.size c
      /\ (forall k', k' <> key ->
            JsMap.get (LRUCache.items (LRUCache.delete c key).1.1) k'
            = JsMap.get (LRUCache.items c) k')
  end.
Proof.
  intros (Hnd & Hperm & _) Hcb. unfold LRUCache.delete, LRUCache.has, LRUCache.size.
  destruct (JsMap.get (LRUCache.items c) key) as [v|] eqn:Hg; [|done].
  cbn [fst snd LRUCache.items LRUCache.keyOrder]. unfold LRUCache.callDispose.
  rewrite Hcb. repeat split.
  - unfold JsMap.has. by rewrite JsMap_get_remove_eq.
  - rewrite list_elem_of_filter. by intros [? _].
  - apply JsMap_size_remove. by eapply JsMap_get_keys.
  - intros k' Hne. by apply JsMap_get_remove_ne.
Qed.

(** X3: after [set(key, value)] the cache holds [value] under [key] and
    [key] is the most recently used key, whatever the cache was. *)
Theorem LRUCache_set_then_get c key value :
  JsMap.get (LRUCache.items (LRUCache.set c key value).1) key = Some value
  /\ LRUCache.has (LRUCache.set c key value).1 key = true
  /\ last (LRUCache.keyOrder (LRUCache.set c key value).1) = Some key.
Proof.
  assert (Hget : JsMap.get (LRUCache.items (LRUCache.set c key value).1) key
                 = Some value).
  { unfold LRUCache.set. destruct (JsMap.has _ _); cbn [fst LRUCache.items].
    - apply JsMap_get_put_eq.
    - destruct (_ <=? _); [destruct (LRUCache.keyOrder c)|];
        cbn [fst LRUCache.items]; apply JsMap_get_put_eq. }
  split; [done|]. split.
  - unfold LRUCache.has, JsMap.has. by rewrite Hget.
  - unfold LRUCache.set. destruct (JsMap.has _ _); cbn [fst LRUCache.keyOrder].
    + apply last_snoc.
    + destruct (_ <=? _); [destruct (LRUCache.keyOrder c)|];
        cbn [fst LRUCache.keyOrder]; apply last_snoc.
Qed.

(** The eviction step on a well-formed full cache. *)
Lemma LRUCache_set_evicts c key value (cb : V -> K -> E) :
  LRUCache.wellFormed c ->
  LRUCache.disposeCallback c = Some cb ->
  LRUCache.has c key = false ->
  LRUCache.maxSize c <= Z.of_nat (LRUCache.size c) ->
  exists key0 order' value0,
    LRUCache.keyOrder c = key0 :: order'
    /\ JsMap.get (LRUCache.items c) key0 = Some value0
    /\ key0 <> key
    /\ LRUCache.set c key value
       = (LRUCache.mk (JsMap.put (JsMap.remove (LRUCache.items c) key0) key value)
            (order' ++ [key]) (LRUCache.maxSize c) (LRUCache.disposeCallback c),
          [LRUCache.Dispose (cb value0 key0) value0 key0; LRUCache.ItemsDelete key0;
           LRUCache.ItemsSet key value]).
Proof.
  intros Hwf Hcb Hhas Hfull. pose proof (wellFormed_lengths c Hwf) as Hlen.
  destruct Hwf as (Hnd & Hperm & Hpos & Hsize).
  unfold LRUCache.has in Hhas.
  destruct (LRUCache.keyOrder c) as [|key0 order'] eqn:Hko; [simpl in Hlen; lia|].
  assert (Hin0 : key0 ∈ JsMap.keys (LRUCache.items c)) by (rewrite <- Hperm; left).
  destruct (JsMap.get (LRUCache.items c) key0) as [value0|] eqn:Hg0.
  2:{ by destruct (JsMap_get_None_fresh _ _ Hg0). }
  exists key0, order', value0. repeat split.
  - done.
  - intros ->. unfold JsMap.has in Hhas. by rewrite Hg0 in Hhas.
  - unfold LRUCache.set, LRUCache.size in *. rewrite Hhas, Hko.
    destruct (Z.leb_spec (LRUCache.maxSize c) (Z.of_nat (JsMap.size (LRUCache.items c))));
      [|lia].
    rewrite Hg0. unfold LRUCache.callDispose. rewrite Hcb. done.
Qed.

(** X4: [set] of a new key on a cache that is full evicts the least
    recently used key and nothing else: the callback is called once, on the
    entry of the first key of [keyOrder] and before its removal; afterwards
    that key is gone, the new key is in, every other entry is as it was and
    the size is the same. *)
Theorem LRUCache_set_at_capacity_evicts_least_recent c key value (cb : V -> K -> E) :
  LRUCache.wellFormed c ->
  LRUCache.disposeCallback c = Some cb ->
  LRUCache.has c key = false ->
  LRUCache.maxSize c <= Z.of_nat (LRUCache.size c) ->
  exists key0 value0,
    head (LRUCache.keyOrder c) = Some key0
    /\ JsMap.get (LRUCache.items c) key0 = Some value0
    /\ (LRUCache.set c key value).2
       = [LRUCache.Dispose (cb value0 key0) value0 key0; LRUCache.ItemsDelete key0;
          LRUCache.ItemsSet key value]
    /\ LRUCache.has (LRUCache.set c key value).1 key0 = false
    /\ JsMap.get (LRUCache.items (LRUCache.set c key value).1) key = Some value
    /\ (forall k', k' <> key -> k' <> key0 ->
          JsMap.get (LRUCache.items (LRUCache.set c key value).1) k'
          = JsMap.get (LRUCache.items c) k')
    /\ LRUCache.size (LRUCache.set c key value).1 = LRUCache.size c
    /\ LRUCache.keyOrder (LRUCache.set c key value).1
       = tail (LRUCache.keyOrder c) ++ [key].
Proof.
  intros Hwf Hcb Hhas Hfull.
  destruct (LRUCache_set_evicts c key value cb Hwf Hcb Hhas Hfull)
    as (key0 & order' & value0 & Hko & Hg0 & Hne & Hset).
  destruct Hwf as (Hnd & Hperm & Hpos & Hsize).
  exists key0, value0. rewrite Hset, Hko. cbn [fst snd LRUCache.items LRUCache.keyOrder].
  unfold LRUCache.has, LRUCache.size. cbn [LRUCache.items].
  repeat split; try done.
  - unfold JsMap.has. rewrite JsMap_get_put_ne by done.
    by rewrite JsMap_get_remove_eq.
  - apply JsMap_get_put_eq.
  - intros k' Hk Hk0. rewrite JsMap_get_put_ne by done.
    by apply JsMap_get_remove_ne.
  - assert (Hfresh : key ∉ JsMap.keys (JsMap.remove (LRUCache.items c) key0)).
    { rewrite JsMap_keys_remove by done. rewrite list_elem_of_filter.
      intros [_ Hin]. by apply (JsMap_has_false_fresh _ _ Hhas). }
    unfold JsMap.size. rewrite JsMap_put_fresh by done. rewrite length_app. simpl.
    pose proof (JsMap_size_remove (LRUCache.items c) key0
                  (JsMap_get_keys _ _ _ Hg0)) as Hrem.
    unfold JsMap.size in Hrem. lia.
Qed.

(** X5: [clear] calls the disposal callback once on every entry, in the
    order of [items], and leaves an empty cache of the same capacity. *)
Theorem LRUCache_clear_disposes_every_entry c (cb : V -> K -> E) :
  LRUCache.disposeCallback c = Some cb ->
  LRUCache.disposals (LRUCache.clear c).2
  = map (fun kv => (kv.2, kv.1)) (LRUCache.items c)
  /\ (LRUCache.clear c).2
     = map (fun kv => LRUCache.Dispose (cb kv.2 kv.1) kv.2 kv.1) (LRUCache.items c)
       ++ [LRUCache.ItemsClear]
  /\ LRUCache.size (LRUCache.clear c).1 = 0%nat
  /\ LRUCache.keyOrder (LRUCache.clear c).1 = []
  /\ (forall k, LRUCache.has (LRUCache.clear c).1 k = false)
  /\ LRUCache.maxSize (LRUCache.clear c).1 = LRUCache.maxSize c.
Proof.
  intros Hcb. unfold LRUCache.clear. cbn [fst snd].
  assert (Hops : flat_map (fun kv => LRUCache.callDispose c (Some kv.2) kv.1)
                   (LRUCache.items c)
                 = map (fun kv => LRUCache.Dispose (cb kv.2 kv.1) kv.2 kv.1)
                     (LRUCache.items c)).
  { unfold LRUCache.callDispose. rewrite Hcb.
    induction (LRUCache.items c) as [|kv m IH]; [done|]. simpl. by rewrite IH. }
  rewrite Hops. repeat split.
  unfold LRUCache.disposals. rewrite flat_map_app. simpl. rewrite app_nil_r.
  clear Hops. induction (LRUCache.items c) as [|kv m IH]; [done|].
  simpl. by rewrite IH.
Qed.

(** X6: the order of eviction is by use, not by insertion: when the oldest
    key of a full cache is set again and a new key is set after that, the
    key evicted is the second oldest one, and the refreshed key stays with
    its new value. *)
Theorem LRUCache_refreshed_key_outlives_next
    c (k1 k2 knew : K) order' (v1 v2 vnew : V) (cb : V -> K -> E) :
  LRUCache.wellFormed c ->
  LRUCache.disposeCallback c = Some cb ->
  LRUCache.keyOrder c = k1 :: k2 :: order' ->
  LRUCache.maxSize c <= Z.of_nat (LRUCache.size c) ->
  LRUCache.has c knew = false ->
  JsMap.get (LRUCache.items c) k2 = Some v2 ->
  LRUCache.disposals (LRUCache.set (LRUCache.set c k1 v1).1 knew vnew).2 = [(v2, k2)]
  /\ JsMap.get (LRUCache.items (LRUCache.set (LRUCache.set c k1 v1).1 knew vnew).1) k1
     = Some v1
  /\ LRUCache.has (LRUCache.set (LRUCache.set c k1 v1).1 knew vnew).1 k2 = false
  /\ LRUCache.has (LRUCache.set (LRUCache.set c k1 v1).1 knew vnew).1 knew = true.
Proof.
  intros Hwf Hcb Hko Hfull Hnew Hg2.
  pose proof (wellFormed_set c k1 v1 Hwf) as Hwf1.
  pose proof Hwf as (Hnd & Hperm & Hpos & Hsize).
  assert (Hndo : NoDup (LRUCache.keyOrder c)) by (by rewrite Hperm).
  rewrite Hko in Hndo. apply NoDup_cons in Hndo as [Hk1 Hndo].
  assert (Hne12 : k2 <> k1) by (intros ->; apply Hk1; left).
  assert (Hin1 : k1 ∈ JsMap.keys (LRUCache.items c))
    by (rewrite <- Hperm, Hko; left).
  assert (Hhas1 : JsMap.has (LRUCache.items c) k1 = true).
  { destruct (JsMap.has (LRUCache.items c) k1) eqn:Hh; [done|].
    by destruct (JsMap_has_false_fresh _ _ Hh). }
  assert (Hset1 : (LRUCache.set c k1 v1).1
            = LRUCache.mk (JsMap.put (LRUCache.items c) k1 v1)
                (k2 :: filter (fun k => k <> k1) order' ++ [k1])
                (LRUCache.maxSize c) (LRUCache.disposeCallback c)).
  { unfold LRUCache.set. rewrite Hhas1, Hko. cbn [fst LRUCache.items LRUCache.keyOrder
      LRUCache.maxSize LRUCache.disposeCallback].
    rewrite filter_cons_False by (intros Hk; by apply Hk).
    by rewrite filter_cons_True by done. }
  rewrite Hset1 in Hwf1 |- *.
  set (c1 := LRUCache.mk _ _ _ _) in *.
  assert (Hne1 : k1 <> knew).
  { intros ->. by destruct (JsMap_has_false_fresh _ _ Hnew). }
  destruct (LRUCache_set_evicts c1 knew vnew cb) as
    (key0 & ord & value0 & Hko1 & Hg0 & Hne0 & Hset2); try done.
  - unfold LRUCache.has, JsMap.has in *. subst c1. cbn [LRUCache.items].
    rewrite JsMap_get_put_ne by done. exact Hnew.
  - subst c1. unfold LRUCache.size in *. cbn [LRUCache.items LRUCache.maxSize].
    rewrite JsMap_size_put_present by done. exact Hfull.
  - subst c1. cbn [LRUCache.keyOrder LRUCache.items] in Hko1, Hg0.
    injection Hko1 as <- <-. rewrite JsMap_get_put_ne in Hg0 by done.
    rewrite Hg2 in Hg0. injection Hg0 as <-.
    rewrite Hset2. cbn [fst snd LRUCache.items]. unfold LRUCache.has, JsMap.has.
    cbn [LRUCache.items]. repeat split.
    + rewrite JsMap_get_put_ne by done. rewrite JsMap_get_remove_ne by done.
      apply JsMap_get_put_eq.
    + rewrite JsMap_get_put_ne by done. rewrite JsMap_get_remove_eq; [done|].
      fold (JsMap.keys (JsMap.put (LRUCache.items c) k1 v1)).
      unfold JsMap.keys. by rewrite JsMap_put_keys.
    + by rewrite JsMap_get_put_eq.
Qed.
End LRUCacheContract.

(** ** Lines: [split] and [join] *)

Section LineFacts.
Import Js.
Implicit Types (s sep : str) (lines : list str).

Lemma startsWith_prefix s pre : startsWith s pre = true <-> pre `prefix_of` s.
Proof.
  revert s. induction pre as [|p pre IH]; intros s.
  - split; [intros _; apply prefix_nil | done].
  - destruct s as [|c s]; cbn [startsWith].
    + split; [done | by intros ?%prefix_nil_not].
    + rewrite andb_true_iff, ch_eqb_eq, IH. split.
      * intros [-> Hp]. by apply prefix_cons.
      * intros [k Hk]. injection Hk as -> ->. split; [done | by exists k].
Qed.

Lemma split_aux_skip sep (t : str) : forall s,
  split_aux sep (length t) (t ++ s) = split_aux sep 0 s.
Proof. induction t as [|c t IH]; intros s; [done|]. simpl. apply IH. Qed.

Lemma join_cons (p : str) lines sep :
  lines <> [] -> join (p :: lines) sep = p ++ sep ++ join lines sep.
Proof. by destruct lines. Qed.

(** Joining the pieces of a split gives the string back. *)
Lemma join_split_aux sep (n : nat) : forall s cur rest,
  sep <> [] -> (length s <= n)%nat ->
  split_aux sep 0 s = (cur, rest) -> join (cur :: rest) sep = s.
Proof.
  induction n as [|n IH]; intros s cur rest Hsep Hlen.
  - destruct s; [|simpl in Hlen; lia]. by intros [= <- <-].
  - destruct s as [|c r]; [by intros [= <- <-]|].
    cbn [split_aux]. destruct (startsWith (c :: r) sep) eqn:Hst.
    + apply startsWith_prefix in Hst as [s' Hs'].
      destruct sep as [|c0 sep']; [done|]. injection Hs' as <- ->.
      cbn [length Nat.pred]. rewrite split_aux_skip.
      destruct (split_aux (c :: sep') 0 s') as [cur' rest'] eqn:Hrec.
      intros [= <- <-]. rewrite join_cons by done.
      rewrite (IH s' cur' rest'); [done | done | | done].
      simpl in Hlen. rewrite length_app in Hlen. lia.
    + destruct (split_aux sep 0 r) as [cur' rest'] eqn:Hrec.
      intros [= <- <-].
      assert (Hr : join (cur' :: rest') sep = r)
        by (apply (IH r); [done | simpl in Hlen; lia | done]).
      destruct rest' as [|x rest']; simpl in *; by rewrite Hr.
Qed.

Lemma join_split s sep : sep <> [] -> join (split s sep) sep = s.
Proof.
  intros Hsep. unfold split. destruct (split_aux sep 0 s) as [cur rest] eqn:Hs.
  by apply (join_split_aux sep (length s) s).
Qed.

Lemma split_nonempty s sep : split s sep <> [].
Proof. unfold split. by destruct (split_aux sep 0 s). Qed.

Lemma join_app lines1 lines2 sep :
  lines1 <> [] -> lines2 <> [] ->
  join (lines1 ++ lines2) sep = join lines1 sep ++ sep ++ join lines2 sep.
Proof.
  intros H1 H2. induction lines1 as [|p lines1 IH]; [done|].
  destruct lines1 as [|q lines1].
  - simpl. by destruct lines2.
  - change ((p :: q :: lines1) ++ lines2) with (p :: (q :: lines1) ++ lines2).
    rewrite join_cons by done. rewrite IH by done.
    rewrite (join_cons p (q :: lines1)) by done. by rewrite <- !app_assoc.
Qed.

Lemma join_drop_suffix lines sep (n : nat) :
  join (drop n lines) sep `suffix_of` join lines sep.
Proof.
  destruct (decide (n = 0%nat)) as [->|Hn]; [done|].
  destruct (decide (n < length lines)%nat) as [Hlt|Hge].
  - rewrite <- (take_drop n lines) at 2. rewrite join_app.
    + rewrite app_assoc. by eexists.
    + intros Ht. apply (f_equal length) in Ht. rewrite length_take in Ht.
      simpl in Ht. lia.
    + intros Hd. apply (f_equal length) in Hd. rewrite length_drop in Hd.
      simpl in Hd. lia.
  - rewrite drop_ge by lia. apply suffix_nil.
Qed.

Lemma join_take_prefix lines sep (n : nat) :
  join (take n lines) sep `prefix_of` join lines sep.
Proof.
  destruct (decide (n = 0%nat)) as [->|Hn]; [apply prefix_nil|].
  destruct (decide (n < length lines)%nat) as [Hlt|Hge].
  - rewrite <- (take_drop n lines) at 2. rewrite join_app.
    + by eexists.
    + intros Ht. apply (f_equal length) in Ht. rewrite length_take in Ht.
      simpl in Ht. lia.
    + intros Hd. apply (f_equal length) in Hd. rewrite length_drop in Hd.
      simpl in Hd. lia.
  - by rewrite take_ge by lia.
Qed.

Lemma slice_last {A} (l : list A) (n : Z) :
  0 < n -> slice l (- n) None = drop (length l - Z.to_nat n) l.
Proof.
  intros Hn. unfold slice, relIndex.
  destruct (Z.ltb_spec (- n) 0); [|lia].
  rewrite take_ge by (rewrite length_drop; lia). f_equal. lia.
Qed.

Lemma slice_first {A} (l : list A) (n : Z) :
  0 <= n -> slice l 0 (Some n) = take (Z.to_nat n) l.
Proof.
  intros Hn. unfold slice, relIndex.
  destruct (Z.ltb_spec n 0); [lia|]. simpl.
  replace (Z.min 0 (Z.of_nat (length l))) with 0 by lia.
  rewrite Z.sub_0_r. change (Z.to_nat 0) with 0%nat. rewrite drop_0.
  destruct (Z.le_gt_cases n (Z.of_nat (length l))).
  - by rewrite Z.min_l by lia.
  - rewrite Z.min_r by lia. rewrite Nat2Z.id. by rewrite !take_ge by lia.
Qed.
End LineFacts.

(** ** The context and the classifier *)

Section ClassifierFacts.
Import Js Autocomplete.
Variable isWindows : bool.

Lemma ln_nonempty : _ln isWindows <> [].
Proof. by destruct isWindows. Qed.

Lemma head_suffix_join (lines : list str) sep x :
  last lines = Some x -> x `suffix_of` join lines sep.
Proof.
  intros [l' ->]%last_Some.
  pose proof (join_drop_suffix (l' ++ [x]) sep (length l')) as Hs.
  by rewrite drop_app_length in Hs.
Qed.

Lemma head_prefix_join (lines : list str) sep x :
  head lines = Some x -> x `prefix_of` join lines sep.
Proof.
  destruct lines as [|y lines]; [done|]. intros [= ->].
  apply (join_take_prefix (x :: lines) sep 1).
Qed.

Lemma slice_last_one {A} (l : list A) : head (slice l (-1) None) = last l.
Proof.
  change (slice l (-1) None) with (slice l (Z.opp 1) None).
  rewrite slice_last by lia.
  destruct l as [|x l] using rev_ind; [done|].
  rewrite length_app. simpl.
  replace (length l + 1 - Z.to_nat 1)%nat with (length l) by lia.
  by rewrite drop_app_length, last_snoc.
Qed.

(** X7: on both platforms the lines that the extractor returns rebuild
    the prefix and the suffix when joined with [_ln]; the line left of the
    cursor is the end of the prefix and the line right of it the start of
    the suffix; a cursor offset outside of the text is clamped to it. *)
Theorem getPrefixAndSuffixInfo_lines_rebuild_text (fullText : str) (cursorOffset : Z) :
  let info := getPrefixAndSuffixInfo isWindows fullText cursorOffset in
  join (PrefixAndSuffixInfo.prefixLines info) (_ln isWindows)
  = PrefixAndSuffixInfo.prefix info
  /\ join (PrefixAndSuffixInfo.suffixLines info) (_ln isWindows)
     = PrefixAndSuffixInfo.suffix info
  /\ PrefixAndSuffixInfo.prefixToTheLeftOfCursor info
     `suffix_of` PrefixAndSuffixInfo.prefix info
  /\ PrefixAndSuffixInfo.suffixToTheRightOfCursor info
     `prefix_of` PrefixAndSuffixInfo.suffix info
  /\ PrefixAndSuffixInfo.prefix info
     = take (Z.to_nat (Z.min (Z.max cursorOffset 0) (Z.of_nat (length fullText))))
         fullText
  /\ PrefixAndSuffixInfo.suffix info
     = drop (Z.to_nat (Z.min (Z.max cursorOffset 0) (Z.of_nat (length fullText))))
         fullText.
Proof.
  cbn [getPrefixAndSuffixInfo PrefixAndSuffixInfo.prefixLines
       PrefixAndSuffixInfo.suffixLines PrefixAndSuffixInfo.prefix
       PrefixAndSuffixInfo.suffix PrefixAndSuffixInfo.prefixToTheLeftOfCursor
       PrefixAndSuffixInfo.suffixToTheRightOfCursor].
  set (prefix := substring fullText 0 (Some cursorOffset)).
  set (suffix := substring fullText cursorOffset None).
  pose proof ln_nonempty as Hln.
  split; [by apply join_split|]. split; [by apply join_split|]. split; [|split].
  - rewrite slice_last_one.
    destruct (last (split prefix (_ln isWindows))) as [x|] eqn:Hlast.
    + rewrite <- (join_split prefix (_ln isWindows)) by done.
      by apply head_suffix_join.
    + apply suffix_nil.
  - destruct (head (split suffix (_ln isWindows))) as [x|] eqn:Hhead.
    + rewrite <- (join_split suffix (_ln isWindows)) by done.
      by apply head_prefix_join.
    + apply prefix_nil.
  - subst prefix suffix. unfold substring, clampIndex.
    set (len := Z.of_nat (length fullText)).
    set (k := Z.min (Z.max cursorOffset 0) len).
    assert (Hk : 0 <= k <= len) by (subst k len; lia).
    replace (Z.min (Z.max 0 0) len) with 0 by lia.
    replace (Z.min 0 k) with 0 by lia.
    replace (Z.max 0 k - 0) with k by lia.
    replace (Z.min k len) with k by lia.
    replace (Z.max k len - k) with (len - k) by lia.
    change (Z.to_nat 0) with 0%nat. rewrite drop_0. split; [done|].
    apply take_ge. rewrite length_drop. subst len. lia.
Qed.

Lemma trimStart_blank (s : str) :
  trimStart s = [] <-> Forall (fun c => isWhiteSpace c = true) s.
Proof.
  induction s as [|c s IH]; [by split; [constructor|]|].
  cbn [trimStart]. destruct (isWhiteSpace c) eqn:Hc.
  - rewrite IH. split; [by constructor | by intros [_ ?]%Forall_cons].
  - split; [done | intros [? _]%Forall_cons; congruence].
Qed.

Lemma trim_blank (s : str) :
  truthy (trim s) = false <-> removeAllWhitespace s = [].
Proof.
  assert (Hfilter : removeAllWhitespace s = []
                    <-> Forall (fun c => isWhiteSpace c = true) s).
  { unfold removeAllWhitespace. induction s as [|c s IH]; [by split; [constructor|]|].
    destruct (isWhiteSpace c) eqn:Hc.
    - rewrite filter_cons_False by congruence. rewrite IH.
      split; [by constructor | by intros [_ ?]%Forall_cons].
    - rewrite filter_cons_True by done.
      split; [done | intros [? _]%Forall_cons; congruence]. }
  rewrite Hfilter. split.
  - intros Ht. destruct (trim_split s) as (lead & trail & Heq & Hlead & Htrail & _).
    destruct (trim s); [|discriminate]. rewrite Heq. simpl.
    by apply Forall_app.
  - intros Hall. apply trimStart_blank in Hall. unfold trim. by rewrite Hall.
Qed.

(** X8: the classifier declines exactly when there is nothing but white
    space left of the cursor on its line and more than three characters
    other than white space right of it, whether or not a completion was
    just accepted; it is the only case without generation, and it has no
    stop tokens. *)
Theorem getCompletionOptions_declines_iff
    (prefixAndSuffix : PrefixAndSuffixInfo) (relevantContext : str) (accepted : bool) :
  let options :=
    getCompletionOptions isWindows prefixAndSuffix relevantContext accepted in
  (CompletionOptions.predictionType options = DoNotPredict
   <-> removeAllWhitespace (PrefixAndSuffixInfo.prefixToTheLeftOfCursor prefixAndSuffix)
       = []
       /\ (3 < length (removeAllWhitespace
                         (PrefixAndSuffixInfo.suffixToTheRightOfCursor prefixAndSuffix)))%nat)
  /\ (CompletionOptions.shouldGenerate options = false
      <-> CompletionOptions.predictionType options = DoNotPredict)
  /\ (CompletionOptions.predictionType options = DoNotPredict ->
      CompletionOptions.stopTokens options = []).
Proof.
  unfold getCompletionOptions.
  set (pl := PrefixAndSuffixInfo.prefixToTheLeftOfCursor prefixAndSuffix).
  set (sr := PrefixAndSuffixInfo.suffixToTheRightOfCursor prefixAndSuffix).
  pose proof (trim_blank pl) as Hpl. pose proof (trim_blank sr) as Hsr.
  destruct (truthy (trim pl)) eqn:Htp; destruct (truthy (trim sr)) eqn:Hts;
    destruct (removeAllWhitespace pl) as [|p0 pl'] eqn:Hrp;
    destruct (removeAllWhitespace sr) as [|s0 sr'] eqn:Hrs;
    try (by (destruct Hpl as [Hp1 Hp2]; first [discriminate (Hp1 eq_refl)
                                             | discriminate (Hp2 eq_refl)]));
    try (by (destruct Hsr as [Hs1 Hs2]; first [discriminate (Hs1 eq_refl)
                                             | discriminate (Hs2 eq_refl)]));
    destruct accepted; cbn [length Nat.eqb andb negb];
    try destruct (Nat.leb_spec (S (length sr')) 3);
    cbn [CompletionOptions.predictionType CompletionOptions.shouldGenerate
         CompletionOptions.stopTokens];
    repeat split; try done; try (intros [? ?]; simpl in *; (done || lia));
    try (intros _; simpl; lia).
Qed.

(** X9: the context sent to the model is a window of the text around the
    cursor: the model prefix is the last 25 lines of the prefix (all of it
    when it has no more lines), followed by [_ln] for the multi-line kind
    only; the model suffix is the first 25 lines of the suffix, and for the
    redo-suffix kind these lines without the first one, the rest of the
    current line. *)
Theorem getCompletionOptions_windows_the_context
    (prefixAndSuffix : PrefixAndSuffixInfo) (relevantContext : str) (accepted : bool) :
  let ln := _ln isWindows in
  let options :=
    getCompletionOptions isWindows prefixAndSuffix relevantContext accepted in
  let prefixLines := split (PrefixAndSuffixInfo.prefix prefixAndSuffix) ln in
  let suffixLines := split (PrefixAndSuffixInfo.suffix prefixAndSuffix) ln in
  let windowedPrefix := join (drop (length prefixLines - 25) prefixLines) ln in
  let windowedSuffix := join (take 25 suffixLines) ln in
  windowedPrefix `suffix_of` PrefixAndSuffixInfo.prefix prefixAndSuffix
  /\ windowedSuffix `prefix_of` PrefixAndSuffixInfo.suffix prefixAndSuffix
  /\ ((length prefixLines <= 25)%nat ->
      windowedPrefix = PrefixAndSuffixInfo.prefix prefixAndSuffix)
  /\ ((length suffixLines <= 25)%nat ->
      windowedSuffix = PrefixAndSuffixInfo.suffix prefixAndSuffix)
  /\ CompletionOptions.llmPrefix options
     = (if type_eqb (CompletionOptions.predictionType options) MultiLineStartOnNextLine
        then windowedPrefix ++ ln else windowedPrefix)
  /\ (CompletionOptions.predictionType options <> SingleLineRedoSuffix ->
      CompletionOptions.llmSuffix options = windowedSuffix)
  /\ (CompletionOptions.predictionType options = SingleLineRedoSuffix ->
      exists line, head suffixLines = Some line
                   /\ windowedSuffix = line ++ CompletionOptions.llmSuffix options).
Proof.
  intros ln options prefixLines suffixLines windowedPrefix windowedSuffix.
  pose proof ln_nonempty as Hln. fold ln in Hln.
  split; [|split; [|split; [|split]]].
  - subst windowedPrefix prefixLines.
    rewrite <- (join_split (PrefixAndSuffixInfo.prefix prefixAndSuffix) ln) at 3 by done.
    apply join_drop_suffix.
  - subst windowedSuffix suffixLines.
    rewrite <- (join_split (PrefixAndSuffixInfo.suffix prefixAndSuffix) ln) at 2 by done.
    apply join_take_prefix.
  - intros Hle. subst windowedPrefix.
    replace (length prefixLines - 25)%nat with 0%nat by lia.
    rewrite drop_0. by apply join_split.
  - intros Hle. subst windowedSuffix. rewrite take_ge by done. by apply join_split.
  - subst options. unfold getCompletionOptions. fold ln.
    change (slice (split (PrefixAndSuffixInfo.prefix prefixAndSuffix) ln) (-25) None)
      with (slice prefixLines (Z.opp 25) None).
    rewrite slice_last by lia. rewrite slice_first by lia.
    change (Z.to_nat 25) with 25%nat. fold suffixLines. fold windowedPrefix.
    fold windowedSuffix.
    destruct (accepted && _); [by repeat split|].
    destruct (negb _ && negb _); [by repeat split|].
    destruct (_ <=? 3)%nat.
    + cbn [CompletionOptions.predictionType CompletionOptions.llmPrefix
           CompletionOptions.llmSuffix type_eqb].
      split; [done|]. split; [done|]. intros _.
      rewrite slice_from by lia. change (Z.to_nat 1) with 1%nat.
      subst windowedSuffix.
      pose proof (split_nonempty (PrefixAndSuffixInfo.suffix prefixAndSuffix) ln) as Hne.
      fold suffixLines in Hne.
      destruct suffixLines as [|line rest]; [done|]. exists line. split; [done|].
      destruct rest as [|line2 rest]; [by rewrite app_nil_r|].
      change (take 25 (line :: line2 :: rest)) with (line :: line2 :: take 23 rest).
      cbn [drop length Nat.eqb]. by rewrite join_cons.
    + destruct (negb _); by repeat split.
Qed.
End ClassifierFacts.

(** ** The replaced range *)

Section RangeFacts.
Import Js Autocomplete.

Lemma subsequenceLoop_sublist (of_ : str) : forall (remaining lastMatchChar : str),
  remaining <> [] ->
  ((subsequenceLoop of_ remaining lastMatchChar).1 = true
   <-> remaining `sublist_of` of_)
  /\ ((subsequenceLoop of_ remaining lastMatchChar).1 = true ->
      Some (subsequenceLoop of_ remaining lastMatchChar).2 = (fun c => [c]) <$> last remaining).
Proof.
  induction of_ as [|c rest IH]; intros remaining lastMatchChar Hne.
  - cbn [subsequenceLoop fst]. split; [|done]. rewrite sublist_nil_r. by split.
  - destruct remaining as [|s remaining']; [done|]. cbn [subsequenceLoop].
    rewrite sublist_cons_r.
    destruct (ch_eqb c s) eqn:Hcs.
    + apply ch_eqb_eq in Hcs as ->. destruct remaining' as [|s' remaining''].
      * cbn [fst snd]. split; [|done]. split; [|done]. intros _. right.
        exists []. split; [done | apply sublist_nil_l].
      * destruct (IH (s' :: remaining'') [s]) as [Hiff Hlast]; [done|].
        split.
        -- rewrite Hiff. split.
           ++ intros Hs. right. by eexists.
           ++ intros [Hs|(l' & [= <-] & Hs)]; [|done].
              eapply sublist_cons_l in Hs as (k1 & k2 & -> & Hs).
              by apply sublist_inserts_l, sublist_cons.
        -- intros Ht. rewrite (Hlast Ht). by rewrite last_cons_cons.
    + destruct (IH (s :: remaining') lastMatchChar) as [Hiff Hlast]; [done|].
      split; [|done]. rewrite Hiff. split; [by left|].
      intros [Hs|(l' & [= -> <-] & Hs)]; [done|].
      by rewrite ch_eqb_refl in Hcs.
Qed.

Lemma getIsSubsequence_true (of_ subsequence : str) :
  (getIsSubsequence of_ subsequence).1 = true <-> subsequence `sublist_of` of_.
Proof.
  unfold getIsSubsequence. destruct subsequence as [|s sub].
  - cbn [fst]. split; [intros _; apply sublist_nil_l | done].
  - destruct of_ as [|c rest].
    + cbn [fst]. rewrite sublist_nil_r. by split.
    + by destruct (subsequenceLoop_sublist (c :: rest) (s :: sub) []) as [Hiff _].
Qed.

(** X10: [getIsSubsequence] answers [true] exactly when [subsequence] can be
    obtained from [of] by leaving characters out; the character it then
    returns is the last one of [subsequence] (none for the empty one). *)
Theorem getIsSubsequence_iff_sublist (of_ subsequence : str) :
  ((getIsSubsequence of_ subsequence).1 = true <-> subsequence `sublist_of` of_)
  /\ ((getIsSubsequence of_ subsequence).1 = true ->
      (getIsSubsequence of_ subsequence).2
      = match last subsequence with Some c => [c] | None => [] end).
Proof.
  unfold getIsSubsequence. destruct subsequence as [|s sub].
  - cbn [fst snd last]. split; [|done]. split; [intros _; apply sublist_nil_l | done].
  - destruct of_ as [|c rest].
    + cbn [fst]. split; [|done]. rewrite sublist_nil_r. by split.
    + destruct (subsequenceLoop_sublist (c :: rest) (s :: sub) []) as [Hiff Hlast];
        [done|].
      split; [done|]. intros Ht. specialize (Hlast Ht).
      destruct (last (s :: sub)); simpl in *; congruence.
Qed.

Lemma lastIndexOf_bounds (s pat : str) :
  -1 <= lastIndexOf s pat <= Z.of_nat (length s).
Proof.
  unfold lastIndexOf, found.
  assert (Hb : forall i, lastIndexOf_from s pat = Some i -> (i <= length s)%nat).
  { induction s as [|c s IH]; cbn [lastIndexOf_from]; intros i.
    - destruct (startsWith [] pat); [|done]. intros [= <-]. simpl. lia.
    - destruct (lastIndexOf_from s pat) as [j|].
      + intros [= <-]. specialize (IH j eq_refl). simpl. lia.
      + destruct (startsWith (c :: s) pat); [|done]. intros [= <-]. simpl. lia. }
  destruct (lastIndexOf_from s pat) as [i|]; [|lia].
  specialize (Hb i eq_refl). lia.
Qed.

Lemma slice_0_prefix {A} (l : list A) (e : Z) : slice l 0 (Some e) `prefix_of` l.
Proof.
  unfold slice. replace (relIndex (Z.of_nat (length l)) 0) with 0
    by (unfold relIndex; simpl; lia).
  change (Z.to_nat 0) with 0%nat. rewrite drop_0. apply prefix_take.
Qed.

(** X11: [toInlineCompletions] returns one completion.  Its text is the
    postprocessed insertion or a beginning of it, and its range starts at
    the cursor and ends on the cursor's line.  For every kind but
    redo-suffix the text is whole and the range empty.  For redo-suffix,
    when the old line suffix without white space can be obtained from the
    insertion without white space by leaving characters out, the text is
    whole and the range runs to the end of the line; otherwise the range
    ends at most one column after the old suffix. *)
Theorem toInlineCompletions_one_item_at_cursor
    isWindows (matchup : AutocompletionMatchupBounds) (autocompletion : Autocompletion)
    (prefixAndSuffix : PrefixAndSuffixInfo) (position : Position) :
  let whole := postprocessAutocompletion isWindows matchup autocompletion prefixAndSuffix in
  let oldSuffix := PrefixAndSuffixInfo.suffixToTheRightOfCursor prefixAndSuffix in
  exists text range,
    toInlineCompletions isWindows matchup autocompletion prefixAndSuffix position
    = [(text, range)]
    /\ text `prefix_of` whole
    /\ startLineNumber range = lineNumber position
    /\ endLineNumber range = lineNumber position
    /\ startColumn range = column position
    /\ (Autocompletion.type autocompletion <> SingleLineRedoSuffix ->
        text = whole /\ endColumn range = column position)
    /\ (Autocompletion.type autocompletion = SingleLineRedoSuffix ->
        removeAllWhitespace oldSuffix
        `sublist_of` removeAllWhitespace (Autocompletion.insertText autocompletion) ->
        text = whole /\ endColumn range = MAX_SAFE_INTEGER)
    /\ (Autocompletion.type autocompletion = SingleLineRedoSuffix ->
        ~ removeAllWhitespace oldSuffix
          `sublist_of` removeAllWhitespace (Autocompletion.insertText autocompletion) ->
        column position <= endColumn range
        <= column position + Z.of_nat (length oldSuffix) + 1).
Proof.
  intros whole oldSuffix. unfold toInlineCompletions. fold whole. fold oldSuffix.
  destruct (type_eqb (Autocompletion.type autocompletion) SingleLineRedoSuffix) eqn:Hty.
  - apply type_eqb_eq in Hty.
    pose proof (getIsSubsequence_true
                  (removeAllWhitespace (Autocompletion.insertText autocompletion))
                  (removeAllWhitespace oldSuffix)) as Hiff.
    destruct (getIsSubsequence _ _) as [isSub lastChar]. cbn [fst] in Hiff.
    destruct isSub.
    + eexists _, _. split; [done|]. cbn. repeat split; try done;
        exfalso; match goal with Hn : ~ _ |- _ => by apply Hn, Hiff end.
    + eexists _, _. split; [done|]. cbn.
      pose proof (lastIndexOf_bounds oldSuffix lastChar).
      repeat split; try done; try lia;
        try (exfalso;
             match goal with Hs : _ `sublist_of` _ |- _ =>
               apply Hiff in Hs; discriminate end).
      apply slice_0_prefix.
  - eexists _, _. split; [done|]. cbn.
    repeat split; try done; exfalso;
      match goal with Heq : Autocompletion.type _ = _ |- _ =>
        rewrite Heq in Hty; discriminate end.
Qed.
End RangeFacts.

(** ** What the postprocessor returns *)

Section PostprocessFacts.
Import Js Autocomplete.
Implicit Types (stack : list ascii) (s prefix : str).

Lemma unbalancedIdx_take s : forall stack i,
  unbalancedIdx stack s = Some i -> unbalancedIdx stack (take i s) = None.
Proof.
  induction s as [|c s IH]; intros stack i; [done|].
  cbn [unbalancedIdx].
  assert (Hrec : forall stack',
            S <$> unbalancedIdx stack' s = Some i ->
            exists j, i = S j /\ unbalancedIdx stack' (take j s) = None).
  { intros stack' Hs. destruct (unbalancedIdx stack' s) as [j|] eqn:Hj; [|done].
    injection Hs as <-. exists j. split; [done | by apply IH]. }
  destruct (isOpening c) eqn:Hopen.
  { intros (j & -> & Hj)%Hrec. cbn [take unbalancedIdx]. by rewrite Hopen, Hj. }
  destruct (isClosing c) eqn:Hclose.
  2:{ intros (j & -> & Hj)%Hrec. cbn [take unbalancedIdx].
      by rewrite Hopen, Hclose, Hj. }
  destruct stack as [|top stack']; [by intros [= <-]|].
  destruct (decide (Some top = pairs c)) as [Heq|Hne]; [|by intros [= <-]].
  intros (j & -> & Hj)%Hrec. cbn [take unbalancedIdx].
  rewrite Hopen, Hclose. destruct (decide (Some top = pairs c)); [|done].
  by rewrite Hj.
Qed.

Lemma unbalancedIdx_bound s : forall stack i,
  unbalancedIdx stack s = Some i -> (i < length s)%nat.
Proof.
  intros stack i Hi. pose proof (unbalancedIdx_first s stack) as Hf.
  rewrite Hi in Hf. destruct Hf as [Hu _]. by apply unbalancedCloserAt_lt in Hu.
Qed.

Lemma cut_is_take s prefix :
  exists n, getStringUpToUnbalancedClosingParenthesis s prefix = take n s
            /\ unbalancedIdx (seedStack prefix) (take n s) = None.
Proof.
  unfold getStringUpToUnbalancedClosingParenthesis.
  destruct (unbalancedIdx (seedStack prefix) s) as [i|] eqn:Hi.
  - exists i. split.
    + apply substring_0_take. apply unbalancedIdx_bound in Hi. lia.
    + by apply unbalancedIdx_take.
  - exists (length s). by rewrite take_ge by done.
Qed.

(** X12: cutting at the first unbalanced closing bracket gives a beginning
    of the text that has no unbalanced closing bracket left, so that
    cutting it again changes nothing. *)
Theorem bracket_cut_is_balanced_and_idempotent s prefix :
  getStringUpToUnbalancedClosingParenthesis s prefix `prefix_of` s
  /\ (forall i,
        ~ unbalancedCloserAt (seedStack prefix)
            (getStringUpToUnbalancedClosingParenthesis s prefix) i)
  /\ getStringUpToUnbalancedClosingParenthesis
       (getStringUpToUnbalancedClosingParenthesis s prefix) prefix
     = getStringUpToUnbalancedClosingParenthesis s prefix.
Proof.
  destruct (cut_is_take s prefix) as (n & -> & Hnone).
  split; [apply prefix_take|]. split.
  - pose proof (unbalancedIdx_first (take n s) (seedStack prefix)) as Hf.
    by rewrite Hnone in Hf.
  - unfold getStringUpToUnbalancedClosingParenthesis. by rewrite Hnone.
Qed.

Lemma slice_infix {A} (l : list A) (a : Z) (b : option Z) :
  exists before after, l = before ++ slice l a b ++ after.
Proof.
  unfold slice.
  match goal with
  | |- context [take ?n (drop ?from l)] =>
      exists (take from l), (drop n (drop from l));
      by rewrite (take_drop n (drop from l)), take_drop
  end.
Qed.

(** X13: the postprocessor invents no text: on both platforms what it
    returns is one connected piece of the stored insertion, and that piece
    has no closing bracket that is unbalanced after the prefix. *)
Theorem postprocessAutocompletion_returns_piece_of_insertion
    isWindows (matchup : AutocompletionMatchupBounds) (autocompletion : Autocompletion)
    (prefixAndSuffix : PrefixAndSuffixInfo) :
  (exists before after,
     Autocompletion.insertText autocompletion
     = before
       ++ postprocessAutocompletion isWindows matchup autocompletion prefixAndSuffix
       ++ after)
  /\ (forall i,
        ~ unbalancedCloserAt (seedStack (PrefixAndSuffixInfo.prefix prefixAndSuffix))
            (postprocessAutocompletion isWindows matchup autocompletion prefixAndSuffix)
            i).
Proof.
  unfold postprocessAutocompletion.
  set (startIdx := postprocessStartIdx _ _ _ _).
  set (endIdx := postprocessEndIdx _ _ _ _).
  set (piece := slice _ _ _).
  destruct (cut_is_take piece (PrefixAndSuffixInfo.prefix prefixAndSuffix))
    as (n & Hcut & Hnone).
  split.
  - destruct (slice_infix (Autocompletion.insertText autocompletion) startIdx
                (Some endIdx)) as (before & after & Heq).
    fold piece in Heq. rewrite Hcut.
    exists before, (drop n piece ++ after).
    rewrite Heq at 1. rewrite <- (take_drop n piece) at 1.
    by rewrite <- !app_assoc.
  - rewrite Hcut.
    pose proof (unbalancedIdx_first (take n piece)
                  (seedStack (PrefixAndSuffixInfo.prefix prefixAndSuffix))) as Hf.
    by rewrite Hnone in Hf.
Qed.
End PostprocessFacts.

(** ** The matchup while the user types *)

Section TypingFacts.
Import Js Autocomplete.
Variable isWindows : bool.
Implicit Types (s : str) (c : ascii).

Local Abbreviation oneLine := (Forall (fun c => isLineTerminator c = false)).
Local Abbreviation startsWithText s :=
  (forall c, head s = Some c -> isWhiteSpace c = false).

Lemma LF_in_ln : LF ∈ _ln isWindows.
Proof. destruct isWindows; simpl; [right; left | left]. Qed.

Lemma ln_all_breaks c : c ∈ _ln isWindows -> isLineTerminator c = true.
Proof.
  destruct isWindows; simpl.
  - intros [->|[->|?%elem_of_nil]%elem_of_cons]%elem_of_cons; done.
  - intros [->|?%elem_of_nil]%elem_of_cons; done.
Qed.

Lemma oneLine_no_ln s : oneLine s -> startsWith s (_ln isWindows) = false.
Proof.
  intros Hs. destruct (startsWith s (_ln isWindows)) eqn:Hst; [|done].
  apply startsWith_prefix in Hst as [k ->].
  rewrite Forall_forall in Hs.
  assert (Hlf : isLineTerminator LF = false)
    by (apply Hs, elem_of_app; left; apply LF_in_ln).
  discriminate Hlf.
Qed.

Lemma indexOf_from_occurs s (pat : str) i :
  indexOf_from s pat = Some i -> pat `prefix_of` drop i s.
Proof.
  revert i. induction s as [|c s IH]; intros i; cbn [indexOf_from].
  - destruct (startsWith [] pat) eqn:Hst; [|done]. intros [= <-].
    by apply startsWith_prefix.
  - destruct (startsWith (c :: s) pat) eqn:Hst.
    + intros [= <-]. by apply startsWith_prefix.
    + destruct (indexOf_from s pat) as [j|] eqn:Hj; [|done].
      intros [= <-]. simpl. by apply IH.
Qed.

Lemma oneLine_not_includes s : oneLine s -> includes s (_ln isWindows) = false.
Proof.
  intros Hs. unfold includes.
  destruct (indexOf_from s (_ln isWindows)) as [i|] eqn:Hi; [|done].
  apply indexOf_from_occurs in Hi as [k Hk].
  assert (Hin : LF ∈ s).
  { apply (subseteq_drop i s). rewrite Hk. apply elem_of_app. left.
    apply LF_in_ln. }
  rewrite Forall_forall in Hs. discriminate (Hs LF Hin).
Qed.

Lemma removeLeftTabs_InLine s : oneLine s -> removeLeftTabs InLine s = s.
Proof.
  induction 1 as [|c s Hc Hs IH]; [done|].
  cbn [removeLeftTabs]. by rewrite Hc, IH.
Qed.

(** A text on one line that does not begin with white space is its own
    normal form. *)
Lemma removeLeftTabsAndTrimEnds_oneLine s :
  oneLine s -> startsWithText s -> removeLeftTabsAndTrimEnds isWindows s = s.
Proof.
  intros Hs Hhead. unfold removeLeftTabsAndTrimEnds.
  rewrite slice_from by lia. rewrite Nat2Z.id.
  rewrite oneLine_not_includes.
  - destruct Hs as [|c s Hc Hs]; [done|]. cbn [removeLeftTabs].
    rewrite (Hhead c eq_refl). by rewrite removeLeftTabs_InLine.
  - apply Forall_forall. intros c Hc. rewrite Forall_forall in Hs. apply Hs.
    by apply (subseteq_drop (length (trimEnd s)) s).
Qed.

Lemma split_oneLine s : oneLine s -> split s (_ln isWindows) = [s].
Proof.
  intros Hs. unfold split.
  assert (Haux : split_aux (_ln isWindows) 0 s = (s, [])).
  { induction Hs as [|c s Hc Hs IH]; [done|]. cbn [split_aux].
    rewrite oneLine_no_ln by (by constructor). by rewrite IH. }
  by rewrite Haux.
Qed.

Lemma takeWhile_all (p : ascii -> bool) s :
  Forall (fun c => p c = true) s -> takeWhile p s = s.
Proof. induction 1 as [|c s Hc Hs IH]; [done|]. simpl. by rewrite Hc, IH. Qed.

Lemma getLastLine_oneLine s : oneLine s -> getLastLine isWindows s = s.
Proof.
  intros Hs. unfold getLastLine. rewrite takeWhile_all; [apply rev_involutive|].
  apply Forall_forall. intros c Hc. apply list_elem_of_In, in_rev, list_elem_of_In in Hc.
  rewrite Forall_forall in Hs. specialize (Hs c Hc).
  destruct (existsb (ch_eqb c) (_ln isWindows)) eqn:Hex; [|done].
  apply existsb_exists in Hex as (x & Hx & Heq). apply ch_eqb_eq in Heq as <-.
  apply list_elem_of_In, ln_all_breaks in Hx. congruence.
Qed.

(** X14: when the user has typed the first characters of a prediction, the
    matchup succeeds and starts after them.  Here the stored prefix, the
    characters typed and the rest of the insertion are on one line, and
    neither the text left of the cursor nor the insertion begins with white
    space. *)
Theorem getAutocompletionMatchup_after_typing
    (autocompletion : Autocompletion) (typed rest : str) :
  Autocompletion.insertText autocompletion = typed ++ rest ->
  oneLine (Autocompletion.prefix autocompletion ++ typed ++ rest) ->
  startsWithText (Autocompletion.prefix autocompletion) ->
  startsWithText (typed ++ rest) ->
  getAutocompletionMatchup isWindows
    (Autocompletion.prefix autocompletion ++ typed) autocompletion
  = Some (AutocompletionMatchupBounds.mk 0
            (Z.of_nat (length typed)) (Z.of_nat (length typed))).
Proof.
  intros Hins Hline HheadP HheadI.
  set (P := Autocompletion.prefix autocompletion) in *.
  apply Forall_app in Hline as [HP Hline].
  pose proof Hline as [HX HY]%Forall_app.
  assert (HheadPX : startsWithText (P ++ typed)).
  { destruct P as [|p P']; [|exact HheadP]. simpl. intros c Hc. apply HheadI.
    destruct typed; [done | exact Hc]. }
  unfold getAutocompletionMatchup. fold P. rewrite Hins.
  rewrite (removeLeftTabsAndTrimEnds_oneLine (P ++ typed))
    by (done || by apply Forall_app).
  rewrite (removeLeftTabsAndTrimEnds_oneLine P) by done.
  rewrite (removeLeftTabsAndTrimEnds_oneLine (typed ++ rest)) by done.
  rewrite length_app. destruct (Nat.ltb_spec (length P + length typed) (length P));
    [lia|].
  rewrite (app_assoc P typed rest), startsWith_app. cbn [negb].
  rewrite !split_oneLine by (done || by apply Forall_app).
  cbn [length]. rewrite Z.sub_diag. unfold index. cbn [Z.ltb Z.eqb Z.compare].
  change (Z.to_nat 0) with 0%nat. cbn [lookup list_lookup default].
  rewrite !getLastLine_oneLine by (done || by apply Forall_app).
  change (id (typed ++ rest)) with (typed ++ rest).
  rewrite (app_assoc P typed rest), indexOf_app.
  cbn [Z.ltb Z.compare]. unfold getIndex. rewrite slice_0_0.
  cbn [join length Z.gtb Z.compare]. rewrite length_app.
  do 2 f_equal; lia.
Qed.

(** X15: a matchup never succeeds for a prefix that has left the
    prediction: whenever it succeeds, the normal form of the current prefix
    is a beginning of the normal forms of the stored prefix and insertion
    put together, is at least as long as that of the stored prefix, and
    [startLine] is the number of lines by which it is longer. *)
Theorem getAutocompletionMatchup_only_along_prediction
    (prefix : str) (autocompletion : Autocompletion) (m : AutocompletionMatchupBounds) :
  getAutocompletionMatchup isWindows prefix autocompletion = Some m ->
  removeLeftTabsAndTrimEnds isWindows prefix
  `prefix_of` removeLeftTabsAndTrimEnds isWindows (Autocompletion.prefix autocompletion)
              ++ removeLeftTabsAndTrimEnds isWindows
                   (Autocompletion.insertText autocompletion)
  /\ (length (removeLeftTabsAndTrimEnds isWindows (Autocompletion.prefix autocompletion))
      <= length (removeLeftTabsAndTrimEnds isWindows prefix))%nat
  /\ 0 <= AutocompletionMatchupBounds.startLine m
  /\ AutocompletionMatchupBounds.startLine m
     = Z.of_nat (length (split (removeLeftTabsAndTrimEnds isWindows prefix)
                           (_ln isWindows)))
       - Z.of_nat (length (split (removeLeftTabsAndTrimEnds isWindows
                                    (Autocompletion.prefix autocompletion))
                             (_ln isWindows))).
Proof.
  unfold getAutocompletionMatchup.
  destruct (Nat.ltb_spec (length (removeLeftTabsAndTrimEnds isWindows prefix))
              (length (removeLeftTabsAndTrimEnds isWindows
                         (Autocompletion.prefix autocompletion)))); [done|].
  destruct (startsWith _ _) eqn:Hst; [|done]. cbn [negb].
  destruct (Z.ltb_spec (Z.of_nat (length (split (removeLeftTabsAndTrimEnds isWindows prefix)
                                            (_ln isWindows)))
                        - Z.of_nat (length (split (removeLeftTabsAndTrimEnds isWindows
                                        (Autocompletion.prefix autocompletion))
                                      (_ln isWindows)))) 0); [done|].
  destruct (_ <? 0); [done|]. intros [= <-].
  cbn [AutocompletionMatchupBounds.startLine].
  split; [by apply startsWith_prefix|]. by repeat split.
Qed.
End TypingFacts.

(** ** The caches of the service *)

Section ServiceCacheFacts.
Import Js Autocomplete.
Variable isWindows : bool.
Variable extractCodeFromRegular : str -> Z -> str.

Local Abbreviation step := (step isWindows extractCodeFromRegular).
Local Abbreviation run := (run isWindows extractCodeFromRegular).

Lemma cachesWellFormed_update st docUriStr cache' counter start accept h aborted' :
  cachesWellFormed st ->
  LRUCache.wellFormed cache' -> LRUCache.maxSize cache' = MAX_CACHE_SIZE ->
  cachesWellFormed
    (mkState counter (<[docUriStr := cache']> (_autocompletionsOfDocument st))
       start accept h aborted').
Proof.
  intros Hwf Hc Hmax doc c. simpl.
  destruct (decide (docUriStr = doc)) as [<-|Hne].
  - rewrite lookup_insert_eq. by intros [= <-].
  - rewrite lookup_insert_ne by done. apply Hwf.
Qed.

Lemma cachesWellFormed_same st st' :
  _autocompletionsOfDocument st' = _autocompletionsOfDocument st ->
  cachesWellFormed st -> cachesWellFormed st'.
Proof. intros Heq Hwf doc c. rewrite Heq. apply Hwf. Qed.

Lemma cachesWellFormed_cacheDelete st docUriStr id :
  cachesWellFormed st -> cachesWellFormed (cacheDelete st docUriStr id).
Proof.
  intros Hwf. unfold cacheDelete.
  destruct (_autocompletionsOfDocument st !! docUriStr) as [cache|] eqn:Hdoc; [|done].
  destruct (Hwf _ _ Hdoc) as [Hc Hmax].
  pose proof (wellFormed_delete cache id Hc) as Hc'.
  pose proof (maxSize_perform cache (LRUCache.CallDelete id)) as Hmax'. simpl in Hmax'.
  destruct (LRUCache.delete cache id) as [[cache' b] ops]. simpl in *.
  unfold runDisposals, withCaches. simpl.
  apply (cachesWellFormed_update st); [done | done | congruence].
Qed.

Lemma cachesWellFormed_create st docUriStr prefixAndSuffix lspContext accepted
    now requestId :
  cachesWellFormed st ->
  cachesWellFormed
    (createAutocompletion isWindows st docUriStr prefixAndSuffix lspContext accepted
       now requestId).1.
Proof.
  intros Hwf. unfold createAutocompletion.
  destruct (_autocompletionsOfDocument st !! docUriStr) as [cache|]; [|done].
  set (st1 := match oldestPendingToCancel _ _ _ _ with
              | Some id => cacheDelete st docUriStr id
              | None => st
              end).
  assert (Hwf1 : cachesWellFormed st1).
  { subst st1. destruct (oldestPendingToCancel _ _ _ _); [|done].
    by apply cachesWellFormed_cacheDelete. }
  clearbody st1. destruct (negb _); [done|]. cbn [_autocompletionsOfDocument].
  destruct (_autocompletionsOfDocument st1 !! docUriStr) as [cache1|] eqn:Hdoc.
  - destruct (Hwf1 _ _ Hdoc) as [Hc Hmax].
    pose proof (wellFormed_set cache1 (_autocompletionId st1) (length (heap st1)) Hc)
      as Hc'.
    pose proof (maxSize_perform cache1
                  (LRUCache.CallSet (_autocompletionId st1) (length (heap st1))))
      as Hmax'.
    cbn [LRUCache.perform] in Hmax'. cbn [Autocompletion.id].
    destruct (LRUCache.set cache1 _ _) as [cache' ops]. cbn [fst] in *.
    unfold runDisposals, withCaches. cbn [fst _autocompletionsOfDocument].
    apply (cachesWellFormed_update st1); [done | done | exact (eq_trans Hmax' Hmax)].
  - cbn [fst]. by apply (cachesWellFormed_same st1).
Qed.

Lemma cachesWellFormed_step st e :
  cachesWellFormed st -> cachesWellFormed (step st e).
Proof.
  intros Hwf. destruct e; simpl.
  - unfold initCache. destruct (negb isEnabled); [done|].
    destruct (_autocompletionsOfDocument st !! docUriStr) eqn:Hdoc; [done|].
    unfold withCaches.
    destruct (wellFormed_new MAX_CACHE_SIZE (Some (fun (r : ref) (_ : Z) => r))
                (LRUCache.mk JsMap.empty [] MAX_CACHE_SIZE
                   (Some (fun (r : ref) (_ : Z) => r))) eq_refl) as (Hc & Hmax & _).
    simpl. by apply (cachesWellFormed_update st).
  - by apply (cachesWellFormed_same st).
  - by apply cachesWellFormed_create.
  - unfold mutate. destruct (heap st !! r); [|done]. by apply (cachesWellFormed_same st).
  - unfold mutate. destruct (heap st !! r); [|done]. by apply (cachesWellFormed_same st).
  - unfold mutate. destruct (heap st !! r); [|done]. by apply (cachesWellFormed_same st).
  - unfold mutate. destruct (heap st !! r); [|done]. by apply (cachesWellFormed_same st).
  - destruct (heap st !! r); [|done]. destruct (awaitFails _); [|done].
    by apply cachesWellFormed_cacheDelete.
  - unfold freeInlineCompletions.
    destruct (_autocompletionsOfDocument st !! docUriStr) as [cache|]; [|done].
    generalize (LRUCache.items cache). intros entries. revert st Hwf.
    induction entries as [|entry entries IH]; intros st Hwf; [done|].
    simpl. apply IH. unfold acceptStep.
    destruct (_autocompletionsOfDocument st !! docUriStr); [|done].
    destruct (negb _); [done|]. destruct (heap st !! entry.2); [|done].
    destruct (bool_decide _); [|done].
    apply cachesWellFormed_cacheDelete. by apply (cachesWellFormed_same st).
Qed.

Lemma cachesWellFormed_run events : forall st,
  cachesWellFormed st -> cachesWellFormed (run st events).
Proof.
  induction events as [|e events IH]; intros st Hwf; [done|].
  simpl. apply IH. by apply cachesWellFormed_step.
Qed.

Lemma cachesWellFormed_initial : cachesWellFormed initialState.
Proof. intros doc c Hc. simpl in Hc. by rewrite lookup_empty in Hc. Qed.

(** X16: whatever happens to the service, the cache of every document
    holds at most [MAX_CACHE_SIZE] = 20 predictions, each id once, and its
    [keyOrder] lists exactly these ids. *)
Theorem document_caches_hold_at_most_20 (events : list event) docUriStr cache :
  _autocompletionsOfDocument (run initialState events) !! docUriStr = Some cache ->
  (LRUCache.size cache <= 20)%nat
  /\ NoDup (JsMap.keys (LRUCache.items cache))
  /\ LRUCache.keyOrder cache ≡ₚ JsMap.keys (LRUCache.items cache).
Proof.
  intros Hdoc.
  destruct (cachesWellFormed_run events initialState cachesWellFormed_initial
              _ _ Hdoc) as [(Hnd & Hperm & _ & Hsize) Hmax].
  rewrite Hmax in Hsize. unfold MAX_CACHE_SIZE in Hsize. repeat split; try done. lia.
Qed.
End ServiceCacheFacts.

(** ** The objects of the service *)

Section ObjectFacts.
Import Js Autocomplete.
Variable isWindows : bool.
Variable extractCodeFromRegular : str -> Z -> str.

Local Abbreviation step := (step isWindows extractCodeFromRegular).
Local Abbreviation run := (run isWindows extractCodeFromRegular).
Local Abbreviation onFinalMessage :=
  (onFinalMessage isWindows extractCodeFromRegular).

Lemma heap_cacheDelete st docUriStr id : heap (cacheDelete st docUriStr id) = heap st.
Proof.
  unfold cacheDelete. destruct (_ !! docUriStr); [|done].
  by destruct (LRUCache.delete _ _) as [[? ?] ?].
Qed.

Lemma heap_free st docUriStr prefix now :
  heap (freeInlineCompletions st docUriStr prefix now) = heap st.
Proof.
  unfold freeInlineCompletions.
  destruct (_autocompletionsOfDocument st !! docUriStr) as [cache|]; [|done].
  generalize (LRUCache.items cache). intros entries. revert st.
  induction entries as [|entry entries IH]; intros st; [done|].
  simpl. rewrite IH. unfold acceptStep.
  destruct (_autocompletionsOfDocument st !! docUriStr); [|done].
  destruct (negb _); [done|]. destruct (heap st !! entry.2); [|done].
  destruct (bool_decide _); [|done]. by rewrite heap_cacheDelete.
Qed.

(** A creation leaves the objects as they are and adds at most one, which
    is pending and empty. *)
Lemma heap_create st docUriStr prefixAndSuffix lspContext accepted now requestId :
  let st' :=
    (createAutocompletion isWindows st docUriStr prefixAndSuffix lspContext accepted
       now requestId).1 in
  heap st' = heap st
  \/ exists a, heap st' = heap st ++ [a]
       /\ Autocompletion.status a = Pending
       /\ Autocompletion.insertText a = []
       /\ Autocompletion.endTime a = None
       /\ Autocompletion.llmPromise a = Some Unsettled
       /\ Autocompletion.prefix a = PrefixAndSuffixInfo.prefix prefixAndSuffix
       /\ Autocompletion.suffix a = PrefixAndSuffixInfo.suffix prefixAndSuffix.
Proof.
  unfold createAutocompletion.
  destruct (_autocompletionsOfDocument st !! docUriStr) as [cache|]; [|by left].
  set (st1 := match oldestPendingToCancel _ _ _ _ with
              | Some id => cacheDelete st docUriStr id
              | None => st
              end).
  assert (Hh : heap st1 = heap st).
  { subst st1. destruct (oldestPendingToCancel _ _ _ _); [|done].
    apply heap_cacheDelete. }
  destruct (negb _); [by left|]. cbn [_autocompletionsOfDocument]. right.
  destruct (_autocompletionsOfDocument st1 !! docUriStr) as [cache1|].
  - destruct (LRUCache.set cache1 _ _) as [cache' ops]. cbn [fst].
    eexists. unfold runDisposals, withCaches. cbn. rewrite Hh. by repeat split.
  - cbn [fst]. eexists. cbn. rewrite Hh. by repeat split.
Qed.

Lemma heap_mutate st r f (r' : ref) :
  heap (mutate st r f) !! r'
  = if decide (r = r') then f <$> heap st !! r' else heap st !! r'.
Proof.
  unfold mutate. destruct (heap st !! r) as [a|] eqn:Hr.
  - unfold withHeap. simpl. destruct (decide (r = r')) as [<-|Hne].
    + rewrite list_lookup_insert_eq by (by eapply lookup_lt_Some). by rewrite Hr.
    + by rewrite list_lookup_insert_ne.
  - destruct (decide (r = r')) as [<-|Hne]; [by rewrite Hr|done].
Qed.

(** One step of the service, seen from an object: it stays, or one of the
    four callbacks of its request runs on it. *)
Lemma heap_step (R : Autocompletion -> Autocompletion -> Prop) :
  (forall a, R a a) ->
  (forall a fullText now, R a (onFinalMessage a fullText now)) ->
  (forall a message now, R a (onError a message now)) ->
  (forall a, R a (onAbort a)) ->
  (forall a, R a (onTimeout a)) ->
  forall st e (r : ref) a, heap st !! r = Some a ->
  exists a', heap (step st e) !! r = Some a' /\ R a a'.
Proof.
  intros Hrefl Hfinal Herror Habort Htimeout st e r a Hr.
  assert (Hsame : forall st', heap st' = heap st ->
            exists a', heap st' !! r = Some a' /\ R a a').
  { intros st' ->. by exists a. }
  assert (Hmut : forall r' f, (forall b, R b (f b)) ->
            exists a', heap (mutate st r' f) !! r = Some a' /\ R a a').
  { intros r' f Hf. rewrite heap_mutate, Hr.
    destruct (decide (r' = r)); [by exists (f a)|by exists a]. }
  destruct e; simpl.
  - apply Hsame. unfold initCache. destruct (negb _); [done|].
    destruct (_ !! docUriStr); [done|]. by destruct (LRUCache.new _ _).
  - by apply Hsame.
  - destruct (heap_create st docUriStr prefixAndSuffix lspContext
                justAcceptedAutocompletion now requestId) as [Hh|(b & Hh & _)].
    + by apply Hsame.
    + rewrite Hh. exists a. split; [|done]. by apply lookup_app_l_Some.
  - by apply Hmut.
  - by apply Hmut.
  - by apply Hmut.
  - by apply Hmut.
  - apply Hsame. destruct (heap st !! r0); [|done]. destruct (awaitFails _); [|done].
    apply heap_cacheDelete.
  - apply Hsame. apply heap_free.
Qed.

Lemma laterStateOf_refl a : laterStateOf a a.
Proof. by repeat split. Qed.

Lemma laterStateOf_trans a b c :
  laterStateOf a b -> laterStateOf b c -> laterStateOf a c.
Proof.
  intros (H1 & H2 & H3 & H4 & H5 & H6 & H7 & H8 & H9 & H10)
         (G1 & G2 & G3 & G4 & G5 & G6 & G7 & G8 & G9 & G10).
  repeat split; try congruence.
  - intros Hp. rewrite G9; [by apply H9|]. by rewrite H9.
  - intros Hs. by apply G10, H10.
Qed.

Lemma settled_resolve p value : p <> Some Unsettled -> resolve p value = p.
Proof. by destruct p as [[]|]. Qed.

Lemma settled_reject p reason : p <> Some Unsettled -> reject p reason = p.
Proof. by destruct p as [[]|]. Qed.

Lemma laterStateOf_step st e (r : ref) a :
  heap st !! r = Some a ->
  exists a', heap (step st e) !! r = Some a' /\ laterStateOf a a'.
Proof.
  apply heap_step.
  - apply laterStateOf_refl.
  - intros b fullText now. unfold Autocomplete.onFinalMessage. repeat split; try done.
    simpl. apply settled_resolve.
  - intros b message now. unfold onError. repeat split; try done.
    simpl. apply settled_reject.
  - intros b. unfold onAbort. repeat split; try done. simpl. apply settled_reject.
  - intros b. unfold onTimeout.
    destruct (Autocompletion.status b) eqn:Hs; try apply laterStateOf_refl.
    repeat split; try done. simpl. apply settled_reject.
Qed.

(** X17: an object of the service stays where it is for good, with its id,
    prefix, suffix, model prefix and suffix, start time, kind and request
    id; once its promise is settled the promise never changes again,
    whichever callbacks still run, and once its status has left
    ['pending'] it never is ['pending'] again. *)
Theorem settled_request_is_never_settled_again (events : list event) st (r : ref) a :
  heap st !! r = Some a ->
  exists a', heap (run st events) !! r = Some a'
    /\ Autocompletion.id a' = Autocompletion.id a
    /\ Autocompletion.prefix a' = Autocompletion.prefix a
    /\ Autocompletion.suffix a' = Autocompletion.suffix a
    /\ Autocompletion.llmPrefix a' = Autocompletion.llmPrefix a
    /\ Autocompletion.llmSuffix a' = Autocompletion.llmSuffix a
    /\ Autocompletion.startTime a' = Autocompletion.startTime a
    /\ Autocompletion.type a' = Autocompletion.type a
    /\ Autocompletion.requestId a' = Autocompletion.requestId a
    /\ (Autocompletion.llmPromise a <> Some Unsettled ->
        Autocompletion.llmPromise a' = Autocompletion.llmPromise a)
    /\ (Autocompletion.status a <> Pending -> Autocompletion.status a' <> Pending).
Proof.
  change (heap st !! r = Some a ->
          exists a', heap (run st events) !! r = Some a' /\ laterStateOf a a').
  revert st a. induction events as [|e events IH]; intros st a Hr.
  - exists a. split; [done|apply laterStateOf_refl].
  - destruct (laterStateOf_step st e r a Hr) as (b & Hb & Hab).
    destruct (IH _ _ Hb) as (c & Hc & Hbc).
    exists c. split; [done|]. by eapply laterStateOf_trans.
Qed.

Lemma pendingHoldsNothing_step st e :
  Forall pendingHoldsNothing (heap st) ->
  Forall pendingHoldsNothing (heap (step st e)).
Proof.
  intros Hall.
  assert (Hmut : forall r f,
            (forall b, pendingHoldsNothing b -> pendingHoldsNothing (f b)) ->
            Forall pendingHoldsNothing (heap (mutate st r f))).
  { intros r f Hf. apply Forall_lookup. intros r' b. rewrite heap_mutate.
    destruct (decide (r = r')) as [<-|Hne].
    - destruct (heap st !! r) as [b0|] eqn:Hr; [|done]. intros [= <-].
      apply Hf. by eapply (proj1 (Forall_lookup _ _) Hall).
    - by apply (proj1 (Forall_lookup _ _) Hall). }
  destruct e; simpl.
  - unfold initCache. destruct (negb _); [done|].
    destruct (_ !! docUriStr); [done|]. by destruct (LRUCache.new _ _).
  - done.
  - destruct (heap_create st docUriStr prefixAndSuffix lspContext
                justAcceptedAutocompletion now requestId)
      as [->|(b & -> & Hs & Ht & He & Hp & _)]; [done|].
    apply Forall_app. split; [done|]. apply Forall_singleton.
    repeat split; try done; [by eexists|]. intros value. by rewrite Hp.
  - apply Hmut. intros b ((p & Hp) & Hpend & Hun).
    unfold Autocomplete.onFinalMessage. repeat split; simpl; try done.
    + rewrite Hp. destruct p; by eexists.
    + rewrite Hp. by destruct p.
  - apply Hmut. intros b ((p & Hp) & Hpend & Hun).
    unfold onError. repeat split; simpl; try done.
    + rewrite Hp. destruct p; by eexists.
    + rewrite Hp. by destruct p.
  - apply Hmut. intros b ((p & Hp) & Hpend & Hun).
    unfold onAbort. repeat split; simpl.
    + rewrite Hp. destruct p; by eexists.
    + by apply Hpend.
    + by apply Hpend.
    + intros value. rewrite Hp. destruct p; try done.
      intros [= <-]. by eapply (proj2 (proj2 (Hpend H))).
    + rewrite Hp. by destruct p.
  - apply Hmut. intros b Hb.
    unfold onTimeout. destruct (Autocompletion.status b) eqn:Hs; [|done..].
    destruct Hb as ((p & Hp) & Hpend & Hun). repeat split; simpl.
    + rewrite Hp. destruct p; by eexists.
    + by apply Hpend.
    + by apply Hpend.
    + intros value. rewrite Hp. destruct p; try done.
      intros [= <-]. by eapply (proj2 (proj2 (Hpend Hs))).
    + done.
  - destruct (heap st !! r); [|done]. destruct (awaitFails _); [|done].
    by rewrite heap_cacheDelete.
  - by rewrite heap_free.
Qed.

(** X18: in every state the service reaches, each object has a promise; an
    object that is still ['pending'] holds the empty insertion, no end time
    and a promise that is not resolved; and an object whose promise is not
    settled is ['pending']. *)
Theorem pending_request_holds_no_text (events : list event) (r : ref) a :
  heap (run initialState events) !! r = Some a ->
  (exists p, Autocompletion.llmPromise a = Some p)
  /\ (Autocompletion.status a = Pending ->
      Autocompletion.insertText a = []
      /\ Autocompletion.endTime a = None
      /\ forall value, Autocompletion.llmPromise a <> Some (Resolved value))
  /\ (Autocompletion.llmPromise a = Some Unsettled ->
      Autocompletion.status a = Pending).
Proof.
  assert (Hall : forall st, Forall pendingHoldsNothing (heap st) ->
            Forall pendingHoldsNothing (heap (run st events))).
  { induction events as [|e events IH]; intros st Hst; [done|].
    simpl. apply IH. by apply pendingHoldsNothing_step. }
  intros Hr. apply (proj1 (Forall_lookup _ _) (Hall initialState (Forall_nil_2 _)) r a Hr).
Qed.
End ObjectFacts.

(** ** Acceptance *)

Section AcceptFacts.
Import Js Autocomplete.
Variable isWindows : bool.
Variable extractCodeFromRegular : str -> Z -> str.

Local Abbreviation run := (run isWindows extractCodeFromRegular).

Lemma JsMap_remove_middle {K V} `{EqDecision K} (kept rest : JsMap.t K V) k v :
  k ∉ JsMap.keys kept ->
  JsMap.remove (kept ++ (k, v) :: rest) k = kept ++ rest.
Proof.
  induction kept as [|[k' v'] kept IH]; intros Hk; simpl.
  - by rewrite decide_True.
  - unfold JsMap.keys in Hk. simpl in Hk. apply not_elem_of_cons in Hk as [Hne Hk].
    rewrite decide_False by done. f_equal. by apply IH.
Qed.

Lemma JsMap_get_middle {K V} `{EqDecision K} (kept rest : JsMap.t K V) k v :
  k ∉ JsMap.keys kept ->
  JsMap.get (kept ++ (k, v) :: rest) k = Some v.
Proof.
  induction kept as [|[k' v'] kept IH]; intros Hk; simpl.
  - by rewrite decide_True.
  - unfold JsMap.keys in Hk. simpl in Hk. apply not_elem_of_cons in Hk as [Hne Hk].
    rewrite decide_False by done. by apply IH.
Qed.

(** The loop of [freeInlineCompletions], from any point of the iteration:
    [kept] are the entries visited and left, [remaining] the ones still to
    visit. *)
Lemma acceptStep_fold docUriStr prefix now (remaining : list (Z * ref)) :
  forall kept st cache,
  _autocompletionsOfDocument st !! docUriStr = Some cache ->
  LRUCache.items cache = kept ++ remaining ->
  NoDup (JsMap.keys (kept ++ remaining)) ->
  (forall k (r : ref), (k, r) ∈ remaining ->
     exists a, heap st !! r = Some a /\ Autocompletion.id a = k) ->
  let st' := fold_left (acceptStep docUriStr prefix now) remaining st in
  (exists cache',
     _autocompletionsOfDocument st' !! docUriStr = Some cache'
     /\ LRUCache.items cache'
        = kept ++ filter (fun kv => staysAfterAccept (heap st) prefix kv = true)
                    remaining)
  /\ heap st' = heap st
  /\ _autocompletionId st' = _autocompletionId st
  /\ _lastCompletionStart st' = _lastCompletionStart st
  /\ (forall other, other <> docUriStr ->
        _autocompletionsOfDocument st' !! other
        = _autocompletionsOfDocument st !! other)
  /\ _lastCompletionAccept st'
     = if forallb (staysAfterAccept (heap st) prefix) remaining
       then _lastCompletionAccept st else now.
Proof.
  induction remaining as [|[k r] rest IH]; intros kept st cache Hdoc Hitems Hnd Hids.
  - simpl. rewrite app_nil_r in *. repeat split; try done. by exists cache.
  - destruct (Hids k r) as (a & Hr & Hid); [by left|].
    assert (Hk : k ∉ JsMap.keys kept).
    { unfold JsMap.keys in *. rewrite fmap_app in Hnd.
      apply NoDup_app in Hnd as (_ & Hdisj & _). intros Hin.
      apply (Hdisj k Hin). by left. }
    assert (Hhas : LRUCache.has cache k = true).
    { unfold LRUCache.has, JsMap.has. rewrite Hitems.
      by rewrite (JsMap_get_middle kept rest k r Hk). }
    assert (Hstay : staysAfterAccept (heap st) prefix (k, r)
                    = negb (isAccepted prefix a)).
    { unfold staysAfterAccept. cbn [snd]. by rewrite Hr. }
    cbn [fold_left forallb]. rewrite Hstay.
    assert (Hstep : acceptStep docUriStr prefix now st (k, r)
              = if isAccepted prefix a
                then cacheDelete
                       (mkState (_autocompletionId st) (_autocompletionsOfDocument st)
                          (_lastCompletionStart st) now (heap st) (aborted st))
                       docUriStr k
                else st).
    { unfold acceptStep. rewrite Hdoc. cbn [fst snd]. rewrite Hhas, Hr. cbn [negb].
      unfold isAccepted. by rewrite Hid. }
    rewrite Hstep. clear Hstep.
    destruct (isAccepted prefix a) eqn:Hacc; cbn [negb andb] in *.
    + set (st2 := cacheDelete _ docUriStr k).
      assert (Hst2 : exists cache2 aborted2,
                st2 = mkState (_autocompletionId st)
                        (<[docUriStr := cache2]> (_autocompletionsOfDocument st))
                        (_lastCompletionStart st) now (heap st) aborted2
                /\ LRUCache.items cache2 = kept ++ rest).
      { subst st2. unfold cacheDelete. cbn [_autocompletionsOfDocument].
        rewrite Hdoc. unfold LRUCache.delete. rewrite Hitems.
        rewrite (JsMap_get_middle kept rest k r Hk).
        rewrite (JsMap_remove_middle kept rest k r Hk).
        unfold runDisposals, withCaches. cbn. by eexists _, _. }
      destruct Hst2 as (cache2 & aborted2 & Hst2 & Hitems2). clearbody st2.
      destruct (IH kept st2 cache2) as ((cache' & Hc' & Hi') & Hh & Hn & Hs & Ho & Ha).
      * subst st2. cbn. by rewrite lookup_insert_eq.
      * done.
      * unfold JsMap.keys in *. rewrite fmap_app in *. simpl in Hnd.
        apply NoDup_app in Hnd as (Hnd1 & Hdisj & Hnd2).
        apply NoDup_app. repeat split; [done| |by apply NoDup_cons in Hnd2 as [_ ?]].
        intros x Hx Hx'. apply (Hdisj x Hx). by right.
      * intros k' r' Hin. subst st2. cbn. apply Hids. by right.
      * rewrite filter_cons_False by (by rewrite Hstay).
        subst st2. cbn in *. repeat split; try done.
        -- by exists cache'.
        -- intros other Hne. rewrite Ho by done. by rewrite lookup_insert_ne.
        -- rewrite Ha. by destruct (forallb _ rest).
    + destruct (IH (kept ++ [(k, r)]) st cache) as ((cache' & Hc' & Hi') & Hrest).
      * done.
      * by rewrite <- app_assoc.
      * by rewrite <- app_assoc.
      * intros k' r' Hin. apply Hids. by right.
      * rewrite filter_cons_True by done. split; [|done].
        exists cache'. split; [done|]. by rewrite Hi', <- app_assoc.
Qed.

(** X19: in a state the service has reached, [freeInlineCompletions] on a
    document with a cache deletes exactly the entries whose object has
    [prefix + insertText] equal to the text before the cursor up to white
    space, and keeps the others in their order; it records the time of the
    call in [_lastCompletionAccept] if it deleted an entry and leaves the
    time as it was otherwise; the objects, the id counter and the caches of
    the other documents stay as they are. *)
Theorem freeInlineCompletions_deletes_the_accepted (events : list event)
    docUriStr prefix now cache :
  let st := run initialState events in
  _autocompletionsOfDocument st !! docUriStr = Some cache ->
  let st' := freeInlineCompletions st docUriStr prefix now in
  (exists cache',
     _autocompletionsOfDocument st' !! docUriStr = Some cache'
     /\ LRUCache.items cache'
        = filter (fun kv => staysAfterAccept (heap st) prefix kv = true)
            (LRUCache.items cache))
  /\ heap st' = heap st
  /\ _autocompletionId st' = _autocompletionId st
  /\ _lastCompletionStart st' = _lastCompletionStart st
  /\ (forall other, other <> docUriStr ->
        _autocompletionsOfDocument st' !! other
        = _autocompletionsOfDocument st !! other)
  /\ _lastCompletionAccept st'
     = if forallb (staysAfterAccept (heap st) prefix) (LRUCache.items cache)
       then _lastCompletionAccept st else now.
Proof.
  intros st Hdoc st'. subst st'. unfold freeInlineCompletions. rewrite Hdoc.
  pose proof (idsFollowCreation_run isWindows extractCodeFromRegular events
                initialState idsFollowCreation_initial) as (_ & _ & Hids).
  pose proof (cachesWellFormed_run isWindows extractCodeFromRegular events
                initialState cachesWellFormed_initial _ _ Hdoc) as [(Hnd & _) _].
  apply (acceptStep_fold docUriStr prefix now (LRUCache.items cache) [] st cache);
    [done..|].
  intros k r Hin. by eapply Hids.
Qed.
End AcceptFacts.

(** ** Lines and offsets *)

Section OffsetFacts.
Import Js Autocomplete.
Variable isWindows : bool.
Implicit Types (s : str) (c : ascii).

Local Abbreviation _ln := (_ln isWindows).
Local Abbreviation getIndex := (getIndex isWindows).
Local Abbreviation getLastLine := (getLastLine isWindows).
Local Abbreviation removeLeftTabsAndTrimEnds := (removeLeftTabsAndTrimEnds isWindows).

(** X20: for a line of [s] after the first one, [getIndex] counts the
    lines before it, joined, one more character and the column.  Where the
    line break is one character this is the offset of the column in [s];
    where it is CR LF the offset is one short, the LF of the break before
    the line is still to come. *)
Theorem getIndex_is_offset_up_to_break_length s (line char : Z) :
  0 < line < Z.of_nat (length (split s _ln)) ->
  0 <= char ->
  drop (Z.to_nat (getIndex s line char)) s
  = drop (Z.to_nat char)
      ((if isWindows then [LF] else [])
       ++ join (drop (Z.to_nat line) (split s _ln)) _ln).
Proof.
  intros Hline Hchar. unfold Autocomplete.getIndex.
  rewrite slice_first by lia.
  destruct (Z.gtb_spec line 0) as [_|?]; [|lia].
  set (lines := split s _ln) in *.
  set (before := take (Z.to_nat line) lines).
  set (after := drop (Z.to_nat line) lines).
  assert (Hb : before <> []).
  { subst before. intros Hnil%(f_equal length). rewrite length_take in Hnil.
    simpl in Hnil. lia. }
  assert (Ha : after <> []).
  { subst after. intros Hnil%(f_equal length). rewrite length_drop in Hnil.
    simpl in Hnil. lia. }
  assert (Hs : s = join before _ln ++ _ln ++ join after _ln).
  { rewrite <- join_app by done. subst before after. rewrite take_drop.
    subst lines. symmetry. apply join_split, ln_nonempty. }
  rewrite Hs at 1.
  replace (Z.to_nat (Z.of_nat (length (join before _ln)) + 1 + char))
    with (length (join before _ln) + (1 + Z.to_nat char))%nat by lia.
  rewrite drop_app_add'; [|done]. rewrite <- drop_drop.
  by destruct isWindows.
Qed.

Lemma takeWhile_split (p : ascii -> bool) s :
  exists rest, s = takeWhile p s ++ rest
    /\ Forall (fun c => p c = true) (takeWhile p s)
    /\ forall c, head rest = Some c -> p c = false.
Proof.
  induction s as [|c s (rest & Heq & Hall & Hhead)].
  - exists []. by repeat split.
  - cbn [takeWhile]. destruct (p c) eqn:Hc.
    + exists rest. repeat split; [simpl; by f_equal | by constructor | done].
    + exists (c :: s). repeat split; [done|]. by intros ? [= <-].
Qed.

(** X21: [getLastLine] returns the longest end of [s] without a character
    of the platform line break: what is before it is empty or ends with
    such a character. *)
Theorem getLastLine_is_longest_end_without_break s :
  exists before,
    s = before ++ getLastLine s
    /\ Forall (fun c => c ∉ _ln) (getLastLine s)
    /\ forall c, last before = Some c -> c ∈ _ln.
Proof.
  unfold Autocomplete.getLastLine.
  destruct (takeWhile_split (fun c => negb (existsb (ch_eqb c) _ln)) (rev s))
    as (rest & Heq & Hall & Hhead).
  exists (rev rest). repeat split.
  - rewrite <- rev_app_distr, <- Heq. by rewrite rev_involutive.
  - apply Forall_forall. intros c Hc.
    apply list_elem_of_In, in_rev, list_elem_of_In in Hc.
    rewrite Forall_forall in Hall. specialize (Hall c Hc). intros Hin.
    apply negb_true_iff in Hall. apply not_true_iff_false in Hall. apply Hall.
    apply existsb_exists. exists c. split; [by apply list_elem_of_In|].
    by apply ch_eqb_eq.
  - intros c Hc. rewrite last_rev in Hc. apply Hhead in Hc.
    apply negb_false_iff, existsb_exists in Hc as (x & Hx & Heqx).
    apply ch_eqb_eq in Heqx as ->. by apply list_elem_of_In.
Qed.

Lemma removeLeftTabs_keeps_text (st : LineState) s :
  removeAllWhitespace (removeLeftTabs st s) = removeAllWhitespace s.
Proof.
  unfold removeAllWhitespace. revert st.
  induction s as [|c s IH]; intros st; [done|].
  cbn [removeLeftTabs]. destruct st.
  - destruct (isWhiteSpace c) eqn:Hc.
    + rewrite filter_cons_False by (by rewrite Hc). apply IH.
    + rewrite !filter_cons_True by done. f_equal. apply IH.
  - destruct (isWhiteSpace c) eqn:Hc.
    + rewrite filter_cons_False by (by rewrite Hc). apply IH.
    + rewrite !filter_cons_True by done. f_equal. apply IH.
  - rewrite !filter_cons. destruct (decide _); [f_equal|]; apply IH.
Qed.

Lemma removeAllWhitespace_blank s :
  Forall (fun c => isWhiteSpace c = true) s -> removeAllWhitespace s = [].
Proof.
  unfold removeAllWhitespace. induction 1 as [|c s Hc Hs IH]; [done|].
  rewrite filter_cons_False by (by rewrite Hc). exact IH.
Qed.

Lemma removeAllWhitespace_app s1 s2 :
  removeAllWhitespace (s1 ++ s2) = removeAllWhitespace s1 ++ removeAllWhitespace s2.
Proof. apply filter_app. Qed.

(** White space in the result of the line-start removal comes only after a
    character that does not end a line. *)
Lemma removeLeftTabs_white_inside s : forall (st : LineState) (i : nat) c,
  removeLeftTabs st s !! i = Some c -> isWhiteSpace c = true ->
  match i with
  | O => st = InLine
  | S j => exists p, removeLeftTabs st s !! j = Some p /\ isLineTerminator p = false
  end.
Proof.
  assert (Hterm : forall c, isWhiteSpace c = false -> isLineTerminator c = false).
  { intros c Hc. destruct (isLineTerminator c) eqn:Ht; [|done].
    unfold isLineTerminator in Ht. unfold isWhiteSpace in Hc.
    by destruct c as [[] [] [] [] [] [] [] []]. }
  induction s as [|c0 s IH]; intros st i c Hi Hc; [by destruct i|].
  cbn [removeLeftTabs] in *.
  assert (Hstart : st <> InLine -> isWhiteSpace c0 = false ->
            (c0 :: removeLeftTabs InLine s) !! i = Some c ->
            match i with
            | O => st = InLine
            | S j => exists p, (c0 :: removeLeftTabs InLine s) !! j = Some p
                               /\ isLineTerminator p = false
            end).
  { intros Hst Hc0 Hi'. destruct i as [|[|j]]; simpl in *.
    - injection Hi' as ->. congruence.
    - exists c0. split; [done|]. by apply Hterm.
    - destruct (IH InLine (S j) c Hi' Hc) as (p & Hp & Htp). by exists p. }
  destruct st.
  - destruct (isWhiteSpace c0) eqn:Hc0.
    + destruct i as [|j].
      * by specialize (IH _ _ _ Hi Hc).
      * apply (IH _ _ _ Hi Hc).
    + by apply Hstart.
  - destruct (isWhiteSpace c0) eqn:Hc0.
    + destruct i as [|j].
      * by specialize (IH _ _ _ Hi Hc).
      * apply (IH _ _ _ Hi Hc).
    + by apply Hstart.
  - destruct i as [|[|j]]; simpl in *.
    + done.
    + exists c0. split; [done|].
      specialize (IH _ _ _ Hi Hc). simpl in IH.
      by destruct (isLineTerminator c0).
    + destruct (IH _ (S j) c Hi Hc) as (p & Hp & Htp). by exists p.
Qed.

(** X22: [removeLeftTabsAndTrimEnds] removes white space only, and leaves
    none at the start of the text or of a line: in its result a white-space
    character, a line break among them, follows a character that does not
    end a line. *)
Theorem removeLeftTabsAndTrimEnds_strips_line_starts s :
  removeAllWhitespace (removeLeftTabsAndTrimEnds s) = removeAllWhitespace s
  /\ forall (i : nat) c,
       removeLeftTabsAndTrimEnds s !! i = Some c -> isWhiteSpace c = true ->
       exists (j : nat) p,
         i = S j /\ removeLeftTabsAndTrimEnds s !! j = Some p
         /\ isLineTerminator p = false.
Proof.
  unfold Autocomplete.removeLeftTabsAndTrimEnds. split.
  - rewrite removeLeftTabs_keeps_text.
    destruct (includes _ _); [|done].
    destruct (trimEnd_split s) as (trail & Heq & Htrail & _).
    rewrite Heq at 2. rewrite !removeAllWhitespace_app. f_equal.
    rewrite (removeAllWhitespace_blank trail Htrail).
    apply removeAllWhitespace_blank. apply Forall_forall. intros c Hc.
    destruct (isWhiteSpace c) eqn:Hw; [done|].
    pose proof (ln_all_breaks isWindows c Hc) as Ht.
    unfold isLineTerminator in Ht. unfold isWhiteSpace in Hw.
    by destruct c as [[] [] [] [] [] [] [] []].
  - intros i c Hi Hc.
    pose proof (removeLeftTabs_white_inside _ AtLineStart i c Hi Hc) as Hin.
    destruct i as [|j]; [done|]. destruct Hin as (p & Hp & Htp). by exists j, p.
Qed.
End OffsetFacts.

(** ** The further properties at work on concrete inputs *)

Section FurtherInstances.
Import Js Autocomplete.

(** Five calls on a cache of capacity two. *)
Lemma LRUCache_five_calls_capacity_two :
  let cb := Some (fun v k : Z => v) in
  let c0 := LRUCache.mk [] [] 2 cb in
  let xs := [LRUCache.CallSet 1 10; LRUCache.CallSet 2 20; LRUCache.CallSet 3 30;
             LRUCache.CallDelete 3; LRUCache.CallSet 2 21] in
  LRUCache.new 2 cb = inr c0
  /\ NoDup (JsMap.keys (LRUCache.items (LRUCache.performAll c0 xs).1))
  /\ (LRUCache.keyOrder (LRUCache.performAll c0 xs).1
      ≡ₚ JsMap.keys (LRUCache.items (LRUCache.performAll c0 xs).1))
  /\ Z.of_nat (LRUCache.size (LRUCache.performAll c0 xs).1) <= 2
  /\ LRUCache.maxSize (LRUCache.performAll c0 xs).1 = 2.
Proof.
  intros cb c0 xs.
  assert (H1 : LRUCache.new 2 cb = inr c0) by reflexivity.
  split; [exact H1|].
  exact (LRUCache_calls_keep_keys_and_capacity 2 cb c0 xs H1).
Defined.

Lemma wellFormed_two_of_two :
  LRUCache.wellFormed
    (LRUCache.mk [(1, 10); (2, 20)] [1; 2] 2 (Some (fun v k : Z => v + k))).
Proof.
  unfold LRUCache.wellFormed. simpl.
  split; [compute_done|]. split; [reflexivity|]. split; [reflexivity|]. discriminate.
Defined.

(** The second entry of a cache of two is deleted. *)
Lemma LRUCache_delete_second_of_two :
  let cb := fun v k : Z => v + k in
  let c := LRUCache.mk [(1, 10); (2, 20)] [1; 2] 2 (Some cb) in
  LRUCache.wellFormed c
  /\ LRUCache.disposeCallback c = Some cb
  /\ (LRUCache.delete c 2).2 = [LRUCache.Dispose 22 20 2; LRUCache.ItemsDelete 2]
  /\ S (LRUCache.size (LRUCache.delete c 2).1.1) = LRUCache.size c.
Proof.
  intros cb c.
  assert (H1 : LRUCache.wellFormed c) by exact wellFormed_two_of_two.
  assert (H2 : LRUCache.disposeCallback c = Some cb) by reflexivity.
  split; [exact H1|]. split; [exact H2|].
  pose proof (LRUCache_delete_removes_one_entry c 2 cb H1 H2) as H.
  change (JsMap.get (LRUCache.items c) 2) with (Some 20) in H.
  destruct H as (_ & Hops & _ & _ & Hsize & _).
  split; [exact Hops | exact Hsize].
Defined.

(** A third key into a full cache of two. *)
Lemma LRUCache_set_third_of_two :
  let cb := fun v k : Z => v + k in
  let c := LRUCache.mk [(1, 10); (2, 20)] [1; 2] 2 (Some cb) in
  LRUCache.wellFormed c
  /\ LRUCache.disposeCallback c = Some cb
  /\ LRUCache.has c 3 = false
  /\ LRUCache.maxSize c <= Z.of_nat (LRUCache.size c)
  /\ (LRUCache.set c 3 30).2
     = [LRUCache.Dispose 11 10 1; LRUCache.ItemsDelete 1; LRUCache.ItemsSet 3 30]
  /\ LRUCache.size (LRUCache.set c 3 30).1 = LRUCache.size c.
Proof.
  intros cb c.
  assert (H1 : LRUCache.wellFormed c) by exact wellFormed_two_of_two.
  assert (H2 : LRUCache.disposeCallback c = Some cb) by reflexivity.
  assert (H3 : LRUCache.has c 3 = false) by reflexivity.
  assert (H4 : LRUCache.maxSize c <= Z.of_nat (LRUCache.size c)) by discriminate.
  split; [exact H1|]. split; [exact H2|]. split; [exact H3|]. split; [exact H4|].
  destruct (LRUCache_set_at_capacity_evicts_least_recent c 3 30 cb H1 H2 H3 H4)
    as (key0 & value0 & _ & _ & _ & _ & _ & _ & Hsize & _).
  split; [reflexivity | exact Hsize].
Defined.

(** A cache of two is cleared. *)
Lemma LRUCache_clear_two :
  let cb := fun v k : Z => v + k in
  let c := LRUCache.mk [(1, 10); (2, 20)] [1; 2] 2 (Some cb) in
  LRUCache.disposeCallback c = Some cb
  /\ LRUCache.disposals (LRUCache.clear c).2 = [(10, 1); (20, 2)]
  /\ LRUCache.size (LRUCache.clear c).1 = 0%nat.
Proof.
  intros cb c.
  assert (H1 : LRUCache.disposeCallback c = Some cb) by reflexivity.
  split; [exact H1|].
  destruct (LRUCache_clear_disposes_every_entry c cb H1) as (Hd & _ & Hsize & _).
  split; [exact Hd | exact Hsize].
Defined.

(** The first key of a full cache of two is set again before a third key
    comes: the second key goes. *)
Lemma LRUCache_refresh_first_of_two :
  let cb := fun v k : Z => v + k in
  let c := LRUCache.mk [(1, 10); (2, 20)] [1; 2] 2 (Some cb) in
  LRUCache.wellFormed c
  /\ LRUCache.disposals (LRUCache.set (LRUCache.set c 1 11).1 3 30).2 = [(20, 2)]
  /\ JsMap.get (LRUCache.items (LRUCache.set (LRUCache.set c 1 11).1 3 30).1) 1
     = Some 11
  /\ LRUCache.has (LRUCache.set (LRUCache.set c 1 11).1 3 30).1 2 = false.
Proof.
  intros cb c.
  assert (H1 : LRUCache.wellFormed c) by exact wellFormed_two_of_two.
  assert (H2 : LRUCache.disposeCallback c = Some cb) by reflexivity.
  assert (H3 : LRUCache.keyOrder c = 1 :: 2 :: []) by reflexivity.
  assert (H4 : LRUCache.maxSize c <= Z.of_nat (LRUCache.size c)) by discriminate.
  assert (H5 : LRUCache.has c 3 = false) by reflexivity.
  assert (H6 : JsMap.get (LRUCache.items c) 2 = Some 20) by reflexivity.
  split; [exact H1|].
  destruct (LRUCache_refreshed_key_outlives_next c 1 2 3 [] 11 20 30 cb
              H1 H2 H3 H4 H5 H6) as (Hd & Hg & Hh & _).
  split; [exact Hd|]. split; [exact Hg | exact Hh].
Defined.

(** The prediction [foo(a)] after [x = ], of which [fo] has been typed. *)
Lemma getAutocompletionMatchup_after_typing_fo :
  let a := Autocompletion.mk 0 (lit "x = ") [] (lit "x = ") [] 0 (Some 5) Finished
             SingleLineFillMiddle (Some (Resolved (lit "foo(a)"))) (lit "foo(a)")
             None 0 in
  Autocompletion.insertText a = lit "fo" ++ lit "o(a)"
  /\ getAutocompletionMatchup false (lit "x = fo") a
     = Some (AutocompletionMatchupBounds.mk 0 2 2).
Proof.
  intros a.
  assert (H1 : Autocompletion.insertText a = lit "fo" ++ lit "o(a)") by reflexivity.
  split; [exact H1|].
  apply (getAutocompletionMatchup_after_typing false a (lit "fo") (lit "o(a)") H1).
  - repeat constructor.
  - intros c Hc. injection Hc as <-. reflexivity.
  - intros c Hc. injection Hc as <-. reflexivity.
Defined.

(** The same prediction found for the prefix [x = fo]. *)
Lemma getAutocompletionMatchup_along_foo :
  let a := Autocompletion.mk 0 (lit "x = ") [] (lit "x = ") [] 0 (Some 5) Finished
             SingleLineFillMiddle (Some (Resolved (lit "foo(a)"))) (lit "foo(a)")
             None 0 in
  let m := AutocompletionMatchupBounds.mk 0 2 2 in
  getAutocompletionMatchup false (lit "x = fo") a = Some m
  /\ lit "x = fo" `prefix_of` lit "x = " ++ lit "foo(a)"
  /\ AutocompletionMatchupBounds.startLine m = 1 - 1.
Proof.
  intros a m.
  assert (H1 : getAutocompletionMatchup false (lit "x = fo") a = Some m)
    by reflexivity.
  split; [exact H1|].
  destruct (getAutocompletionMatchup_only_along_prediction false (lit "x = fo") a m H1)
    as (Hpre & _ & _ & Hline).
  split; [exact Hpre | exact Hline].
Defined.

(** The cache of [a.ts] after the run [twoDocuments]. *)
Lemma document_cache_of_two_documents :
  let st := run false extractCodeFromRegular_spec initialState twoDocuments in
  exists cache,
    _autocompletionsOfDocument st !! "a.ts"%string = Some cache
    /\ (LRUCache.size cache <= 20)%nat
    /\ NoDup (JsMap.keys (LRUCache.items cache)).
Proof.
  intros st. eexists. split; [reflexivity|].
  match goal with
  | |- (LRUCache.size ?cache <= _)%nat /\ _ =>
      destruct (document_caches_hold_at_most_20 false extractCodeFromRegular_spec
                  twoDocuments "a.ts"%string cache eq_refl) as (Hsize & Hnd & _)
  end.
  split; [exact Hsize | exact Hnd].
Defined.

(** The answered request of [twoDocuments], on which the timer, an error
    and an abort still arrive. *)
Lemma answered_request_keeps_its_promise :
  let st := run false extractCodeFromRegular_spec initialState twoDocuments in
  let late := [TimeoutFires 0%nat; ErrorMessage 0%nat (lit "late") 1300;
               Aborted 0%nat] in
  exists a a',
    heap st !! 0%nat = Some a
    /\ heap (run false extractCodeFromRegular_spec st late) !! 0%nat = Some a'
    /\ Autocompletion.llmPromise a = Some (Resolved (lit "1;"))
    /\ Autocompletion.llmPromise a' = Autocompletion.llmPromise a
    /\ Autocompletion.status a' <> Pending.
Proof.
  intros st late. eexists.
  match goal with
  | |- exists a', heap st !! 0%nat = Some ?a /\ _ =>
      destruct (settled_request_is_never_settled_again false
                  extractCodeFromRegular_spec late st 0%nat a eq_refl)
        as (a' & Ha' & _ & _ & _ & _ & _ & _ & _ & _ & Hp & Hs)
  end.
  exists a'. split; [reflexivity|]. split; [exact Ha'|]. split; [reflexivity|].
  split; [apply Hp; discriminate | apply Hs; discriminate].
Defined.

(** The pending request of [twoDocuments]. *)
Lemma pending_request_of_two_documents :
  let st := run false extractCodeFromRegular_spec initialState twoDocuments in
  exists a,
    heap st !! 1%nat = Some a
    /\ Autocompletion.status a = Pending
    /\ Autocompletion.insertText a = []
    /\ Autocompletion.endTime a = None.
Proof.
  intros st. eexists. split; [reflexivity|].
  match goal with
  | |- Autocompletion.status ?a = _ /\ _ =>
      destruct (pending_request_holds_no_text false extractCodeFromRegular_spec
                  twoDocuments 1%nat a eq_refl) as (_ & Hpend & _)
  end.
  split; [reflexivity|].
  destruct (Hpend eq_refl) as (Htext & Hend & _).
  split; [exact Htext | exact Hend].
Defined.

(** The answer [1;] of [twoDocuments] is accepted: the text before the
    cursor is then [x = 1;]. *)
Lemma accepted_answer_of_two_documents :
  let st := run false extractCodeFromRegular_spec initialState twoDocuments in
  let st' := freeInlineCompletions st "a.ts"%string (lit "x = 1;") 5000 in
  exists cache cache',
    _autocompletionsOfDocument st !! "a.ts"%string = Some cache
    /\ LRUCache.items cache = [(0, 0%nat)]
    /\ _autocompletionsOfDocument st' !! "a.ts"%string = Some cache'
    /\ LRUCache.items cache' = []
    /\ _lastCompletionAccept st' = 5000.
Proof.
  intros st st'. eexists.
  match goal with
  | |- exists cache', _autocompletionsOfDocument st !! _ = Some ?cache /\ _ =>
      destruct (freeInlineCompletions_deletes_the_accepted false
                  extractCodeFromRegular_spec twoDocuments "a.ts"%string
                  (lit "x = 1;") 5000 cache eq_refl)
        as ((cache' & Hc' & Hi') & _ & _ & _ & _ & Ha)
  end.
  exists cache'. split; [reflexivity|]. split; [reflexivity|].
  split; [exact Hc'|]. split; [exact Hi' | exact Ha].
Defined.

(** Column 1 of the second of three lines. *)
Lemma getIndex_second_line :
  let s := lit "ab" ++ [LF] ++ lit "cd" ++ [LF] ++ lit "e" in
  0 < 1 < Z.of_nat (length (split s (_ln false)))
  /\ getIndex false s 1 1 = 4
  /\ drop (Z.to_nat (getIndex false s 1 1)) s = lit "d" ++ [LF] ++ lit "e".
Proof.
  intros s.
  assert (H1 : 0 < 1 < Z.of_nat (length (split s (_ln false))))
    by (split; reflexivity).
  assert (H2 : 0 <= 1) by discriminate.
  split; [exact H1|]. split; [reflexivity|].
  exact (getIndex_is_offset_up_to_break_length false s 1 1 H1 H2).
Defined.
End FurtherInstances.
